(** * LootProbabilityManager: a shallow embedding and its properties

    The development follows [src/LootProbabilityManager.ts], the single
    method [getUpdatedLootTables] and the closures it defines, stage by
    stage:

    - [itemsInInventory]            lines 57-74
    - [checkIfHasEnoughAndRemove]   lines 78-109
    - [allItemRequirements] (sort)  lines 111-140
    - [incompleteItemRequirements]  lines 144-164
    - [itemDropRateMultipliers]     lines 174-204
    - [getNewLootProbability]       lines 217-247
    - [newStaticLoot], [newLocations]  lines 250-317

    Item counts, amounts and elapsed values are integers ([Z]); on
    integers below 2^53 the arithmetic of JavaScript numbers is exact.
    Multipliers and probabilities are doubles: a number is modelled by
    its value, a rational ([Q]), and a product or a sum is the exact
    result rounded to the nearest double, a tie going to the even
    mantissa, as IEEE 754 does ([Num.mul], [Num.add]).  NaN, the
    infinities (results beyond 2^1024) and the sign of zero are outside
    the model.  Objects used as dictionaries are finite maps
    ([gmap string _]), looked up by their own properties only; arrays
    are lists.  Stages 1 to 3 work on objects
    of their own and are written with explicit state; stage 4 reads the
    tables of the caller and builds new ones, and is written on a heap
    of objects, so that what it assigns to can be stated.  The values
    imported from [config/config.json] are the fields of [Config].
    Logging ([debug], [trace]) has no effect on the result and is left
    out. *)

From Stdlib Require Import ZArith QArith Qround Qminmax Qpower Qreduction.
From Stdlib Require Import Lqa Lia.
From Stdlib Require Import Sorting.Sorted Sorting.Permutation.
From stdpp Require Import gmap strings list fin_maps.

Local Open Scope Z_scope.

(** ** Numbers *)

Module Num.

(** [Math.round]: the nearest integer, a tie going up. *)
Definition round (x : Q) : Z := Qfloor (x + (1 # 2))%Q.

(** [Math.max] and [Math.min] on two arguments. *)
Definition max (x y : Q) : Q := Qmax x y.
Definition min (x y : Q) : Q := Qmin x y.

(** *** Doubles

    A double other than 0 is [m * 2^e] with an integer [m] of at most
    53 bits and [e >= -1074].  [rnd q] is the double nearest to [q]. *)

Definition pow2 (e : Z) : Q := (2 ^ e)%Q.

(** The integer part of the binary logarithm of [q > 0]: the [k] with
    [2^k <= q < 2^(k+1)].  The shift [s] makes [q * 2^s] at least 1. *)
Definition ilog2 (q : Q) : Z :=
  let s := Z.log2 (Zpos (Qden q)) + 1 in
  Z.log2 (Qfloor (q * pow2 s)) - s.

(** The nearest integer, a tie going to the even one. *)
Definition rne (x : Q) : Z :=
  let f := Qfloor x in
  match (x - inject_Z f ?= 1 # 2)%Q with
  | Lt => f
  | Gt => f + 1
  | Eq => if Z.even f then f else f + 1
  end.

(** The exponent of the last bit of the doubles around [q > 0]: 52
    below the binary logarithm, and not below that of the subnormal
    doubles. *)
Definition ulp (q : Q) : Z := Z.max (ilog2 q - 52) (-1074).

Definition rndPos (q : Q) : Q :=
  Qred (inject_Z (rne (q / pow2 (ulp q))) * pow2 (ulp q)).

Definition rnd (q : Q) : Q :=
  match (q ?= 0)%Q with
  | Eq => 0%Q
  | Gt => rndPos q
  | Lt => (- rndPos (- q))%Q
  end.

(** [x + y], [x * y] and [x / y] on doubles. *)
Definition add (x y : Q) : Q := rnd (x + y).
Definition mul (x y : Q) : Q := rnd (x * y).
Definition div (x y : Q) : Q := rnd (x / y).

(** The number a decimal literal denotes, as [0.1] in a JSON file. *)
Definition number (literal : Q) : Q := rnd literal.

(** The values that are doubles. *)
Definition isDouble (x : Q) : Prop := (rnd x == x)%Q.

End Num.

(** ** Configuration ([config/config.json]) *)

Record Config := {
  maxDropRateMultiplier : Q;
  dropRateIncreaseType : string;
  dropRateIncreasePerRaid : Q;
  dropRateIncreasePerHour : Q;
  keysAdditionalMultiplier : Q;
  increasesStack : bool
}.

(** [dropRateIncreaseType === "raid"] *)
Definition isRaidBased (cfg : Config) : bool :=
  String.eqb (dropRateIncreaseType cfg) "raid".

(** ** Data model *)

Record BaseItemRequirement := {
  itemId : string;
  amountRequired : Z;
  secondsSinceStarted : Z;
  raidsSinceStarted : Z
}.

(** The tagged union [ItemRequirement]; the tag is the constructor. *)
Inductive ItemRequirement :=
| Quest (conditionId : string) (foundInRaid : bool) (base : BaseItemRequirement)
| QuestKey (base : BaseItemRequirement)
| Hideout (base : BaseItemRequirement).

Definition base (req : ItemRequirement) : BaseItemRequirement :=
  match req with
  | Quest _ _ b => b
  | QuestKey b => b
  | Hideout b => b
  end.

(** [req.type === "questKey"] *)
Definition isQuestKey (req : ItemRequirement) : bool :=
  match req with QuestKey _ => true | _ => false end.

(** [req.type === "quest" && req.foundInRaid] *)
Definition isFir (req : ItemRequirement) : bool :=
  match req with Quest _ fir _ => fir | _ => false end.

(** The part of the profile the method reads:
    [profile.characters.pmc.Inventory.items] and
    [profile.characters.pmc.BackendCounters]. *)
Record Upd := {
  StackObjectsCount : option Z;
  SpawnedInSession : option bool
}.

Record Item := {
  _tpl : string;
  upd : option Upd
}.

Record BackendCounter := { value : Z }.

Record Profile := {
  items : list Item;
  BackendCounters : gmap string BackendCounter
}.

(** The value type of [itemsInInventory]. *)
Record ItemCount := {
  foundInRaid : Z;
  notFoundInRaid : Z
}.

(** ** Stage 1: inventory aggregation (lines 57-74) *)

(** Truthiness of an optional boolean, as in [if (foundInRaid)]. *)
Definition truthy (b : option bool) : bool := default false b.

(** The body of the [forEach] callback.  [itemRecord] is the object
    stored under [item._tpl] (created by [??=] when absent); the update
    of one of its fields is written back under the same key. *)
Definition addItem (itemsInInventory : gmap string ItemCount) (item : Item)
    : gmap string ItemCount :=
  let numItems := upd item ≫= StackObjectsCount in
  let foundInRaid_ := upd item ≫= SpawnedInSession in
  let count := default 1 numItems in
  let itemRecord :=
    default {| foundInRaid := 0; notFoundInRaid := 0 |}
            (itemsInInventory !! _tpl item) in
  if truthy foundInRaid_
  then <[_tpl item :=
           {| foundInRaid := foundInRaid itemRecord + count;
              notFoundInRaid := notFoundInRaid itemRecord |}]> itemsInInventory
  else <[_tpl item :=
           {| foundInRaid := foundInRaid itemRecord;
              notFoundInRaid := notFoundInRaid itemRecord + count |}]> itemsInInventory.

Definition itemsInInventory (profile : Profile) : gmap string ItemCount :=
  foldl addItem ∅ (items profile).

(** ** Stage 2: consumption (lines 78-109) *)

(** The function mutates [itemCount] and returns a boolean; here it
    returns the boolean together with the record after the call. *)
Definition checkIfHasEnoughAndRemove
    (itemCount : ItemCount) (amountNeeded : Z) (fir : bool) : bool * ItemCount :=
  if fir then
    if foundInRaid itemCount >=? amountNeeded then
      (true, {| foundInRaid := foundInRaid itemCount - amountNeeded;
                notFoundInRaid := notFoundInRaid itemCount |})
    else (false, itemCount)
  else
    if notFoundInRaid itemCount >=? amountNeeded then
      (true, {| foundInRaid := foundInRaid itemCount;
                notFoundInRaid := notFoundInRaid itemCount - amountNeeded |})
    else if notFoundInRaid itemCount + foundInRaid itemCount >=? amountNeeded then
      let amountNeeded' := amountNeeded - notFoundInRaid itemCount in
      (true, {| foundInRaid := foundInRaid itemCount - amountNeeded';
                notFoundInRaid := -1 |})
    else (false, itemCount).

(** ** Stage 2: ordering (lines 111-140) *)

(** The comparator passed to [sort]. *)
Definition compareRequirements (cfg : Config) (a b : ItemRequirement) : Z :=
  let aFir := isFir a in
  let bFir := isFir b in
  if aFir && negb bFir then -1
  else if bFir && negb aFir then 1
  else if isRaidBased cfg
       then raidsSinceStarted (base a) - raidsSinceStarted (base b)
       else secondsSinceStarted (base a) - secondsSinceStarted (base b).

Module Array.

(** [Array.prototype.sort] with a comparator: a stable sort, in which
    [a] stays before [b] unless the comparator is positive on them.
    It is modelled as the insertion sort that inserts from the right:
    an element goes in front of the first element it does not exceed,
    so that it stays ahead of its equals. *)
Section Sort.
Context {A : Type} (cmp : A -> A -> Z).

Fixpoint insert (x : A) (l : list A) : list A :=
  match l with
  | [] => [x]
  | y :: l' => if cmp x y <=? 0 then x :: y :: l' else y :: insert x l'
  end.

Definition sort (l : list A) : list A := foldr insert [] l.

End Sort.

End Array.

Definition allItemRequirements (cfg : Config)
    (questItemRequirements hideoutItemRequirements : list ItemRequirement)
    : list ItemRequirement :=
  Array.sort (compareRequirements cfg)
             (questItemRequirements ++ hideoutItemRequirements).

(** ** Stage 2: the filter (lines 144-164) *)

(** The amount passed to [checkIfHasEnoughAndRemove] and whether
    found-in-raid copies are demanded. *)
Definition conditionProgress (profile : Profile) (conditionId : string) : Z :=
  match BackendCounters profile !! conditionId with
  | Some counter => value counter
  | None => 0
  end.

Definition amountNeeded (profile : Profile) (req : ItemRequirement) : Z :=
  match req with
  | QuestKey _ => 1
  | Quest conditionId _ b => amountRequired b - conditionProgress profile conditionId
  | Hideout b => amountRequired b
  end.

(** The body of the [filter] callback: the returned boolean ([true]
    keeps the requirement as incomplete) and the inventory after the
    call.  [itemCount] is the object stored in the inventory, so what
    [checkIfHasEnoughAndRemove] does to it is seen under the same key by
    the requirements that follow. *)
Definition filterStep (profile : Profile)
    (inv : gmap string ItemCount) (req : ItemRequirement)
    : bool * gmap string ItemCount :=
  match inv !! itemId (base req) with
  | None => (true, inv)
  | Some itemCount =>
      let '(ok, itemCount') :=
        match req with
        | QuestKey _ => checkIfHasEnoughAndRemove itemCount 1 false
        | Quest conditionId fir b =>
            let numMoreNeeded :=
              amountRequired b - conditionProgress profile conditionId in
            checkIfHasEnoughAndRemove itemCount numMoreNeeded fir
        | Hideout b => checkIfHasEnoughAndRemove itemCount (amountRequired b) false
        end in
      (negb ok, <[itemId (base req) := itemCount']> inv)
  end.

(** [Array.prototype.filter] with that callback, left to right. *)
Fixpoint filterRequirements (profile : Profile)
    (inv : gmap string ItemCount) (reqs : list ItemRequirement)
    : list ItemRequirement * gmap string ItemCount :=
  match reqs with
  | [] => ([], inv)
  | req :: rest =>
      let '(keep, inv') := filterStep profile inv req in
      let '(out, inv'') := filterRequirements profile inv' rest in
      (if keep then req :: out else out, inv'')
  end.

Definition incompleteItemRequirements (cfg : Config) (profile : Profile)
    (questItemRequirements hideoutItemRequirements : list ItemRequirement)
    : list ItemRequirement :=
  (filterRequirements profile (itemsInInventory profile)
     (allItemRequirements cfg questItemRequirements hideoutItemRequirements)).1.

(** ** Stage 3: multipliers (lines 174-204) *)

Record DropRateStats := {
  timeBasedDropRateMultiplier : Q;
  raidBasedDropRateMultiplier : Q;
  isKey : bool
}.

(** Line 189.  The two quotients are taken exactly.  The quotients of
    doubles, [Num.div (Num.div s 60) 60], round to the same hour for
    the whole seconds up to 2^50 ([hoursSinceStarted_doubles] below):
    a half hour is divided without error, and any other time is
    further from a half hour than the two rounding errors. *)
Definition hoursSinceStarted (req : ItemRequirement) : Z :=
  Num.round (inject_Z (secondsSinceStarted (base req)) / 60 / 60)%Q.

(** The body of the [forEach] callback over the incomplete
    requirements.  [stats] is the object stored under [req.itemId]
    (created by [??=] when absent, and only then is [isKey] set). *)
Definition statsStep (cfg : Config)
    (mults : gmap string DropRateStats) (req : ItemRequirement)
    : gmap string DropRateStats :=
  let stats :=
    default {| timeBasedDropRateMultiplier := 1;
               raidBasedDropRateMultiplier := 1;
               isKey := isQuestKey req |}
            (mults !! itemId (base req)) in
  let timeMult :=
    Num.add (Num.mul (inject_Z (hoursSinceStarted req))
                     (dropRateIncreasePerHour cfg))
            (if increasesStack cfg then timeBasedDropRateMultiplier stats else 1) in
  let time' := Num.max (timeBasedDropRateMultiplier stats) timeMult in
  let raidMult :=
    Num.add (Num.mul (inject_Z (raidsSinceStarted (base req)))
                     (dropRateIncreasePerRaid cfg))
            (if increasesStack cfg then raidBasedDropRateMultiplier stats else 1) in
  let raid' := Num.max (raidBasedDropRateMultiplier stats) raidMult in
  <[itemId (base req) :=
      {| timeBasedDropRateMultiplier := time';
         raidBasedDropRateMultiplier := raid';
         isKey := isKey stats |}]> mults.

Definition dropRateMultipliersOf (cfg : Config) (incomplete : list ItemRequirement)
    : gmap string DropRateStats :=
  foldl (statsStep cfg) ∅ incomplete.

Definition itemDropRateMultipliers (cfg : Config) (profile : Profile)
    (questItemRequirements hideoutItemRequirements : list ItemRequirement)
    : gmap string DropRateStats :=
  dropRateMultipliersOf cfg
    (incompleteItemRequirements cfg profile
       questItemRequirements hideoutItemRequirements).

(** ** Stage 4: the new probability of one entry (lines 217-247) *)

(** The multiplier of the configured basis. *)
Definition basisMultiplier (cfg : Config) (stats : DropRateStats) : Q :=
  if isRaidBased cfg
  then raidBasedDropRateMultiplier stats
  else timeBasedDropRateMultiplier stats.

Definition getNewLootProbability (cfg : Config)
    (mults : gmap string DropRateStats) (tpl : string) (relativeProbability : Q)
    : Q :=
  match mults !! tpl with
  | None => relativeProbability
  | Some maybeMult =>
      let p1 :=
        if isRaidBased cfg
        then Num.mul relativeProbability
                     (Num.min (maxDropRateMultiplier cfg)
                              (raidBasedDropRateMultiplier maybeMult))
        else Num.mul relativeProbability
                     (Num.min (maxDropRateMultiplier cfg)
                              (timeBasedDropRateMultiplier maybeMult)) in
      let p2 :=
        if isKey maybeMult then Num.mul p1 (keysAdditionalMultiplier cfg) else p1 in
      inject_Z (Num.round p2)
  end.

(** ** Stage 4: the loot tables (lines 250-318)

    The tables are objects that the caller holds references to, so this
    stage is modelled on a heap: a value is a primitive or a reference,
    an object is a dictionary of properties or an array, and the code
    reads, allocates and assigns.  A run has one of three outcomes: it
    returns a result and a heap; it throws (a [TypeError], as a property
    read on [undefined]); or it leaves the model, where the program goes
    on with a conversion or a built-in property that is not modelled (a
    number used as a key, a property of a string or of an array, ...),
    and nothing is said of it.  Values are data: there are no function
    values, so that an object has no method of its own. *)

Module JS.

Definition loc := nat.

Inductive val :=
| VUndefined
| VNull
| VBool (b : bool)
| VNumber (q : Q)
| VString (s : string)
| VRef (l : loc).

Inductive obj :=
| Obj (props : gmap string val)
| Arr (elems : list val).

Abbreviation heap := (gmap loc obj).

(** Truthiness, as in [!location] and [!tpl]. *)
Definition toBoolean (v : val) : bool :=
  match v with
  | VUndefined | VNull => false
  | VBool b => b
  | VNumber q => negb (Qeq_bool q 0)
  | VString s => negb (String.eqb s "")
  | VRef _ => true
  end.

Inductive outcome (A : Type) :=
| Returns (a : A) (h : heap)
| Throws
| Unmodelled.

Arguments Returns {A} a h.
Arguments Throws {A}.
Arguments Unmodelled {A}.

Definition M (A : Type) : Type := heap -> outcome A.

Definition ret {A : Type} (a : A) : M A := fun h => Returns a h.

Definition bind {A B : Type} (m : M A) (k : A -> M B) : M B :=
  fun h => match m h with
           | Returns a h' => k a h'
           | Throws => Throws
           | Unmodelled => Unmodelled
           end.

Definition throw {A : Type} : M A := fun _ => Throws.

Definition unmodelled {A : Type} : M A := fun _ => Unmodelled.

(** The result of a run that returns. *)
Definition result {A : Type} (o : outcome A) : option A :=
  match o with Returns a _ => Some a | _ => None end.

Notation "'let*' x ':=' m 'in' k" := (bind m (fun x => k))
  (at level 10, x binder, k at level 200).

(** A new object, at an address not in use. *)
Definition alloc (o : obj) : M val :=
  fun h => let l := fresh (dom h) in Returns (VRef l) (<[l := o]> h).

(** The object a reference points to.  A run meets no reference to an
    address that holds nothing. *)
Definition deref (l : loc) : M obj :=
  fun h => match h !! l with Some o => Returns o h | None => Unmodelled end.

(** [v.k] and [v[k]].  On an object a missing property reads as
    [undefined]; on [undefined] and [null] the read throws; booleans,
    numbers, strings and arrays have built-in properties. *)
Definition getProp (v : val) (k : string) : M val :=
  match v with
  | VUndefined | VNull => throw
  | VRef l =>
      let* o := deref l in
      match o with
      | Obj props => ret (default VUndefined (props !! k))
      | Arr _ => unmodelled
      end
  | _ => unmodelled
  end.

(** [v[k] = x].  The program assigns to objects it has made. *)
Definition setProp (v : val) (k : string) (x : val) : M unit :=
  fun h => match v with
           | VRef l =>
               match h !! l with
               | Some (Obj props) =>
                   Returns tt (<[l := Obj (<[k := x]> props)]> h)
               | _ => Unmodelled
               end
           | _ => Unmodelled
           end.

(** [k in v], for a [k] that is not a built-in property; it throws on
    what is not an object. *)
Definition hasProp (k : string) (v : val) : M bool :=
  match v with
  | VRef l =>
      let* o := deref l in
      match o with
      | Obj props => ret (bool_decide (is_Some (props !! k)))
      | Arr _ => ret false
      end
  | _ => throw
  end.

(** The properties copied by [{...v}]: none for [undefined], [null],
    a boolean and a number; those of an object; a string and an array
    give their indices. *)
Definition spread (v : val) : M (gmap string val) :=
  match v with
  | VUndefined | VNull | VBool _ | VNumber _ => ret ∅
  | VString _ => unmodelled
  | VRef l =>
      let* o := deref l in
      match o with
      | Obj props => ret props
      | Arr _ => unmodelled
      end
  end.

(** [Object.entries(v)]: it throws on [undefined] and [null] and has
    no pair for a boolean or a number.  The pairs come in the order of
    the map, not in the order of insertion; the loops over them assign
    each key once, to a dictionary, so that the order does not show. *)
Definition entries (v : val) : M (list (string * val)) :=
  match v with
  | VUndefined | VNull => throw
  | VBool _ | VNumber _ => ret []
  | VString _ => unmodelled
  | VRef l =>
      let* o := deref l in
      match o with
      | Obj props => ret (map_to_list props)
      | Arr _ => unmodelled
      end
  end.

(** The elements of the array that [v.map] and [v.forEach] go over.
    What is not an array has no such method, and the call throws. *)
Definition elems (v : val) : M (list val) :=
  match v with
  | VRef l =>
      let* o := deref l in
      match o with
      | Arr vs => ret vs
      | Obj _ => throw
      end
  | _ => throw
  end.

(** The property key a value is used as in [o[v]]: a string is its own
    key, and [undefined], [null] and the booleans are keys by their
    names.  The keys of numbers and of objects are not modelled. *)
Definition asString (v : val) : M string :=
  match v with
  | VString s => ret s
  | VUndefined => ret "undefined"
  | VNull => ret "null"
  | VBool true => ret "true"
  | VBool false => ret "false"
  | VNumber _ | VRef _ => unmodelled
  end.

(** The number a value is multiplied as.  What is not a number is
    converted by the program (to NaN for one); this is not modelled. *)
Definition asNumber (v : val) : M Q :=
  match v with VNumber q => ret q | _ => unmodelled end.

Fixpoint mapM {A B : Type} (f : A -> M B) (l : list A) : M (list B) :=
  match l with
  | [] => ret []
  | x :: l' => let* y := f x in
               let* ys := mapM f l' in
               ret (y :: ys)
  end.

(** [for (const x of l)] and [l.forEach]. *)
Fixpoint forEach {A : Type} (f : A -> M unit) (l : list A) : M unit :=
  match l with
  | [] => ret tt
  | x :: l' => let* _ := f x in forEach f l'
  end.

(** [arr.map(f)]: a new array. *)
Definition arrayMap (f : val -> M val) (arr : val) : M val :=
  let* vs := elems arr in
  let* vs' := mapM f vs in
  alloc (Arr vs').

End JS.

Import JS.

Section Rewriter.
Local Open Scope string_scope.

(** [getNewLootProbability], already applied to the statistics. *)
Context (newProbability : string -> Q -> Q).

(** The callback of [container.itemDistribution.map] (lines 252-261). *)
Definition newItemDistribution (dist : val) : M val :=
  let* tpl := getProp dist "tpl" in
  let* tplKey := asString tpl in
  let* relativeProbability := getProp dist "relativeProbability" in
  let* p := asNumber relativeProbability in
  alloc (Obj {[ "tpl" := tpl;
                "relativeProbability" := VNumber (newProbability tplKey p) ]}).

(** One turn of the loop over the containers, up to the assignment
    (lines 252-266). *)
Definition newContainer (container : val) : M val :=
  let* itemDistribution := getProp container "itemDistribution" in
  let* newLootDistribution := arrayMap newItemDistribution itemDistribution in
  let* itemcountDistribution := getProp container "itemcountDistribution" in
  alloc (Obj {[ "itemcountDistribution" := itemcountDistribution;
                "itemDistribution" := newLootDistribution ]}).

(** Lines 250-268. *)
Definition newStaticLoot (loot : val) : M val :=
  let* newStaticLoot := alloc (Obj ∅) in
  let* staticLoot := getProp loot "staticLoot" in
  let* containers := entries staticLoot in
  let* _ :=
    forEach (fun '(containerId, container) =>
               let* newContainer := newContainer container in
               setProp newStaticLoot containerId newContainer)
            containers in
  ret newStaticLoot.

(** Lines 269-272: [{...loot, staticLoot: newStaticLoot}]. *)
Definition newLootTables (loot : val) : M val :=
  let* newStaticLoot := newStaticLoot loot in
  let* lootProps := spread loot in
  alloc (Obj (<["staticLoot" := newStaticLoot]> lootProps)).

(** The callback of [spawnPoint.itemDistribution.map] (lines 291-307). *)
Definition newLooseItemDistribution (idToTpl : val) (itemDistribution : val)
    : M val :=
  let* composedKey := getProp itemDistribution "composedKey" in
  let* key := getProp composedKey "key" in
  let* _id := asString key in
  let* tpl := getProp idToTpl _id in
  if negb (toBoolean tpl) then ret itemDistribution
  else
    let* tplKey := asString tpl in
    let* relativeProbability := getProp itemDistribution "relativeProbability" in
    let* p := asNumber relativeProbability in
    let* newComposedKey := alloc (Obj {[ "key" := key ]}) in
    alloc (Obj {[ "composedKey" := newComposedKey;
                  "relativeProbability" := VNumber (newProbability tplKey p) ]}).

(** The callback of [spawnpoints.map] (lines 283-310).  The properties
    of [spawnPoint] are read before the distribution is mapped, as the
    object literal does; the new object is allocated last. *)
Definition newSpawnPoint (spawnPoint : val) : M val :=
  let* idToTpl := alloc (Obj ∅) in
  let* template := getProp spawnPoint "template" in
  let* Items := getProp template "Items" in
  let* items := elems Items in
  let* _ :=
    forEach (fun i =>
               let* id := getProp i "_id" in
               let* _id := asString id in
               let* _tpl := getProp i "_tpl" in
               setProp idToTpl _id _tpl)
            items in
  let* spawnPointProps := spread spawnPoint in
  let* itemDistribution := getProp spawnPoint "itemDistribution" in
  let* newItemDistribution :=
    arrayMap (newLooseItemDistribution idToTpl) itemDistribution in
  alloc (Obj (<["itemDistribution" := newItemDistribution]> spawnPointProps)).

(** One turn of the loop over the locations, up to the assignment
    (lines 276-316): the value stored under [locationId]. *)
Definition newLocation (location : val) : M val :=
  if negb (toBoolean location) then ret location
  else
    let* hasLooseLoot := hasProp "looseLoot" location in
    if negb hasLooseLoot then ret location
    else
      let* looseLoot := getProp location "looseLoot" in
      let* looseLootProps := spread looseLoot in
      let* newLooseLoot := alloc (Obj looseLootProps) in
      let* spawnpoints := getProp newLooseLoot "spawnpoints" in
      let* newSpawnpoints := arrayMap newSpawnPoint spawnpoints in
      let* _ := setProp newLooseLoot "spawnpoints" newSpawnpoints in
      let* locationProps := spread location in
      alloc (Obj (<["looseLoot" := newLooseLoot]> locationProps)).

(** Lines 274-317. *)
Definition newLocations (locations : val) : M val :=
  let* newLocations := alloc (Obj ∅) in
  let* entries := entries locations in
  let* _ :=
    forEach (fun '(locationId, location) =>
               let* newLocation := newLocation location in
               setProp newLocations locationId newLocation)
            entries in
  ret newLocations.

End Rewriter.

(** The method: the statistics of stages 1 to 3, then the two tables. *)
Definition getUpdatedLootTables (cfg : Config) (profile : Profile)
    (questItemRequirements hideoutItemRequirements : list ItemRequirement)
    (loot locations : val) : M (val * val) :=
  let mults :=
    itemDropRateMultipliers cfg profile
      questItemRequirements hideoutItemRequirements in
  let* newLootTables := newLootTables (getNewLootProbability cfg mults) loot in
  let* newLocations := newLocations (getNewLootProbability cfg mults) locations in
  ret (newLootTables, newLocations).

(** ** Stage 4: the tables as data *)

(** Modelled from the spec: the declarations of [ILootBase],
    [IStaticLootDetails], [ILocations] and [ILooseLoot], which the
    method imports and the sources do not hold.  The records have the
    properties the code reads (lines 250-317) and the data model names.
    A part the code only copies by reference (the item-count
    distribution, every property it does not name) is kept as the value
    it is.  The functions are what the code computes, on these
    records. *)

Module Typed.

Record ItemDistribution := {
  tpl : string;
  relativeProbability : Q
}.

Record IStaticLootDetails := {
  itemcountDistribution : val;
  itemDistribution : list ItemDistribution
}.

Record ILootBase := {
  staticLoot : gmap string IStaticLootDetails;
  lootOthers : gmap string val
}.

(** An entry of a spawn point: [composedKey.key] and the probability. *)
Record LooseItemDistribution := {
  key : string;
  looseRelativeProbability : Q
}.

(** An item of [template.Items]. *)
Record TemplateItem := {
  _id : string;
  templateTpl : string
}.

Record Spawnpoint := {
  templateItems : list TemplateItem;
  looseItemDistribution : list LooseItemDistribution;
  spawnpointOthers : gmap string val
}.

Record ILooseLoot := {
  spawnpoints : list Spawnpoint;
  looseLootOthers : gmap string val
}.

(** A value of [ILocations]: a location with loose loot, or a value
    that is falsy or has no [looseLoot]. *)
Inductive Location :=
| WithLooseLoot (looseLoot : ILooseLoot) (locationOthers : gmap string val)
| Other (v : val).

Section Rewrite.
Context (newProbability : string -> Q -> Q).

Definition newItemDistribution (d : ItemDistribution) : ItemDistribution :=
  {| tpl := tpl d;
     relativeProbability := newProbability (tpl d) (relativeProbability d) |}.

Definition newContainer (c : IStaticLootDetails) : IStaticLootDetails :=
  {| itemcountDistribution := itemcountDistribution c;
     itemDistribution := map newItemDistribution (itemDistribution c) |}.

Definition newLootTables (loot : ILootBase) : ILootBase :=
  {| staticLoot := newContainer <$> staticLoot loot;
     lootOthers := lootOthers loot |}.

(** [idToTpl]: a later item of the template overrides an earlier one
    of the same id. *)
Definition idToTpl (items : list TemplateItem) : gmap string string :=
  foldl (fun m i => <[_id i := templateTpl i]> m) ∅ items.

Definition newLooseItemDistribution (idToTpl : gmap string string)
    (d : LooseItemDistribution) : LooseItemDistribution :=
  match idToTpl !! key d with
  | Some tpl =>
      if String.eqb tpl "" then d
      else {| key := key d;
              looseRelativeProbability :=
                newProbability tpl (looseRelativeProbability d) |}
  | None => d
  end.

Definition newSpawnPoint (sp : Spawnpoint) : Spawnpoint :=
  {| templateItems := templateItems sp;
     looseItemDistribution :=
       map (newLooseItemDistribution (idToTpl (templateItems sp)))
           (looseItemDistribution sp);
     spawnpointOthers := spawnpointOthers sp |}.

Definition newLooseLoot (ll : ILooseLoot) : ILooseLoot :=
  {| spawnpoints := map newSpawnPoint (spawnpoints ll);
     looseLootOthers := looseLootOthers ll |}.

Definition newLocation (location : Location) : Location :=
  match location with
  | WithLooseLoot ll others => WithLooseLoot (newLooseLoot ll) others
  | Other v => Other v
  end.

Definition newLocations (locations : gmap string Location)
    : gmap string Location :=
  newLocation <$> locations.

End Rewrite.

(** *** The shape of a table: the table with every probability of an
    item distribution put to 0. *)

Definition shapeOfContainer (c : IStaticLootDetails) : IStaticLootDetails :=
  {| itemcountDistribution := itemcountDistribution c;
     itemDistribution :=
       map (fun d => {| tpl := tpl d; relativeProbability := 0 |})
           (itemDistribution c) |}.

Definition shapeOfLoot (loot : ILootBase) : ILootBase :=
  {| staticLoot := shapeOfContainer <$> staticLoot loot;
     lootOthers := lootOthers loot |}.

Definition shapeOfSpawnpoint (sp : Spawnpoint) : Spawnpoint :=
  {| templateItems := templateItems sp;
     looseItemDistribution :=
       map (fun d => {| key := key d; looseRelativeProbability := 0 |})
           (looseItemDistribution sp);
     spawnpointOthers := spawnpointOthers sp |}.

Definition shapeOfLocation (location : Location) : Location :=
  match location with
  | WithLooseLoot ll others =>
      WithLooseLoot {| spawnpoints := map shapeOfSpawnpoint (spawnpoints ll);
                       looseLootOthers := looseLootOthers ll |} others
  | Other v => Other v
  end.

Definition shapeOfLocations (locations : gmap string Location)
    : gmap string Location :=
  shapeOfLocation <$> locations.

(** *** How a heap holds a table *)

Section Repr.
Local Open Scope string_scope.
Context (σ : heap).

(** An array whose elements hold the members of a list. *)
Definition isArray {T : Type} (R : T -> val -> Prop) (ts : list T) (v : val)
    : Prop :=
  exists (l : loc) (vs : list val),
    v = VRef l /\ σ !! l = Some (Arr vs) /\ Forall2 R ts vs.

(** An object used as a dictionary, with the keys of a map. *)
Definition isDict {T : Type} (R : T -> val -> Prop) (m : gmap string T) (v : val)
    : Prop :=
  exists (l : loc) (props : gmap string val),
    v = VRef l /\ σ !! l = Some (Obj props)
    /\ forall k : string, option_Forall2 R (m !! k) (props !! k).

Definition isItemDistribution (d : ItemDistribution) (v : val) : Prop :=
  exists l : loc,
    v = VRef l
    /\ σ !! l = Some (Obj {[ "tpl" := VString (tpl d);
                            "relativeProbability" :=
                              VNumber (relativeProbability d) ]}).

Definition isContainer (c : IStaticLootDetails) (v : val) : Prop :=
  exists (l : loc) (dists : val),
    v = VRef l
    /\ σ !! l = Some (Obj {[ "itemcountDistribution" := itemcountDistribution c;
                            "itemDistribution" := dists ]})
    /\ isArray isItemDistribution (itemDistribution c) dists.

Definition isLootBase (loot : ILootBase) (v : val) : Prop :=
  exists (l : loc) (props : gmap string val) (containers : val),
    v = VRef l /\ σ !! l = Some (Obj props)
    /\ props !! "staticLoot" = Some containers
    /\ delete "staticLoot" props = lootOthers loot
    /\ isDict isContainer (staticLoot loot) containers.

Definition isLooseItemDistribution (d : LooseItemDistribution) (v : val) : Prop :=
  exists l composedKey : loc,
    v = VRef l
    /\ σ !! l = Some (Obj {[ "composedKey" := VRef composedKey;
                            "relativeProbability" :=
                              VNumber (looseRelativeProbability d) ]})
    /\ σ !! composedKey = Some (Obj {[ "key" := VString (key d) ]}).

Definition isTemplateItem (i : TemplateItem) (v : val) : Prop :=
  exists (l : loc) (props : gmap string val),
    v = VRef l /\ σ !! l = Some (Obj props)
    /\ props !! "_id" = Some (VString (_id i))
    /\ props !! "_tpl" = Some (VString (templateTpl i)).

Definition isSpawnpoint (sp : Spawnpoint) (v : val) : Prop :=
  exists (l template : loc) (props templateProps : gmap string val)
         (items dists : val),
    v = VRef l /\ σ !! l = Some (Obj props)
    /\ props !! "template" = Some (VRef template)
    /\ σ !! template = Some (Obj templateProps)
    /\ templateProps !! "Items" = Some items
    /\ isArray isTemplateItem (templateItems sp) items
    /\ props !! "itemDistribution" = Some dists
    /\ isArray isLooseItemDistribution (looseItemDistribution sp) dists
    /\ delete "itemDistribution" props = spawnpointOthers sp.

Definition isLooseLoot (ll : ILooseLoot) (v : val) : Prop :=
  exists (l : loc) (props : gmap string val) (sps : val),
    v = VRef l /\ σ !! l = Some (Obj props)
    /\ props !! "spawnpoints" = Some sps
    /\ isArray isSpawnpoint (spawnpoints ll) sps
    /\ delete "spawnpoints" props = looseLootOthers ll.

Definition isLocation (location : Location) (v : val) : Prop :=
  match location with
  | WithLooseLoot ll others =>
      exists (l : loc) (props : gmap string val) (looseLoot : val),
        v = VRef l /\ σ !! l = Some (Obj props)
        /\ props !! "looseLoot" = Some looseLoot
        /\ isLooseLoot ll looseLoot
        /\ delete "looseLoot" props = others
  | Other v0 =>
      v = v0
      /\ (toBoolean v = false
          \/ exists (l : loc) (o : obj),
               v = VRef l /\ σ !! l = Some o
               /\ match o with
                  | Obj props => props !! "looseLoot" = None
                  | Arr _ => True
                  end)
  end.

Definition isLocations (locations : gmap string Location) (v : val) : Prop :=
  isDict isLocation locations v.

End Repr.

End Typed.

(** ** Notions used in the statements *)

(** The factor an entry with statistics is first multiplied by: the
    multiplier of the configured basis, clamped to the ceiling. *)
Definition clampedMultiplier (cfg : Config) (stats : DropRateStats) : Q :=
  Num.min (maxDropRateMultiplier cfg) (basisMultiplier cfg stats).

(** The new probability of [p] when the first factor is [factor]: the
    product, for a key multiplied by the key factor, and rounded. *)
Definition scaledBy (cfg : Config) (key : bool) (factor p : Q) : Q :=
  let p1 := Num.mul p factor in
  inject_Z (Num.round (if key then Num.mul p1 (keysAdditionalMultiplier cfg)
                       else p1)).

(** The elapsed value the comparator goes by. *)
Definition pityAge (cfg : Config) (req : ItemRequirement) : Z :=
  if isRaidBased cfg
  then raidsSinceStarted (base req)
  else secondsSinceStarted (base req).

(** Two requirements of one rank: the same tier and the same age, so
    that the comparator is 0 on them. *)
Definition sameRank (cfg : Config) (a b : ItemRequirement) : Prop :=
  isFir a = isFir b /\ pityAge cfg a = pityAge cfg b.

#[global] Instance sameRank_dec (cfg : Config) (a b : ItemRequirement) :
  Decision (sameRank cfg a b).
Proof. unfold sameRank. apply _. Defined.

(** The sum of the amounts needed by the requirements of a list that
    are for item [x] and in tier [fir] ([true]: found-in-raid copies
    demanded). *)
Fixpoint amountNeededFor (profile : Profile) (x : string) (fir : bool)
    (reqs : list ItemRequirement) : Z :=
  match reqs with
  | [] => 0
  | req :: rest =>
      (if decide (itemId (base req) = x /\ isFir req = fir)
       then amountNeeded profile req else 0)
      + amountNeededFor profile x fir rest
  end.

(** The requirement with other elapsed values, all else the same. *)
Definition withElapsed (seconds raids : Z) (req : ItemRequirement)
    : ItemRequirement :=
  let b := {| itemId := itemId (base req);
              amountRequired := amountRequired (base req);
              secondsSinceStarted := seconds;
              raidsSinceStarted := raids |} in
  match req with
  | Quest conditionId fir _ => Quest conditionId fir b
  | QuestKey _ => QuestKey b
  | Hideout _ => Hideout b
  end.

(** Statistics compared by their two multipliers. *)
Definition statsLe (s s' : DropRateStats) : Prop :=
  (timeBasedDropRateMultiplier s <= timeBasedDropRateMultiplier s')%Q
  /\ (raidBasedDropRateMultiplier s <= raidBasedDropRateMultiplier s')%Q.

(** Both multipliers are at least 1. *)
Definition statsAtLeastOne (stats : DropRateStats) : Prop :=
  (1 <= timeBasedDropRateMultiplier stats)%Q
  /\ (1 <= raidBasedDropRateMultiplier stats)%Q.

(** [req'] is for the same item as [req] and at least as old. *)
Definition olderThan (req req' : ItemRequirement) : Prop :=
  itemId (base req) = itemId (base req')
  /\ isQuestKey req = isQuestKey req'
  /\ secondsSinceStarted (base req) <= secondsSinceStarted (base req')
  /\ raidsSinceStarted (base req) <= raidsSinceStarted (base req').

(** The two maps have the same items, with [statsLe] entries. *)
Definition multipliersLe (m m' : gmap string DropRateStats) : Prop :=
  forall k : string, option_Forall2 statsLe (m !! k) (m' !! k).

(** ** Stage 4: a logic of allocation and assignment

    [spec X m h σ Φ]: from the heap [h], the computation [m] returns,
    say [a] in the heap [h'], and
    - no object of [h] outside [X] has changed and none has gone;
    - [σ], a part of [h] that is not assigned to, has grown into a part
      [σ'] of [h'] by objects that are new;
    - [Φ a h' σ'] holds.
    [X] holds the objects under construction, which [m] may assign to. *)

Definition frame (X : gset loc) (h h' : heap) : Prop :=
  dom h ⊆ dom h'
  /\ forall (l : loc) (o : obj), h !! l = Some o -> l ∉ X -> h' !! l = Some o.

Definition grows (h σ σ' : heap) : Prop :=
  σ ⊆ σ' /\ forall l : loc, l ∈ dom σ' -> l ∈ dom h -> l ∈ dom σ.

Definition wf (X : gset loc) (h σ : heap) : Prop :=
  σ ⊆ h /\ dom σ ## X /\ X ⊆ dom h.

Definition spec {A : Type} (X : gset loc) (m : M A) (h σ : heap)
    (Φ : A -> heap -> heap -> Prop) : Prop :=
  exists (a : A) (h' σ' : heap),
    m h = Returns a h' /\ frame X h h' /\ grows h σ σ' /\ σ' ⊆ h' /\ Φ a h' σ'.

(** The count and the flag an inventory stack is aggregated with. *)
Definition stackCount (item : Item) : Z :=
  default 1 (upd item ≫= StackObjectsCount).

Definition stackFoundInRaid (item : Item) : bool :=
  truthy (upd item ≫= SpawnedInSession).

(** The units of item [x] held in stacks whose flag is [fir]. *)
Fixpoint stockOf (items : list Item) (x : string) (fir : bool) : Z :=
  match items with
  | [] => 0
  | item :: rest =>
      (if decide (_tpl item = x /\ stackFoundInRaid item = fir)
       then stackCount item else 0)
      + stockOf rest x fir
  end.

(** The range the two counts stay in: the found-in-raid count is not
    negative and the other count is at least the -1 of line 102. *)
Definition countsInRange (itemCount : ItemCount) : Prop :=
  0 <= foundInRaid itemCount /\ -1 <= notFoundInRaid itemCount.

(** The inventory left by the filter. *)
Definition inventoryAfter (cfg : Config) (profile : Profile)
    (questItemRequirements hideoutItemRequirements : list ItemRequirement)
    : gmap string ItemCount :=
  (filterRequirements profile (itemsInInventory profile)
     (allItemRequirements cfg questItemRequirements hideoutItemRequirements)).2.

(** The increase a requirement brings to each multiplier (lines 191 and
    198, before the base is added). *)
Definition timeIncrease (cfg : Config) (req : ItemRequirement) : Q :=
  Num.mul (inject_Z (hoursSinceStarted req)) (dropRateIncreasePerHour cfg).

Definition raidIncrease (cfg : Config) (req : ItemRequirement) : Q :=
  Num.mul (inject_Z (raidsSinceStarted (base req))) (dropRateIncreasePerRaid cfg).

(** The requirements of a list that are for item [k], in their order. *)
Definition requirementsFor (k : string) (reqs : list ItemRequirement)
    : list ItemRequirement :=
  filter (fun r => itemId (base r) = k) reqs.

(** [m] is the largest member of [candidates]. *)
Definition largestOf (m : Q) (candidates : list Q) : Prop :=
  Forall (fun c => (c <= m)%Q) candidates
  /\ Exists (fun c => (m == c)%Q) candidates.

(** The increases that are positive added to [start] one after the
    other, in the order of the list, each sum a double. *)
Definition positiveSum (start : Q) (increases : list Q) : Q :=
  foldl (fun acc c => if Qle_bool c 0 then acc else Num.add c acc)
        start increases.

(** The multiplier of item [k] in a map of statistics, 1 without an
    entry. *)
Definition multiplierOf (proj : DropRateStats -> Q)
    (mults : gmap string DropRateStats) (k : string) : Q :=
  match mults !! k with
  | Some stats => proj stats
  | None => 1%Q
  end.

(** Inputs of the further examples: the time basis with stacking, a
    twentieth per hour, and a requirement with its seconds. *)

Module MoreExamples.

Local Open Scope string_scope.

Definition stackingConfig : Config :=
  {| maxDropRateMultiplier := 5;
     dropRateIncreaseType := "time";
     dropRateIncreasePerRaid := Num.number (1 # 10);
     dropRateIncreasePerHour := Num.number (1 # 20);
     keysAdditionalMultiplier := Num.number (3 # 2);
     increasesStack := true |}.

Definition aged (id : string) (amount hours : Z) : BaseItemRequirement :=
  {| itemId := id; amountRequired := amount;
     secondsSinceStarted := hours * 3600; raidsSinceStarted := 0 |}.

(** A heap of tables that are not as declared.  The loot object at 0
    has two containers that are one object, with no item-count
    distribution and an item distribution that holds one entry twice,
    an entry with no [tpl].  The locations at 5 are [null], an object
    with no loose loot and the number 0. *)
Definition looseHeap : heap :=
  list_to_map
    [ (0, Obj {[ "staticLoot" := VRef 1 ]});
      (1, Obj {[ "a" := VRef 2; "b" := VRef 2 ]});
      (2, Obj {[ "itemDistribution" := VRef 3 ]});
      (3, Arr [VRef 4; VRef 4]);
      (4, Obj {[ "relativeProbability" := VNumber 7 ]});
      (5, Obj {[ "x" := VNull; "y" := VRef 6; "z" := VNumber 0 ]});
      (6, Obj ∅) ]%nat.

End MoreExamples.

(** What a computation leaves alone: whenever [m] returns, no object
    outside [X] has changed and none has gone.  Nothing is asked of the
    heap it starts in. *)
Definition keeps {A : Type} (X : gset loc) (m : M A) : Prop :=
  forall (h : heap) (a : A) (h' : heap), m h = Returns a h' -> frame X h h'.

(** ** Inputs used in the examples

    The configuration of the documented scenarios: raid basis, 0.1
    per raid, 0.05 per hour, ceiling 5, key factor 1.5, no stacking.
    The rates are the doubles that the literals denote. *)

Module Examples.

Local Open Scope string_scope.

Definition config : Config :=
  {| maxDropRateMultiplier := 5;
     dropRateIncreaseType := "raid";
     dropRateIncreasePerRaid := Num.number (1 # 10);
     dropRateIncreasePerHour := Num.number (1 # 20);
     keysAdditionalMultiplier := Num.number (3 # 2);
     increasesStack := false |}.

Definition requirement (id : string) (amount raids : Z) : BaseItemRequirement :=
  {| itemId := id; amountRequired := amount;
     secondsSinceStarted := 0; raidsSinceStarted := raids |}.

(** One inventory stack. *)
Definition stack (id : string) (n : Z) (fir : bool) : Item :=
  {| _tpl := id;
     upd := Some {| StackObjectsCount := Some n; SpawnedInSession := Some fir |} |}.

Definition emptyProfile : Profile := {| items := []; BackendCounters := ∅ |}.

End Examples.

(** A heap with a static loot table of one container and location
    tables of one location with a spawn point, and the tables it
    holds. *)

Module SampleTables.

Local Open Scope string_scope.
Local Open Scope nat_scope.

Definition loot : val := VRef 0.
Definition locations : val := VRef 6.

Definition heap : gmap loc obj :=
  list_to_map
    [ (0, Obj {[ "staticLoot" := VRef 1; "staticAmmo" := VNull ]});
      (1, Obj {[ "crate" := VRef 2 ]});
      (2, Obj {[ "itemcountDistribution" := VRef 3;
                 "itemDistribution" := VRef 4 ]});
      (3, Arr []);
      (4, Arr [VRef 5]);
      (5, Obj {[ "tpl" := VString "X"; "relativeProbability" := VNumber 50 ]});
      (6, Obj {[ "bigmap" := VRef 7; "base" := VRef 8 ]});
      (7, Obj {[ "looseLoot" := VRef 9 ]});
      (8, Obj ∅);
      (9, Obj {[ "spawnpoints" := VRef 10 ]});
      (10, Arr [VRef 11]);
      (11, Obj {[ "template" := VRef 12; "itemDistribution" := VRef 15 ]});
      (12, Obj {[ "Items" := VRef 13 ]});
      (13, Arr [VRef 14]);
      (14, Obj {[ "_id" := VString "i1"; "_tpl" := VString "X" ]});
      (15, Arr [VRef 16]);
      (16, Obj {[ "composedKey" := VRef 17;
                  "relativeProbability" := VNumber 30 ]});
      (17, Obj {[ "key" := VString "i1" ]}) ].

Definition lootTable : Typed.ILootBase :=
  {| Typed.staticLoot :=
       {[ "crate" :=
            {| Typed.itemcountDistribution := VRef 3;
               Typed.itemDistribution :=
                 [ {| Typed.tpl := "X"; Typed.relativeProbability := 50 |} ] |} ]};
     Typed.lootOthers := {[ "staticAmmo" := VNull ]} |}.

Definition spawnpoint : Typed.Spawnpoint :=
  {| Typed.templateItems := [ {| Typed._id := "i1"; Typed.templateTpl := "X" |} ];
     Typed.looseItemDistribution :=
       [ {| Typed.key := "i1"; Typed.looseRelativeProbability := 30 |} ];
     Typed.spawnpointOthers := {[ "template" := VRef 12 ]} |}.

Definition locationTables : gmap string Typed.Location :=
  {[ "bigmap" :=
       Typed.WithLooseLoot
         {| Typed.spawnpoints := [spawnpoint]; Typed.looseLootOthers := ∅ |} ∅;
     "base" := Typed.Other (VRef 8) ]}.

End SampleTables.

(* ================================================================== *)
(** * Properties *)
(* ================================================================== *)

(** ** Doubles: rounding is monotone, and exact on doubles *)

Section NumFacts.
Local Open Scope Q_scope.

Lemma pow2_pos (e : Z) : 0 < Num.pow2 e.
Proof. apply Qpower_0_lt. reflexivity. Qed.

Lemma pow2_nz (e : Z) : ~ Num.pow2 e == 0.
Proof. pose proof (pow2_pos e). lra. Qed.

Lemma pow2_add (a b : Z) : Num.pow2 (a + b) == Num.pow2 a * Num.pow2 b.
Proof. apply Qpower_plus. discriminate. Qed.

Lemma pow2_le (a b : Z) : (a <= b)%Z -> Num.pow2 a <= Num.pow2 b.
Proof. intros H. apply Qpower_le_compat_l; [exact H | discriminate]. Qed.

Lemma pow2_Z (n : Z) : (0 <= n)%Z -> Num.pow2 n == inject_Z (2 ^ n).
Proof. intros H. unfold Num.pow2. now rewrite (Zpower_Qpower 2 n H). Qed.

Lemma pow2_sub (a b : Z) : Num.pow2 (a - b) == Num.pow2 a / Num.pow2 b.
Proof. apply Qpower_minus. discriminate. Qed.

(** Num.ilog2 *)
Lemma ilog2_spec (q : Q) :
  0 < q -> Num.pow2 (Num.ilog2 q) <= q /\ q < Num.pow2 (Num.ilog2 q + 1).
Proof.
  intros Hq. unfold Num.ilog2.
  set (s := (Z.log2 (Z.pos (Qden q)) + 1)%Z).
  set (t := Qfloor (q * Num.pow2 s)).
  assert (Hs : (0 <= s)%Z) by (unfold s; pose proof (Z.log2_nonneg (Z.pos (Qden q))); lia).
  assert (Hd : (Z.pos (Qden q) < 2 ^ s)%Z).
  { unfold s. pose proof (Z.log2_spec (Z.pos (Qden q)) eq_refl) as [_ H].
    now rewrite <- Z.add_1_r in H. }
  assert (Ht1 : inject_Z t <= q * Num.pow2 s) by apply Qfloor_le.
  assert (Ht2 : q * Num.pow2 s < inject_Z (t + 1)) by apply Qlt_floor.
  assert (Hone : 1 <= q * Num.pow2 s).
  { rewrite (pow2_Z s Hs). destruct q as [n d]. cbn [Qden] in Hd.
    unfold Qlt in Hq. cbn in Hq. unfold Qle, Qmult, inject_Z. cbn. nia. }
  assert (Htpos : (0 < t)%Z).
  { assert (H : (1 <= t)%Z); [| lia]. unfold t. rewrite <- (Qfloor_Z 1).
    now apply Qfloor_resp_le. }
  pose proof (Z.log2_spec t Htpos) as [Hl1 Hl2].
  rewrite <- Z.add_1_r in Hl2.
  pose proof (Z.log2_nonneg t) as Hj.
  set (j := Z.log2 t) in *.
  pose proof (pow2_pos s) as Hps.
  split.
  - rewrite pow2_sub. apply Qle_shift_div_r; [exact Hps |].
    rewrite (pow2_Z j Hj). eapply Qle_trans; [| exact Ht1].
    now rewrite <- Zle_Qle.
  - replace (j - s + 1)%Z with (j + 1 - s)%Z by lia.
    rewrite pow2_sub. apply Qlt_shift_div_l; [exact Hps |].
    rewrite (pow2_Z (j + 1)) by lia. eapply Qlt_le_trans; [exact Ht2 |].
    rewrite <- Zle_Qle. lia.
Qed.

Lemma ilog2_lt (q : Q) (k : Z) : 0 < q -> q < Num.pow2 k -> (Num.ilog2 q < k)%Z.
Proof.
  intros Hq Hk. destruct (ilog2_spec q Hq) as [H1 _].
  destruct (Z_lt_ge_dec (Num.ilog2 q) k) as [H|H]; [exact H | exfalso].
  apply Z.ge_le in H. apply pow2_le in H. lra.
Qed.

Lemma ilog2_ge (q : Q) (k : Z) : 0 < q -> Num.pow2 k <= q -> (k <= Num.ilog2 q)%Z.
Proof.
  intros Hq Hk. destruct (ilog2_spec q Hq) as [_ H2].
  destruct (Z_le_gt_dec k (Num.ilog2 q)) as [H|H]; [exact H | exfalso].
  assert (H' : (Num.ilog2 q + 1 <= k)%Z) by lia. apply pow2_le in H'. lra.
Qed.

Lemma ilog2_mono (q q' : Q) : 0 < q -> q <= q' -> (Num.ilog2 q <= Num.ilog2 q')%Z.
Proof.
  intros Hq Hle. apply ilog2_ge; [lra |].
  destruct (ilog2_spec q Hq) as [H1 _]. lra.
Qed.

Lemma ilog2_comp (q q' : Q) : 0 < q -> q == q' -> Num.ilog2 q = Num.ilog2 q'.
Proof.
  intros Hq He. apply Z.le_antisymm; apply ilog2_mono; lra.
Qed.

Lemma ulp_mono (q q' : Q) : 0 < q -> q <= q' -> (Num.ulp q <= Num.ulp q')%Z.
Proof. intros Hq Hle. unfold Num.ulp. pose proof (ilog2_mono q q' Hq Hle). lia. Qed.

Lemma ulp_comp (q q' : Q) : 0 < q -> q == q' -> Num.ulp q = Num.ulp q'.
Proof. intros Hq He. unfold Num.ulp. now rewrite (ilog2_comp q q' Hq He). Qed.

(** Num.rne *)
Lemma rne_comp (x y : Q) : x == y -> Num.rne x = Num.rne y.
Proof.
  intros H. unfold Num.rne. rewrite (Qfloor_comp x y H).
  assert (E : x - inject_Z (Qfloor y) == y - inject_Z (Qfloor y)) by (rewrite H; reflexivity).
  now rewrite (Qcompare_comp _ _ E (1#2) (1#2) (Qeq_refl _)).
Qed.

Lemma rne_Z (n : Z) : Num.rne (inject_Z n) = n.
Proof.
  unfold Num.rne. rewrite Qfloor_Z.
  assert (E : (inject_Z n - inject_Z n ?= 1 # 2) = Lt).
  { apply (proj1 (Qlt_alt _ _)). generalize (inject_Z n). intros z. lra. }
  now rewrite E.
Qed.

Lemma rne_mono (x y : Q) : x <= y -> (Num.rne x <= Num.rne y)%Z.
Proof.
  intros H. unfold Num.rne.
  pose proof (Qfloor_resp_le x y H) as Hf.
  pose proof (Qfloor_le x) as Hx1. pose proof (Qlt_floor x) as Hx2.
  pose proof (Qfloor_le y) as Hy1. pose proof (Qlt_floor y) as Hy2.
  rewrite inject_Z_plus in Hx2, Hy2.
  destruct (Z.eq_dec (Qfloor x) (Qfloor y)) as [E|E].
  - rewrite <- E in *.
    destruct (Qcompare_spec (x - inject_Z (Qfloor x)) (1 # 2)) as [Cx|Cx|Cx];
    destruct (Qcompare_spec (y - inject_Z (Qfloor x)) (1 # 2)) as [Cy|Cy|Cy];
    try destruct (Z.even (Qfloor x)); try lia; exfalso; lra.
  - assert (Hlt : (Qfloor x + 1 <= Qfloor y)%Z) by lia.
    destruct (Qcompare_spec (x - inject_Z (Qfloor x)) (1 # 2)) as [Cx|Cx|Cx];
    destruct (Qcompare_spec (y - inject_Z (Qfloor y)) (1 # 2)) as [Cy|Cy|Cy];
    try destruct (Z.even (Qfloor x)); try destruct (Z.even (Qfloor y)); lia.
Qed.

Lemma rne_nonneg (x : Q) : 0 <= x -> (0 <= Num.rne x)%Z.
Proof. intros H. rewrite <- (rne_Z 0). now apply rne_mono. Qed.

(** Num.rndPos *)
Lemma rndPos_value (q : Q) :
  Num.rndPos q == inject_Z (Num.rne (q / Num.pow2 (Num.ulp q))) * Num.pow2 (Num.ulp q).
Proof. unfold Num.rndPos. apply Qred_correct. Qed.

Lemma rndPos_comp (q q' : Q) : 0 < q -> q == q' -> Num.rndPos q = Num.rndPos q'.
Proof.
  intros Hq He. unfold Num.rndPos. apply Qred_complete.
  rewrite (ulp_comp q q' Hq He).
  assert (E : q / Num.pow2 (Num.ulp q') == q' / Num.pow2 (Num.ulp q')) by (rewrite He; reflexivity).
  now rewrite (rne_comp _ _ E).
Qed.

Lemma rndPos_nonneg (q : Q) : 0 < q -> 0 <= Num.rndPos q.
Proof.
  intros Hq. rewrite rndPos_value. pose proof (pow2_pos (Num.ulp q)) as Hp.
  apply Qmult_le_0_compat; [| lra].
  change 0 with (inject_Z 0). rewrite <- Zle_Qle. apply rne_nonneg.
  apply Qle_shift_div_l; [exact Hp | lra].
Qed.

(** The mantissa has at most 53 bits. *)
Lemma scaled_upper (q : Q) : 0 < q -> q / Num.pow2 (Num.ulp q) <= Num.pow2 53.
Proof.
  intros Hq. pose proof (pow2_pos (Num.ulp q)) as Hp.
  apply Qle_shift_div_r; [exact Hp |].
  rewrite <- pow2_add. destruct (ilog2_spec q Hq) as [_ H2].
  eapply Qle_trans; [apply Qlt_le_weak; exact H2 |].
  apply pow2_le. unfold Num.ulp. lia.
Qed.

Lemma rne_scaled_upper (q : Q) :
  0 < q -> (Num.rne (q / Num.pow2 (Num.ulp q)) <= 2 ^ 53)%Z.
Proof.
  intros Hq. rewrite <- (rne_Z (2 ^ 53)). apply rne_mono.
  rewrite <- (pow2_Z 53) by lia. now apply scaled_upper.
Qed.

Lemma rndPos_mono (q q' : Q) : 0 < q -> q <= q' -> Num.rndPos q <= Num.rndPos q'.
Proof.
  intros Hq Hle. assert (Hq' : 0 < q') by lra.
  rewrite !rndPos_value.
  pose proof (ulp_mono q q' Hq Hle) as Hu.
  pose proof (pow2_pos (Num.ulp q)) as Hp. pose proof (pow2_pos (Num.ulp q')) as Hp'.
  destruct (Z.eq_dec (Num.ulp q) (Num.ulp q')) as [E|E].
  - rewrite <- E. apply Qmult_le_compat_r; [| lra].
    rewrite <- Zle_Qle. apply rne_mono.
    apply Qle_shift_div_r; [exact Hp |].
    unfold Qdiv. rewrite <- Qmult_assoc, (Qmult_comm (/ _)), Qmult_inv_r, Qmult_1_r; lra.
  - assert (Hlt : (Num.ulp q + 1 <= Num.ulp q')%Z) by lia.
    assert (Hk' : Num.ulp q' = (Num.ilog2 q' - 52)%Z) by (unfold Num.ulp in *; lia).
    apply Qle_trans with (Num.pow2 (53 + Num.ulp q)).
    + rewrite pow2_add. apply Qmult_le_compat_r; [| lra].
      rewrite (pow2_Z 53) by lia. rewrite <- Zle_Qle.
      now apply rne_scaled_upper.
    + apply Qle_trans with (Num.pow2 (52 + Num.ulp q')); [apply pow2_le; lia |].
      rewrite pow2_add. apply Qmult_le_compat_r; [| lra].
      rewrite (pow2_Z 52) by lia. rewrite <- Zle_Qle.
      rewrite <- (rne_Z (2 ^ 52)). apply rne_mono.
      rewrite <- (pow2_Z 52) by lia.
      apply Qle_shift_div_l; [exact Hp' |].
      rewrite <- pow2_add. destruct (ilog2_spec q' Hq') as [H1 _].
      eapply Qle_trans; [| exact H1]. apply pow2_le. lia.
Qed.

(** Num.rnd *)
Lemma rnd_pos (q : Q) : 0 < q -> Num.rnd q = Num.rndPos q.
Proof.
  intros H. unfold Num.rnd.
  destruct (Qcompare_spec q 0); [exfalso; lra | exfalso; lra | reflexivity].
Qed.

Lemma rnd_neg (q : Q) : q < 0 -> Num.rnd q = - Num.rndPos (- q).
Proof.
  intros H. unfold Num.rnd.
  destruct (Qcompare_spec q 0); [exfalso; lra | reflexivity | exfalso; lra].
Qed.

Lemma rnd_zero (q : Q) : q == 0 -> Num.rnd q = 0.
Proof.
  intros H. unfold Num.rnd.
  destruct (Qcompare_spec q 0); [reflexivity | exfalso; lra | exfalso; lra].
Qed.

Lemma rnd_comp (x y : Q) : x == y -> Num.rnd x = Num.rnd y.
Proof.
  intros H. destruct (Q_dec x 0) as [[Hx|Hx]|Hx].
  - rewrite (rnd_neg x Hx), (rnd_neg y) by lra. f_equal.
    apply rndPos_comp; [lra | now rewrite H].
  - rewrite (rnd_pos x Hx), (rnd_pos y) by lra. now apply rndPos_comp.
  - rewrite (rnd_zero x Hx), (rnd_zero y); [reflexivity | lra].
Qed.

Lemma rnd_mono (x y : Q) : x <= y -> Num.rnd x <= Num.rnd y.
Proof.
  intros H. destruct (Q_dec x 0) as [[Hx|Hx]|Hx]; destruct (Q_dec y 0) as [[Hy|Hy]|Hy];
    try (exfalso; lra).
  - rewrite (rnd_neg x Hx), (rnd_neg y Hy).
    assert (Num.rndPos (- y) <= Num.rndPos (- x)) by (apply rndPos_mono; lra). lra.
  - rewrite (rnd_neg x Hx), (rnd_pos y Hy).
    assert (0 <= Num.rndPos (- x)) by (apply rndPos_nonneg; lra).
    assert (0 <= Num.rndPos y) by (apply rndPos_nonneg; lra). lra.
  - rewrite (rnd_neg x Hx), (rnd_zero y Hy).
    assert (0 <= Num.rndPos (- x)) by (apply rndPos_nonneg; lra). lra.
  - rewrite (rnd_pos x Hx), (rnd_pos y Hy). now apply rndPos_mono.
  - rewrite (rnd_zero x Hx), (rnd_pos y Hy). apply rndPos_nonneg; lra.
  - rewrite (rnd_zero x Hx), (rnd_zero y Hy). lra.
Qed.

Lemma rnd_nonneg (x : Q) : 0 <= x -> 0 <= Num.rnd x.
Proof. intros H. change 0 with (Num.rnd 0) at 1. now apply rnd_mono. Qed.

Lemma rnd_opp (x : Q) : Num.rnd (- x) == - Num.rnd x.
Proof.
  destruct (Q_dec x 0) as [[Hx|Hx]|Hx].
  - rewrite (rnd_neg x Hx), (rnd_pos (- x)) by lra. lra.
  - rewrite (rnd_pos x Hx), (rnd_neg (- x)) by lra.
    rewrite (rndPos_comp (- - x) x); lra.
  - rewrite (rnd_zero x Hx), (rnd_zero (- x)); lra.
Qed.

(** A value [m * 2^e] with a mantissa of 53 bits is a double. *)
Lemma rndPos_exact_lt (m e : Z) :
  (0 < m < 2 ^ 53)%Z -> (-1074 <= e)%Z ->
  Num.rndPos (inject_Z m * Num.pow2 e) == inject_Z m * Num.pow2 e.
Proof.
  intros Hm He. set (q := inject_Z m * Num.pow2 e).
  pose proof (pow2_pos e) as Hpe.
  assert (Hq : 0 < q).
  { unfold q. apply Qmult_lt_0_compat; [| exact Hpe].
    change 0 with (inject_Z 0). rewrite <- Zlt_Qlt. lia. }
  assert (Hk : (Num.ilog2 q < 53 + e)%Z).
  { apply ilog2_lt; [exact Hq |]. unfold q. rewrite pow2_add.
    apply Qmult_lt_compat_r; [exact Hpe |].
    rewrite (pow2_Z 53) by lia. rewrite <- Zlt_Qlt. lia. }
  assert (Hu : (Num.ulp q <= e)%Z) by (unfold Num.ulp; lia).
  rewrite rndPos_value.
  pose proof (pow2_pos (Num.ulp q)) as Hpu.
  assert (E : q / Num.pow2 (Num.ulp q) == inject_Z (m * 2 ^ (e - Num.ulp q))).
  { rewrite inject_Z_mult, <- (pow2_Z (e - Num.ulp q)) by lia.
    rewrite pow2_sub. unfold q. field. repeat split; apply pow2_nz. }
  rewrite (rne_comp _ _ E), rne_Z.
  rewrite inject_Z_mult, <- (pow2_Z (e - Num.ulp q)) by lia.
  rewrite pow2_sub. unfold q. field. repeat split; apply pow2_nz.
Qed.

Lemma rndPos_exact (m e : Z) :
  (0 < m <= 2 ^ 53)%Z -> (-1074 <= e)%Z ->
  Num.rndPos (inject_Z m * Num.pow2 e) == inject_Z m * Num.pow2 e.
Proof.
  intros Hm He. destruct (Z.eq_dec m (2 ^ 53)%Z) as [->|Hne].
  - assert (E : inject_Z (2 ^ 53) * Num.pow2 e == inject_Z 1 * Num.pow2 (53 + e)).
    { rewrite pow2_add, (pow2_Z 53) by lia. change (inject_Z 1) with 1. ring. }
    assert (Hpos : 0 < inject_Z (2 ^ 53) * Num.pow2 e).
    { apply Qmult_lt_0_compat; [reflexivity | apply pow2_pos]. }
    rewrite (rndPos_comp _ _ Hpos E).
    rewrite rndPos_exact_lt; [now rewrite E | lia | lia].
  - apply rndPos_exact_lt; lia.
Qed.

Lemma rnd_exact (m e : Z) :
  (Z.abs m <= 2 ^ 53)%Z -> (-1074 <= e)%Z ->
  Num.rnd (inject_Z m * Num.pow2 e) == inject_Z m * Num.pow2 e.
Proof.
  intros Hm He. pose proof (pow2_pos e) as Hpe.
  destruct (Z.lt_trichotomy m 0) as [Hneg|[->|Hpos]].
  - assert (Hq : inject_Z m * Num.pow2 e < 0).
    { assert (inject_Z m < 0) by (change 0 with (inject_Z 0); rewrite <- Zlt_Qlt; lia). nra. }
    rewrite (rnd_neg _ Hq).
    assert (E : - (inject_Z m * Num.pow2 e) == inject_Z (- m) * Num.pow2 e).
    { rewrite inject_Z_opp. ring. }
    assert (Hpos : 0 < - (inject_Z m * Num.pow2 e)) by lra.
    rewrite (rndPos_comp _ _ Hpos E).
    rewrite rndPos_exact by lia. rewrite inject_Z_opp. ring.
  - rewrite rnd_zero; [| change (inject_Z 0) with 0; ring].
    change (inject_Z 0) with 0. ring.
  - assert (Hq : 0 < inject_Z m * Num.pow2 e).
    { assert (0 < inject_Z m) by (change 0 with (inject_Z 0); rewrite <- Zlt_Qlt; lia). nra. }
    rewrite (rnd_pos _ Hq). apply rndPos_exact; lia.
Qed.

Lemma rnd_Z (n : Z) : (Z.abs n <= 2 ^ 53)%Z -> Num.rnd (inject_Z n) == inject_Z n.
Proof.
  intros H.
  assert (E : inject_Z n == inject_Z n * Num.pow2 0) by (unfold Num.pow2; cbn; ring).
  rewrite (rnd_comp _ _ E). rewrite rnd_exact by lia. now rewrite <- E.
Qed.

Lemma rndPos_idem (q : Q) : 0 < q -> Num.rnd (Num.rndPos q) == Num.rndPos q.
Proof.
  intros Hq. rewrite (rnd_comp _ _ (rndPos_value q)).
  rewrite rnd_exact.
  - now rewrite rndPos_value.
  - pose proof (rne_scaled_upper q Hq).
    assert (0 <= Num.rne (q / Num.pow2 (Num.ulp q)))%Z.
    { apply rne_nonneg. apply Qle_shift_div_l; [apply pow2_pos | lra]. }
    lia.
  - unfold Num.ulp. lia.
Qed.

Lemma rnd_idem (q : Q) : Num.rnd (Num.rnd q) == Num.rnd q.
Proof.
  destruct (Q_dec q 0) as [[Hq|Hq]|Hq].
  - rewrite (rnd_neg q Hq). rewrite rnd_opp. rewrite rndPos_idem; lra.
  - rewrite (rnd_pos q Hq). now apply rndPos_idem.
  - rewrite (rnd_zero q Hq). reflexivity.
Qed.

(** Sums and products of doubles. *)
Lemma add_mono (x y x' y' : Q) :
  x <= x' -> y <= y' -> Num.add x y <= Num.add x' y'.
Proof. intros Hx Hy. unfold Num.add. apply rnd_mono. lra. Qed.

Lemma mul_mono_l (x x' y : Q) :
  0 <= y -> x <= x' -> Num.mul x y <= Num.mul x' y.
Proof.
  intros Hy Hx. unfold Num.mul. apply rnd_mono. now apply Qmult_le_compat_r.
Qed.

Lemma mul_mono_r (x y y' : Q) :
  0 <= x -> y <= y' -> Num.mul x y <= Num.mul x y'.
Proof.
  intros Hx Hy. unfold Num.mul. apply rnd_mono.
  rewrite !(Qmult_comm x). now apply Qmult_le_compat_r.
Qed.

Lemma mul_nonneg (x y : Q) : 0 <= x -> 0 <= y -> 0 <= Num.mul x y.
Proof.
  intros Hx Hy. unfold Num.mul. apply rnd_nonneg. now apply Qmult_le_0_compat.
Qed.

Lemma isDouble_rnd (x : Q) : Num.isDouble (Num.rnd x).
Proof. apply rnd_idem. Qed.

Lemma isDouble_one : Num.isDouble 1.
Proof. reflexivity. Qed.

Lemma mul_one (x : Q) : Num.isDouble x -> Num.mul x 1 == x.
Proof.
  intros Hx. unfold Num.mul.
  rewrite (rnd_comp (x * 1) x) by ring. exact Hx.
Qed.

End NumFacts.


(** ** Consumption *)

Lemma geb_true (a b : Z) : b <= a -> (a >=? b) = true.
Proof. intros H. rewrite Z.geb_leb. now apply Z.leb_le. Qed.

Lemma geb_false (a b : Z) : a < b -> (a >=? b) = false.
Proof. intros H. rewrite Z.geb_leb. now apply Z.leb_gt. Qed.

(** C5.  A consumption attempt that does not demand found-in-raid
    copies has three outcomes.  With enough not-found-in-raid stock,
    that count drops by the amount and the attempt succeeds.  Otherwise,
    with enough stock of both kinds together, the not-found-in-raid
    count becomes -1, the found-in-raid count drops by the amount less
    the not-found-in-raid count there was, and the attempt succeeds.
    Otherwise the attempt fails and the record is as before. *)
Theorem checkIfHasEnoughAndRemove_not_fir (itemCount : ItemCount) (amount : Z) :
  (amount <= notFoundInRaid itemCount ->
     checkIfHasEnoughAndRemove itemCount amount false =
       (true, {| foundInRaid := foundInRaid itemCount;
                 notFoundInRaid := notFoundInRaid itemCount - amount |}))
  /\ (notFoundInRaid itemCount < amount ->
      amount <= notFoundInRaid itemCount + foundInRaid itemCount ->
     checkIfHasEnoughAndRemove itemCount amount false =
       (true, {| foundInRaid :=
                   foundInRaid itemCount - (amount - notFoundInRaid itemCount);
                 notFoundInRaid := -1 |}))
  /\ (notFoundInRaid itemCount < amount ->
      notFoundInRaid itemCount + foundInRaid itemCount < amount ->
     checkIfHasEnoughAndRemove itemCount amount false = (false, itemCount)).
Proof.
  unfold checkIfHasEnoughAndRemove. repeat split.
  - intros H. now rewrite geb_true.
  - intros H1 H2. rewrite geb_false by assumption. now rewrite geb_true.
  - intros H1 H2. now rewrite !geb_false.
Qed.

(** One unit of each kind and two needed: the second outcome. *)
Lemma checkIfHasEnoughAndRemove_not_fir_witness :
  checkIfHasEnoughAndRemove {| foundInRaid := 1; notFoundInRaid := 1 |} 2 false
  = (true, {| foundInRaid := 0; notFoundInRaid := -1 |}).
Proof.
  destruct (checkIfHasEnoughAndRemove_not_fir
              {| foundInRaid := 1; notFoundInRaid := 1 |} 2) as (_ & H & _).
  apply H; simpl; lia.
Defined.

(** The found-in-raid policy, for reference: only that count is used. *)
Lemma checkIfHasEnoughAndRemove_fir (itemCount : ItemCount) (amount : Z) :
  checkIfHasEnoughAndRemove itemCount amount true =
    if foundInRaid itemCount >=? amount
    then (true, {| foundInRaid := foundInRaid itemCount - amount;
                   notFoundInRaid := notFoundInRaid itemCount |})
    else (false, itemCount).
Proof. reflexivity. Qed.

(** The filter callback calls [checkIfHasEnoughAndRemove] with
    [amountNeeded] and [isFir]. *)
Lemma filterStep_Some (profile : Profile) (inv : gmap string ItemCount)
    (req : ItemRequirement) (itemCount : ItemCount) :
  inv !! itemId (base req) = Some itemCount ->
  filterStep profile inv req =
    (negb (checkIfHasEnoughAndRemove itemCount
             (amountNeeded profile req) (isFir req)).1,
     <[itemId (base req) :=
         (checkIfHasEnoughAndRemove itemCount
            (amountNeeded profile req) (isFir req)).2]> inv).
Proof.
  intros H. unfold filterStep. rewrite H.
  destruct req; cbn -[checkIfHasEnoughAndRemove];
    match goal with |- context [checkIfHasEnoughAndRemove ?a ?b ?c] =>
      destruct (checkIfHasEnoughAndRemove a b c) end; reflexivity.
Qed.

Lemma filterStep_None (profile : Profile) (inv : gmap string ItemCount)
    (req : ItemRequirement) :
  inv !! itemId (base req) = None -> filterStep profile inv req = (true, inv).
Proof. intros H. unfold filterStep. now rewrite H. Qed.

(** ** Defaults for missing data *)

(** C9.  Missing optional data is read with a default.  A stack with no
    count is aggregated as a stack of one; a stack with no
    found-in-raid flag as one flagged not found in raid; a quest
    requirement whose condition has no backend counter is filtered as
    with a counter of value 0; and a requirement for an item with no
    aggregated entry is kept as incomplete, the inventory unchanged. *)
Theorem missing_data_defaults :
  (forall (inv : gmap string ItemCount) (item : Item),
      upd item ≫= StackObjectsCount = None ->
      addItem inv item =
        addItem inv {| _tpl := _tpl item;
                       upd := Some {| StackObjectsCount := Some 1;
                                      SpawnedInSession :=
                                        upd item ≫= SpawnedInSession |} |})
  /\ (forall (inv : gmap string ItemCount) (item : Item),
      upd item ≫= SpawnedInSession = None ->
      addItem inv item =
        addItem inv {| _tpl := _tpl item;
                       upd := Some {| StackObjectsCount :=
                                        upd item ≫= StackObjectsCount;
                                      SpawnedInSession := Some false |} |})
  /\ (forall (profile : Profile) (inv : gmap string ItemCount)
             (conditionId : string) (fir : bool) (b : BaseItemRequirement),
      BackendCounters profile !! conditionId = None ->
      filterStep profile inv (Quest conditionId fir b) =
        filterStep {| items := items profile;
                      BackendCounters :=
                        <[conditionId := {| value := 0 |}]>
                          (BackendCounters profile) |}
                   inv (Quest conditionId fir b))
  /\ (forall (profile : Profile) (inv : gmap string ItemCount)
             (req : ItemRequirement),
      inv !! itemId (base req) = None ->
      filterStep profile inv req = (true, inv)).
Proof.
  repeat split.
  - intros inv item H. unfold addItem. cbn [upd _tpl]. rewrite H. reflexivity.
  - intros inv item H. unfold addItem. cbn [upd _tpl]. rewrite H. reflexivity.
  - intros profile inv conditionId fir b H.
    unfold filterStep, conditionProgress. cbn [BackendCounters].
    rewrite H, lookup_insert_eq. reflexivity.
  - intros profile inv req. apply filterStep_None.
Qed.

(** A bare stack counts as one unit not found in raid, and a hideout
    requirement for an item that is not held stays incomplete. *)
Lemma missing_data_defaults_witness :
  itemsInInventory
    {| items := [ {| _tpl := "X"%string; upd := None |} ];
       BackendCounters := ∅ |}
  = {[ "X"%string := {| foundInRaid := 0; notFoundInRaid := 1 |} ]}
  /\ filterStep Examples.emptyProfile ∅
       (Hideout (Examples.requirement "X" 1 10))
     = (true, ∅).
Proof.
  destruct missing_data_defaults as (Hcount & Hflag & _ & Hentry).
  split.
  - unfold itemsInInventory. cbn [items foldl].
    rewrite Hcount by reflexivity. reflexivity.
  - apply Hentry. reflexivity.
Defined.

(** ** Quest requirements whose progress has reached the amount *)

(** C10 at a failing input.  The player holds one unit of X, found in
    raid.  A hideout requirement for one X, the younger of the two, is
    served first, from both counts: it leaves 0 found in raid and the
    marker -1 not found in raid.  The quest requirement for X has its
    counter at the amount required and needs 0 more; the marker is read
    back as a count, [-1 >= 0] and [-1 + 0 >= 0] both fail, and the
    requirement is kept as incomplete.  On the same counts an attempt
    for found-in-raid copies succeeds ([0 >= 0]). *)
Theorem quest_progress_reached_incomplete :
  let profile :=
    {| items := [Examples.stack "X" 1 true];
       BackendCounters := {[ "c"%string := {| value := 1 |} ]} |} in
  let quest := Quest "c" false (Examples.requirement "X" 1 2) in
  let hideout := Hideout (Examples.requirement "X" 1 1) in
  amountRequired (base quest) <= conditionProgress profile "c"
  /\ itemsInInventory profile !! "X"%string
     = Some {| foundInRaid := 1; notFoundInRaid := 0 |}
  /\ allItemRequirements Examples.config [quest] [hideout] = [hideout; quest]
  /\ incompleteItemRequirements Examples.config profile [quest] [hideout]
     = [quest]
  /\ inventoryAfter Examples.config profile [quest] [hideout] !! "X"%string
     = Some {| foundInRaid := 0; notFoundInRaid := -1 |}
  /\ (checkIfHasEnoughAndRemove
        {| foundInRaid := 0; notFoundInRaid := -1 |} 0 true).1 = true.
Proof. vm_compute. repeat split. discriminate. Qed.

(** X21.  Where a quest requirement whose progress has reached the
    amount is kept as incomplete: with the counts of its item in range,
    in one state only, that of the example above.  The requirement does
    not demand found-in-raid copies, the not-found-in-raid count is the
    marker -1, no found-in-raid unit is left and the progress equals the
    amount required. *)
Theorem filterStep_quest_progress_reached
    (profile : Profile) (inv : gmap string ItemCount)
    (conditionId : string) (fir : bool) (b : BaseItemRequirement)
    (itemCount : ItemCount) :
  inv !! itemId b = Some itemCount ->
  countsInRange itemCount ->
  amountRequired b <= conditionProgress profile conditionId ->
  (filterStep profile inv (Quest conditionId fir b)).1 = true
  <-> fir = false
      /\ notFoundInRaid itemCount = -1
      /\ foundInRaid itemCount = 0
      /\ conditionProgress profile conditionId = amountRequired b.
Proof.
  intros Hinv [Hfir Hnfir] Hprog.
  rewrite (filterStep_Some profile inv (Quest conditionId fir b) itemCount Hinv).
  cbn [base amountNeeded isFir fst]. unfold checkIfHasEnoughAndRemove.
  set (n := amountRequired b - conditionProgress profile conditionId).
  assert (Hn : n <= 0) by (unfold n; lia).
  destruct fir.
  - rewrite geb_true by lia. cbn. split; [discriminate | intros [? _]; discriminate].
  - destruct (Z_le_gt_dec n (notFoundInRaid itemCount)) as [H1|H1].
    + rewrite geb_true by lia. cbn. split; [discriminate | lia].
    + rewrite geb_false by lia.
      destruct (Z_le_gt_dec n (notFoundInRaid itemCount + foundInRaid itemCount))
        as [H2|H2].
      * rewrite geb_true by lia. cbn. split; [discriminate | lia].
      * rewrite geb_false by lia. cbn. split; [| reflexivity].
        intros _. unfold n in *. repeat split; lia.
Qed.

(** The state the example reaches: 0 and -1, the counter at the amount. *)
Lemma filterStep_quest_progress_reached_witness :
  (filterStep
     {| items := []; BackendCounters := {[ "c"%string := {| value := 1 |} ]} |}
     {[ "X"%string := {| foundInRaid := 0; notFoundInRaid := -1 |} ]}
     (Quest "c" false (Examples.requirement "X" 1 2))).1 = true.
Proof.
  apply (filterStep_quest_progress_reached
           {| items := []; BackendCounters := {[ "c"%string := {| value := 1 |} ]} |}
           {[ "X"%string := {| foundInRaid := 0; notFoundInRaid := -1 |} ]}
           "c" false (Examples.requirement "X" 1 2)
           {| foundInRaid := 0; notFoundInRaid := -1 |}).
  - reflexivity.
  - split; cbn; lia.
  - vm_compute. discriminate.
  - repeat split.
Defined.

(** ** The multipliers are at least 1 *)

Lemma statsStep_at_least_one (cfg : Config)
    (mults : gmap string DropRateStats) (req : ItemRequirement) :
  map_Forall (fun _ => statsAtLeastOne) mults ->
  map_Forall (fun _ => statsAtLeastOne) (statsStep cfg mults req).
Proof.
  intros Hm. unfold statsStep. apply map_Forall_insert_2; [| exact Hm].
  assert (Hs : statsAtLeastOne
                 (default {| timeBasedDropRateMultiplier := 1;
                             raidBasedDropRateMultiplier := 1;
                             isKey := isQuestKey req |}
                          (mults !! itemId (base req)))).
  { destruct (mults !! itemId (base req)) as [st|] eqn:E; cbn [default].
    - exact (Hm _ _ E).
    - split; cbn; apply Qle_refl. }
  destruct Hs as [Ht Hr]. split; cbn [timeBasedDropRateMultiplier
    raidBasedDropRateMultiplier]; unfold Num.max.
  - eapply Qle_trans; [exact Ht | apply Q.le_max_l].
  - eapply Qle_trans; [exact Hr | apply Q.le_max_l].
Qed.

Lemma foldl_statsStep_at_least_one (cfg : Config) (reqs : list ItemRequirement) :
  forall mults : gmap string DropRateStats,
    map_Forall (fun _ => statsAtLeastOne) mults ->
    map_Forall (fun _ => statsAtLeastOne) (foldl (statsStep cfg) mults reqs).
Proof.
  induction reqs as [|req reqs IH]; intros mults Hm; cbn [foldl].
  - exact Hm.
  - apply IH. now apply statsStep_at_least_one.
Qed.

Lemma dropRateMultipliersOf_at_least_one (cfg : Config)
    (reqs : list ItemRequirement) (tpl : string) (stats : DropRateStats) :
  dropRateMultipliersOf cfg reqs !! tpl = Some stats -> statsAtLeastOne stats.
Proof.
  intros H.
  exact (foldl_statsStep_at_least_one cfg reqs ∅ (map_Forall_empty _) tpl stats H).
Qed.

(** ** The new probability of an entry *)

Lemma round_nonneg (x : Q) : (0 <= x)%Q -> 0 <= Num.round x.
Proof.
  intros H. unfold Num.round.
  change 0 with (Qfloor 0). apply Qfloor_resp_le. lra.
Qed.

Lemma round_mono (x y : Q) : (x <= y)%Q -> Num.round x <= Num.round y.
Proof. intros H. unfold Num.round. apply Qfloor_resp_le. lra. Qed.

(** With statistics, the result is the probability [scaledBy] the
    clamped multiplier. *)
Lemma getNewLootProbability_Some (cfg : Config)
    (mults : gmap string DropRateStats) (tpl : string) (p : Q)
    (stats : DropRateStats) :
  mults !! tpl = Some stats ->
  getNewLootProbability cfg mults tpl p =
    scaledBy cfg (isKey stats) (clampedMultiplier cfg stats) p.
Proof.
  intros H.
  unfold getNewLootProbability, scaledBy, clampedMultiplier, basisMultiplier.
  rewrite H. now destruct (isRaidBased cfg).
Qed.

Lemma scaledBy_nonneg (cfg : Config) (key : bool) (factor p : Q) :
  (0 <= p)%Q -> (0 <= factor)%Q -> (0 <= keysAdditionalMultiplier cfg)%Q ->
  (0 <= scaledBy cfg key factor p)%Q.
Proof.
  intros Hp Hf Hk. unfold scaledBy.
  change 0%Q with (inject_Z 0). rewrite <- Zle_Qle. apply round_nonneg.
  pose proof (mul_nonneg p factor Hp Hf) as H1.
  destruct key; [now apply mul_nonneg | exact H1].
Qed.

(** A larger first factor gives no smaller probability. *)
Lemma scaledBy_mono_factor (cfg : Config) (key : bool) (factor factor' p : Q) :
  (0 <= p)%Q -> (0 <= keysAdditionalMultiplier cfg)%Q ->
  (factor <= factor')%Q ->
  (scaledBy cfg key factor p <= scaledBy cfg key factor' p)%Q.
Proof.
  intros Hp Hk Hf. unfold scaledBy. rewrite <- Zle_Qle. apply round_mono.
  pose proof (mul_mono_r p factor factor' Hp Hf) as H1.
  destruct key; [now apply mul_mono_l | exact H1].
Qed.

(** A larger probability gives no smaller new probability. *)
Lemma scaledBy_mono (cfg : Config) (key : bool) (factor p p' : Q) :
  (0 <= factor)%Q -> (0 <= keysAdditionalMultiplier cfg)%Q ->
  (p <= p')%Q ->
  (scaledBy cfg key factor p <= scaledBy cfg key factor p')%Q.
Proof.
  intros Hf Hk Hp. unfold scaledBy. rewrite <- Zle_Qle. apply round_mono.
  pose proof (mul_mono_l p p' factor Hf Hp) as H1.
  destruct key; [now apply mul_mono_l | exact H1].
Qed.

Lemma clampedMultiplier_le (cfg : Config) (stats : DropRateStats) :
  (clampedMultiplier cfg stats <= maxDropRateMultiplier cfg)%Q.
Proof. unfold clampedMultiplier, Num.min. apply Q.le_min_l. Qed.

(** The clamped multiplier is at least what the ceiling and 1 are. *)
Lemma clampedMultiplier_ge (cfg : Config) (stats : DropRateStats) (c : Q) :
  statsAtLeastOne stats -> (c <= 1)%Q -> (c <= maxDropRateMultiplier cfg)%Q ->
  (c <= clampedMultiplier cfg stats)%Q.
Proof.
  intros [Ht Hr] Hc Hmax. unfold clampedMultiplier, Num.min.
  apply Q.min_glb; [exact Hmax |].
  unfold basisMultiplier. destruct (isRaidBased cfg); lra.
Qed.

(** C1.  For the statistics computed from the incomplete requirements:
    an item without an entry keeps its probability as it is; an item
    with an entry gets the rounding of the probability times the smaller
    of the ceiling and the multiplier of the configured basis, times the
    key factor when the entry is a key (products of doubles, from left
    to right); and that result is not negative, the probability, the
    ceiling and the key factor not being negative. *)
Theorem getNewLootProbability_spec (cfg : Config) (profile : Profile)
    (questItemRequirements hideoutItemRequirements : list ItemRequirement)
    (tpl : string) (p : Q) :
  let mults :=
    itemDropRateMultipliers cfg profile
      questItemRequirements hideoutItemRequirements in
  (mults !! tpl = None -> getNewLootProbability cfg mults tpl p = p)
  /\ (forall stats : DropRateStats, mults !! tpl = Some stats ->
      getNewLootProbability cfg mults tpl p =
        inject_Z
          (Num.round
             (Num.mul
                (Num.mul p (Num.min (maxDropRateMultiplier cfg)
                                    (basisMultiplier cfg stats)))
                (if isKey stats then keysAdditionalMultiplier cfg else 1)))
      /\ ((0 <= p)%Q -> (0 <= maxDropRateMultiplier cfg)%Q ->
          (0 <= keysAdditionalMultiplier cfg)%Q ->
          (0 <= getNewLootProbability cfg mults tpl p)%Q)).
Proof.
  intros mults. split.
  - intros H. unfold getNewLootProbability. now rewrite H.
  - intros stats H.
    rewrite (getNewLootProbability_Some cfg mults tpl p stats H). split.
    + unfold scaledBy, clampedMultiplier.
      destruct (isKey stats); [reflexivity |].
      f_equal. unfold Num.round. apply Qfloor_comp.
      apply Qplus_inj_r. symmetry. apply mul_one. apply isDouble_rnd.
    + intros Hp Hmax Hkey. apply scaledBy_nonneg; [exact Hp | | exact Hkey].
      apply clampedMultiplier_ge; [| lra | exact Hmax].
      exact (dropRateMultipliersOf_at_least_one _ _ _ _ H).
Qed.

(** The first documented scenario: nothing held, one hideout
    requirement ten raids old; an entry of 50 becomes 100. *)
Lemma getNewLootProbability_spec_witness :
  let mults :=
    itemDropRateMultipliers Examples.config Examples.emptyProfile
      [] [Hideout (Examples.requirement "X" 1 10)] in
  getNewLootProbability Examples.config mults "X" 50 = 100%Q
  /\ (0 <= getNewLootProbability Examples.config mults "X" 50)%Q
  /\ getNewLootProbability Examples.config mults "Y" 50 = 50%Q.
Proof.
  intros mults.
  destruct (getNewLootProbability_spec Examples.config Examples.emptyProfile
              [] [Hideout (Examples.requirement "X" 1 10)] "X" 50)
    as [_ Hsome].
  destruct (getNewLootProbability_spec Examples.config Examples.emptyProfile
              [] [Hideout (Examples.requirement "X" 1 10)] "Y" 50)
    as [Hnone _].
  edestruct Hsome as [Heq Hpos].
  { vm_compute. reflexivity. }
  split; [| split].
  - vm_compute. reflexivity.
  - apply Hpos; vm_compute; discriminate.
  - apply Hnone. vm_compute. reflexivity.
Defined.

(** The products are those of the program, not of the rationals.  A
    requirement thirteen raids old has the multiplier fl(fl(13 x 0.1)
    + 1), the double below 2.3, and an entry of 25 becomes 57, where
    25 x 2.3 = 57.5 would round to 58. *)
Example getNewLootProbability_doubles :
  let mults :=
    itemDropRateMultipliers Examples.config Examples.emptyProfile
      [] [Hideout (Examples.requirement "X" 1 13)] in
  (raidBasedDropRateMultiplier <$> (mults !! "X"%string))
  = Some (2589569785738035 # 1125899906842624)
  /\ getNewLootProbability Examples.config mults "X" 25 = 57%Q
  /\ Num.round (25 * (23 # 10)) = 58.
Proof. vm_compute. repeat split. Qed.

(** ** The scaling of an entry and the ceiling *)

(** C3, as amended.  An entry with statistics is multiplied by the
    multiplier clamped to the ceiling, which is at most the ceiling.
    For an item that is not a key this is all: the new probability is
    the rounding of that product, and is at most the rounding of the
    entry times the ceiling.  For a key the product is then multiplied
    by the key factor, after the clamp: the new probability is at most
    the rounding of the entry times the ceiling times the key factor
    (entry and key factor not negative). *)
Theorem scaling_and_ceiling (cfg : Config)
    (mults : gmap string DropRateStats) (tpl : string) (p : Q)
    (stats : DropRateStats) :
  mults !! tpl = Some stats ->
  (clampedMultiplier cfg stats <= maxDropRateMultiplier cfg)%Q
  /\ (isKey stats = false ->
      getNewLootProbability cfg mults tpl p
      = inject_Z (Num.round (Num.mul p (clampedMultiplier cfg stats)))
      /\ ((0 <= p)%Q ->
          (getNewLootProbability cfg mults tpl p
           <= inject_Z (Num.round (Num.mul p (maxDropRateMultiplier cfg))))%Q))
  /\ (isKey stats = true ->
      getNewLootProbability cfg mults tpl p
      = inject_Z
          (Num.round (Num.mul (Num.mul p (clampedMultiplier cfg stats))
                              (keysAdditionalMultiplier cfg)))
      /\ ((0 <= p)%Q -> (0 <= keysAdditionalMultiplier cfg)%Q ->
          (getNewLootProbability cfg mults tpl p
           <= inject_Z
                (Num.round (Num.mul (Num.mul p (maxDropRateMultiplier cfg))
                                    (keysAdditionalMultiplier cfg))))%Q)).
Proof.
  intros H. rewrite (getNewLootProbability_Some cfg mults tpl p stats H).
  pose proof (clampedMultiplier_le cfg stats) as Hle.
  split; [exact Hle |]. split; intros Hkey; rewrite Hkey.
  - split; [reflexivity |]. intros Hp.
    change (inject_Z (Num.round (Num.mul p (maxDropRateMultiplier cfg))))
      with (scaledBy cfg false (maxDropRateMultiplier cfg) p).
    unfold scaledBy. rewrite <- Zle_Qle. apply round_mono.
    now apply mul_mono_r.
  - split; [reflexivity |]. intros Hp Hk.
    exact (scaledBy_mono_factor cfg true _ _ p Hp Hk Hle).
Qed.

(** The second documented scenario: a quest key, ten raids old.  An
    entry of 50 becomes 150, where the ceiling and the key factor would
    give 375. *)
Lemma scaling_and_ceiling_witness :
  let stats := {| timeBasedDropRateMultiplier := 1;
                  raidBasedDropRateMultiplier := 2;
                  isKey := true |} in
  getNewLootProbability Examples.config {[ "K"%string := stats ]} "K" 50
  = 150%Q
  /\ (getNewLootProbability Examples.config {[ "K"%string := stats ]} "K" 50
      <= 375)%Q.
Proof.
  intros stats.
  destruct (scaling_and_ceiling Examples.config {[ "K"%string := stats ]}
              "K" 50 stats) as (_ & _ & Hkey).
  { reflexivity. }
  destruct (Hkey eq_refl) as [Heq Hle].
  split.
  - rewrite Heq. vm_compute. reflexivity.
  - eapply Qle_trans; [apply Hle; vm_compute; discriminate |].
    vm_compute. discriminate.
Defined.

(** C3, as stated, fails for a key.  A quest key a hundred raids old
    has the raid multiplier 11, clamped to the ceiling 5; the key factor
    1.5 is applied to the product, and an entry of 50 becomes 375, more
    than 5 times 50. *)
Lemma scaling_exceeds_ceiling_counterexample :
  let mults :=
    itemDropRateMultipliers Examples.config Examples.emptyProfile
      [QuestKey (Examples.requirement "K" 1 100)] [] in
  (exists stats : DropRateStats,
      mults !! "K"%string = Some stats
      /\ isKey stats = true
      /\ (clampedMultiplier Examples.config stats == 5)%Q)
  /\ getNewLootProbability Examples.config mults "K" 50 = 375%Q
  /\ (Num.mul 50 (maxDropRateMultiplier Examples.config) < 375)%Q.
Proof.
  split; [| split].
  - eexists. split; [vm_compute; reflexivity |].
    split; vm_compute; reflexivity.
  - vm_compute. reflexivity.
  - vm_compute. reflexivity.
Qed.

(** ** The key flag *)

(** The flag of an item is that of the first requirement processed for
    it: the entry is created from that requirement and no later one
    writes the flag. *)
Lemma isKey_of_first_requirement (cfg : Config) (reqs : list ItemRequirement)
    (k : string) :
  forall mults : gmap string DropRateStats,
    isKey <$> (foldl (statsStep cfg) mults reqs !! k) =
      match mults !! k with
      | Some stats => Some (isKey stats)
      | None =>
          isQuestKey <$> head (filter (fun r => itemId (base r) = k) reqs)
      end.
Proof.
  induction reqs as [|req reqs IH]; intros mults; cbn [foldl].
  - now destruct (mults !! k).
  - rewrite IH. unfold statsStep. rewrite filter_cons.
    destruct (decide (itemId (base req) = k)) as [<-|Hne].
    + rewrite lookup_insert_eq. cbn [isKey].
      now destruct (mults !! itemId (base req)).
    + rewrite lookup_insert_ne by exact Hne. reflexivity.
Qed.

(** C4 at a failing input.  Nothing is held; a quest asks for one K to
    be handed in (one raid old) and another quest needs K as a key (two
    raids old).  Both requirements are incomplete and contribute to the
    statistics of K, the hand-in first; the flag is set from it alone
    and stays [false].  With the ages exchanged the key comes first and
    the flag is [true]. *)
Theorem isKey_from_first_requirement_only :
  let handIn (raids : Z) := Quest "c" false (Examples.requirement "K" 1 raids) in
  let key (raids : Z) := QuestKey (Examples.requirement "K" 1 raids) in
  incompleteItemRequirements Examples.config Examples.emptyProfile
    [handIn 1; key 2] [] = [handIn 1; key 2]
  /\ isKey <$> (itemDropRateMultipliers Examples.config Examples.emptyProfile
                 [handIn 1; key 2] [] !! "K"%string) = Some false
  /\ isKey <$> (itemDropRateMultipliers Examples.config Examples.emptyProfile
                 [handIn 2; key 1] [] !! "K"%string) = Some true.
Proof. vm_compute. repeat split. Qed.

(** ** The order of the requirements *)

Section SortFacts.
Context {A : Type} (cmp : A -> A -> Z).

(** [a] may stay in front of [b] when [cmp a b <= 0]. *)
Hypothesis before_total : forall a b, ~ cmp a b <= 0 -> cmp b a <= 0.
Hypothesis before_trans :
  forall a b c, cmp a b <= 0 -> cmp b c <= 0 -> cmp a c <= 0.

Lemma insert_Permutation (x : A) (l : list A) : Array.insert cmp x l ≡ₚ x :: l.
Proof.
  induction l as [|y l IH]; cbn [Array.insert].
  - reflexivity.
  - destruct (cmp x y <=? 0).
    + reflexivity.
    + rewrite IH. apply perm_swap.
Qed.

Lemma sort_Permutation (l : list A) : Array.sort cmp l ≡ₚ l.
Proof.
  induction l as [|x l IH]; cbn.
  - reflexivity.
  - fold (Array.sort cmp l). rewrite insert_Permutation. now rewrite IH.
Qed.

Lemma insert_StronglySorted (x : A) (l : list A) :
  StronglySorted (fun a b => cmp a b <= 0) l ->
  StronglySorted (fun a b => cmp a b <= 0) (Array.insert cmp x l).
Proof.
  induction 1 as [|y l Hl IH Hy]; cbn [Array.insert].
  - repeat constructor.
  - destruct (Z.leb_spec (cmp x y) 0) as [Hxy|Hxy].
    + constructor; [now constructor |].
      constructor; [exact Hxy |].
      eapply Forall_impl; [exact Hy |]. intros z Hyz.
      now apply before_trans with y.
    + constructor; [exact IH |].
      rewrite (insert_Permutation x l). constructor; [| exact Hy].
      apply before_total. lia.
Qed.

Lemma sort_StronglySorted (l : list A) :
  StronglySorted (fun a b => cmp a b <= 0) (Array.sort cmp l).
Proof.
  induction l as [|x l IH]; cbn.
  - constructor.
  - now apply insert_StronglySorted.
Qed.

(** Stability, for a predicate whose members the comparator does not
    put apart. *)
Section Stable.
Context (P : A -> Prop) `{!forall x, Decision (P x)}.
Hypothesis P_before : forall x y, P x -> P y -> cmp x y <= 0.

Lemma filter_insert (x : A) (l : list A) :
  filter P (Array.insert cmp x l) = filter P (x :: l).
Proof.
  induction l as [|y l IH]; cbn [Array.insert].
  - reflexivity.
  - destruct (Z.leb_spec (cmp x y) 0) as [Hxy|Hxy]; [reflexivity |].
    assert (Hno : P x -> ~ P y).
    { intros Hx Hy. specialize (P_before x y Hx Hy). lia. }
    rewrite (filter_cons P y), IH, !(filter_cons P x), (filter_cons P y).
    destruct (decide (P x)) as [Hx|Hx], (decide (P y)) as [Hy|Hy];
      try reflexivity.
    now destruct (Hno Hx).
Qed.

Lemma filter_sort (l : list A) : filter P (Array.sort cmp l) = filter P l.
Proof.
  induction l as [|x l IH]; cbn.
  - reflexivity.
  - fold (Array.sort cmp l). rewrite filter_insert, !(filter_cons P x).
    now rewrite IH.
Qed.

End Stable.

End SortFacts.

Lemma StronglySorted_lookup {A : Type} (R : A -> A -> Prop) (l : list A) :
  StronglySorted R l ->
  forall (i j : nat) (a b : A),
    l !! i = Some a -> l !! j = Some b -> (i < j)%nat -> R a b.
Proof.
  induction 1 as [|x l Hl IH Hx]; intros i j a b Hi Hj Hlt.
  - now rewrite lookup_nil in Hi.
  - destruct j as [|j]; [lia |]. cbn in Hj.
    destruct i as [|i]; cbn in Hi.
    + injection Hi as <-. rewrite Forall_forall in Hx. apply Hx.
      eapply list_elem_of_lookup_2. exact Hj.
    + apply (IH i j); [assumption .. | lia].
Qed.

(** What the comparator says, in terms of the tier and the age. *)
Lemma compareRequirements_le (cfg : Config) (a b : ItemRequirement) :
  compareRequirements cfg a b <= 0 <->
  (isFir a = true /\ isFir b = false)
  \/ (isFir a = isFir b /\ pityAge cfg a <= pityAge cfg b).
Proof.
  unfold compareRequirements, pityAge.
  destruct (isFir a), (isFir b), (isRaidBased cfg); cbn; split;
    intros H; try lia; try (right; split; [reflexivity | lia]);
    try (now left); destruct H as [[? ?]|[? ?]]; try discriminate; lia.
Qed.

Lemma compareRequirements_total (cfg : Config) (a b : ItemRequirement) :
  ~ compareRequirements cfg a b <= 0 -> compareRequirements cfg b a <= 0.
Proof.
  rewrite !compareRequirements_le. intros H.
  destruct (isFir a), (isFir b); try (now left).
  - right. split; [reflexivity |].
    destruct (Z.le_gt_cases (pityAge cfg b) (pityAge cfg a)); [assumption |].
    destruct H. right. split; [reflexivity | lia].
  - destruct H. now left.
  - right. split; [reflexivity |].
    destruct (Z.le_gt_cases (pityAge cfg b) (pityAge cfg a)); [assumption |].
    destruct H. right. split; [reflexivity | lia].
Qed.

Lemma compareRequirements_trans (cfg : Config) (a b c : ItemRequirement) :
  compareRequirements cfg a b <= 0 -> compareRequirements cfg b c <= 0 ->
  compareRequirements cfg a c <= 0.
Proof.
  rewrite !compareRequirements_le.
  intros [[Ha Hb]|[Hab Hle]] [[Hb' Hc]|[Hbc Hle']]; try congruence.
  - left. split; congruence.
  - left. split; congruence.
  - right. split; [congruence | lia].
Qed.

(** C6.  The list that is consumed is the merged list sorted by the
    comparator, stably: it has the same requirements; a requirement that
    demands found-in-raid copies comes before every one that does not;
    within a tier the age (raids for the raid basis, seconds otherwise)
    ascends; and requirements of one rank keep the order they had in the
    merged list. *)
Theorem allItemRequirements_sorted (cfg : Config)
    (questItemRequirements hideoutItemRequirements : list ItemRequirement) :
  let merged := questItemRequirements ++ hideoutItemRequirements in
  let sorted :=
    allItemRequirements cfg questItemRequirements hideoutItemRequirements in
  sorted ≡ₚ merged
  /\ (forall (i j : nat) (a b : ItemRequirement),
      sorted !! i = Some a -> sorted !! j = Some b ->
      isFir a = true -> isFir b = false -> (i < j)%nat)
  /\ (forall (i j : nat) (a b : ItemRequirement),
      sorted !! i = Some a -> sorted !! j = Some b -> (i < j)%nat ->
      isFir a = isFir b ->
      (if isRaidBased cfg
       then raidsSinceStarted (base a) <= raidsSinceStarted (base b)
       else secondsSinceStarted (base a) <= secondsSinceStarted (base b)))
  /\ (forall r : ItemRequirement,
      filter (sameRank cfg r) sorted = filter (sameRank cfg r) merged).
Proof.
  intros merged sorted.
  assert (Hsorted : StronglySorted
                      (fun a b => compareRequirements cfg a b <= 0) sorted).
  { apply sort_StronglySorted.
    - apply compareRequirements_total.
    - apply compareRequirements_trans. }
  split; [apply sort_Permutation |]. split; [| split].
  - intros i j a b Hi Hj Ha Hb.
    destruct (Nat.lt_trichotomy i j) as [Hlt|[Heq|Hgt]]; [exact Hlt | |].
    + subst j. congruence.
    + pose proof (StronglySorted_lookup _ _ Hsorted j i b a Hj Hi Hgt) as H.
      apply compareRequirements_le in H.
      destruct H as [[? ?]|[? ?]]; congruence.
  - intros i j a b Hi Hj Hlt Hfir.
    pose proof (StronglySorted_lookup _ _ Hsorted i j a b Hi Hj Hlt) as H.
    apply compareRequirements_le in H. unfold pityAge in H.
    destruct H as [[? ?]|[_ H]]; [congruence |].
    destruct (isRaidBased cfg); exact H.
  - intros r. apply filter_sort.
    intros x y [Hx1 Hx2] [Hy1 Hy2]. apply compareRequirements_le.
    right. split; [congruence | lia].
Qed.

(** A found-in-raid quest requirement given last comes out first. *)
Lemma allItemRequirements_sorted_witness :
  let old := Hideout (Examples.requirement "X" 1 1) in
  let fir := Quest "c" true (Examples.requirement "X" 1 9) in
  allItemRequirements Examples.config [] [old; fir] = [fir; old]
  /\ (0 < 1)%nat.
Proof.
  intros old fir.
  destruct (allItemRequirements_sorted Examples.config [] [old; fir])
    as (_ & Hfir & _).
  split; [vm_compute; reflexivity |].
  apply (Hfir 0%nat 1%nat fir old); reflexivity.
Defined.

(** ** Inventory that covers the requirements of an item *)

Lemma amountNeededFor_nonneg (profile : Profile) (x : string) (fir : bool)
    (reqs : list ItemRequirement) :
  (forall r, r ∈ reqs -> itemId (base r) = x -> 0 <= amountNeeded profile r) ->
  0 <= amountNeededFor profile x fir reqs.
Proof.
  induction reqs as [|req rest IH]; intros Hpos; cbn [amountNeededFor].
  - lia.
  - assert (0 <= amountNeededFor profile x fir rest).
    { apply IH. intros r Hr. apply Hpos. now apply list_elem_of_further. }
    destruct (decide _) as [[Hid _]|_]; [| lia].
    specialize (Hpos req (list_elem_of_here _ _) Hid). lia.
Qed.

(** A requirement for another item leaves the entry of [x] alone. *)
Lemma filterStep_other (profile : Profile) (inv : gmap string ItemCount)
    (req : ItemRequirement) (x : string) :
  itemId (base req) <> x ->
  (filterStep profile inv req).2 !! x = inv !! x.
Proof.
  intros Hne.
  destruct (inv !! itemId (base req)) as [itemCount|] eqn:E.
  - rewrite (filterStep_Some _ _ _ _ E). cbn [snd].
    now rewrite lookup_insert_ne.
  - now rewrite (filterStep_None _ _ _ E).
Qed.

(** If the two counts of [x] cover, each for its tier, the amounts
    needed by the requirements for [x], none of these is kept. *)
Lemma filterRequirements_covered (profile : Profile) (x : string)
    (reqs : list ItemRequirement) :
  forall (inv : gmap string ItemCount) (itemCount : ItemCount),
    inv !! x = Some itemCount ->
    (forall r, r ∈ reqs -> itemId (base r) = x -> 0 <= amountNeeded profile r) ->
    amountNeededFor profile x true reqs <= foundInRaid itemCount ->
    amountNeededFor profile x false reqs <= notFoundInRaid itemCount ->
    forall r, r ∈ (filterRequirements profile inv reqs).1 -> itemId (base r) <> x.
Proof.
  induction reqs as [|req rest IH]; intros inv itemCount Hinv Hpos Hfir Hnfir r;
    cbn [filterRequirements].
  - cbn. intros Hr. now apply elem_of_nil in Hr.
  - assert (Hpos' : forall r, r ∈ rest -> itemId (base r) = x ->
                              0 <= amountNeeded profile r).
    { intros r' Hr'. apply Hpos. now apply list_elem_of_further. }
    pose proof (amountNeededFor_nonneg profile x true rest Hpos') as Hrest_fir.
    pose proof (amountNeededFor_nonneg profile x false rest Hpos') as Hrest_nfir.
    cbn [amountNeededFor] in Hfir, Hnfir.
    destruct (decide (itemId (base req) = x)) as [Hid|Hid].
    + pose proof (Hpos req (list_elem_of_here _ _) Hid) as Hreq.
      subst x.
      rewrite (filterStep_Some profile inv req itemCount Hinv).
      unfold checkIfHasEnoughAndRemove.
      destruct (isFir req) eqn:Efir.
      * rewrite decide_True in Hfir by done.
        rewrite decide_False in Hnfir by (intros [_ ?]; congruence).
        rewrite geb_true by lia. cbn [fst snd negb].
        destruct (filterRequirements profile _ rest) as [out inv''] eqn:Erest.
        cbn [fst]. intros Hr.
        eapply (IH _ _ (lookup_insert_eq _ _ _)); [exact Hpos' | | |
          rewrite Erest; exact Hr]; cbn; lia.
      * rewrite decide_False in Hfir by (intros [_ ?]; congruence).
        rewrite decide_True in Hnfir by done.
        rewrite geb_true by lia. cbn [fst snd negb].
        destruct (filterRequirements profile _ rest) as [out inv''] eqn:Erest.
        cbn [fst]. intros Hr.
        eapply (IH _ _ (lookup_insert_eq _ _ _)); [exact Hpos' | | |
          rewrite Erest; exact Hr]; cbn; lia.
    + rewrite decide_False in Hfir by (intros [? _]; congruence).
      rewrite decide_False in Hnfir by (intros [? _]; congruence).
      pose proof (filterStep_other profile inv req x Hid) as Hother.
      destruct (filterStep profile inv req) as [keep inv'].
      cbn [snd] in Hother. rewrite Hinv in Hother.
      destruct (filterRequirements profile inv' rest) as [out inv''] eqn:Erest.
      cbn [fst]. intros Hr.
      assert (Hout : r ∈ out -> itemId (base r) <> x).
      { intros Hr'. apply (IH inv' itemCount Hother Hpos'); [lia | lia |].
        now rewrite Erest. }
      destruct keep; [| now apply Hout].
      apply elem_of_cons in Hr as [->|Hr]; [exact Hid | now apply Hout].
Qed.

(** X20.  Enough of each kind.  Let an item have an aggregated entry,
    let every amount needed for it be non-negative, let its
    found-in-raid count equal the sum of the amounts needed by its
    requirements that demand found-in-raid copies, and its
    not-found-in-raid count the sum for its other requirements (sums
    over the sorted list).  Then no requirement for the item is
    incomplete. *)
Theorem incompleteItemRequirements_exact (cfg : Config) (profile : Profile)
    (questItemRequirements hideoutItemRequirements : list ItemRequirement)
    (x : string) (itemCount : ItemCount) :
  let sorted :=
    allItemRequirements cfg questItemRequirements hideoutItemRequirements in
  itemsInInventory profile !! x = Some itemCount ->
  (forall r, r ∈ sorted -> itemId (base r) = x -> 0 <= amountNeeded profile r) ->
  foundInRaid itemCount = amountNeededFor profile x true sorted ->
  notFoundInRaid itemCount = amountNeededFor profile x false sorted ->
  forall r,
    r ∈ incompleteItemRequirements cfg profile
          questItemRequirements hideoutItemRequirements ->
    itemId (base r) <> x.
Proof.
  intros sorted Hinv Hpos Hfir Hnfir r Hr.
  apply (filterRequirements_covered profile x sorted
           (itemsInInventory profile) itemCount Hinv Hpos); [lia | lia |].
  exact Hr.
Qed.

(** One found-in-raid unit and three others of X; a found-in-raid
    quest for one, a hideout requirement for two and a key: all are
    served. *)
Lemma incompleteItemRequirements_exact_witness :
  let profile :=
    {| items := [Examples.stack "X" 1 true; Examples.stack "X" 3 false];
       BackendCounters := ∅ |} in
  let quests := [Quest "c" true (Examples.requirement "X" 1 4);
                 QuestKey (Examples.requirement "X" 1 2)] in
  let hideouts := [Hideout (Examples.requirement "X" 2 3)] in
  Forall (fun r => itemId (base r) <> "X"%string)
         (incompleteItemRequirements Examples.config profile quests hideouts).
Proof.
  intros profile quests hideouts. apply Forall_forall.
  apply (incompleteItemRequirements_exact Examples.config profile quests hideouts
           "X" {| foundInRaid := 1; notFoundInRaid := 3 |}).
  - vm_compute. reflexivity.
  - intros r Hr _. vm_compute in Hr.
    repeat (apply elem_of_cons in Hr as [->|Hr]; [vm_compute; discriminate |]).
    now apply elem_of_nil in Hr.
  - vm_compute. reflexivity.
  - vm_compute. reflexivity.
Defined.

(** C2 at a failing input.  The player holds two units of X, both
    found in raid, and two hideout requirements need one each: the
    aggregated inventory equals the sum of the amounts needed.  The
    first is served from both counts and leaves 1 found in raid and the
    marker -1 not found in raid; the second reads the marker back as a
    count, [-1 + 1 < 1], and is kept as incomplete while a unit of X is
    still held. *)
Theorem exact_stock_requirement_incomplete :
  let profile :=
    {| items := [Examples.stack "X" 2 true]; BackendCounters := ∅ |} in
  let first := Hideout (Examples.requirement "X" 1 1) in
  let second := Hideout (Examples.requirement "X" 1 2) in
  let sorted := allItemRequirements Examples.config [] [first; second] in
  itemsInInventory profile !! "X"%string
  = Some {| foundInRaid := 2; notFoundInRaid := 0 |}
  /\ amountNeededFor profile "X" true sorted
     + amountNeededFor profile "X" false sorted = 2 + 0
  /\ incompleteItemRequirements Examples.config profile [] [first; second]
     = [second]
  /\ inventoryAfter Examples.config profile [] [first; second] !! "X"%string
     = Some {| foundInRaid := 1; notFoundInRaid := -1 |}.
Proof. vm_compute. repeat split. Qed.

(** The amounts have to be non-negative.  Two units of X not found in
    raid; a hideout requirement needs 3 and a quest whose progress is one
    ahead needs -1, which sum to 2.  The hideout requirement is older,
    comes first and finds 2 where it needs 3. *)
Example negative_amount_not_exact :
  let profile :=
    {| items := [Examples.stack "X" 2 false];
       BackendCounters := {[ "c"%string := {| value := 2 |} ]} |} in
  let quest := Quest "c" false (Examples.requirement "X" 1 5) in
  let hideout := Hideout (Examples.requirement "X" 3 1) in
  let sorted := allItemRequirements Examples.config [quest] [hideout] in
  amountNeededFor profile "X" false sorted = 2
  /\ amountNeededFor profile "X" true sorted = 0
  /\ incompleteItemRequirements Examples.config profile [quest] [hideout]
     = [hideout].
Proof. vm_compute. repeat split. Qed.

(** ** Older requirements, larger multipliers *)

Lemma olderThan_refl (req : ItemRequirement) : olderThan req req.
Proof. unfold olderThan. repeat split; lia. Qed.

Lemma olderThan_withElapsed (req : ItemRequirement) (seconds raids : Z) :
  secondsSinceStarted (base req) <= seconds ->
  raidsSinceStarted (base req) <= raids ->
  olderThan req (withElapsed seconds raids req).
Proof. intros Hs Hr. destruct req; repeat split; assumption. Qed.

Lemma hoursSinceStarted_mono (req req' : ItemRequirement) :
  secondsSinceStarted (base req) <= secondsSinceStarted (base req') ->
  hoursSinceStarted req <= hoursSinceStarted req'.
Proof.
  intros H. unfold hoursSinceStarted, Num.round. apply Qfloor_resp_le.
  rewrite Zle_Qle in H. apply Qplus_le_l. unfold Qdiv.
  repeat apply Qmult_le_compat_r; [exact H | discriminate ..].
Qed.

Section Monotone.
Context (cfg : Config).
Hypothesis perHour_nonneg : (0 <= dropRateIncreasePerHour cfg)%Q.
Hypothesis perRaid_nonneg : (0 <= dropRateIncreasePerRaid cfg)%Q.

Lemma candidate_mono (n n' : Z) (rate cur cur' : Q) :
  (0 <= rate)%Q -> n <= n' -> (cur <= cur')%Q ->
  (Num.max cur (Num.add (Num.mul (inject_Z n) rate)
                        (if increasesStack cfg then cur else 1))
   <= Num.max cur' (Num.add (Num.mul (inject_Z n') rate)
                            (if increasesStack cfg then cur' else 1)))%Q.
Proof.
  intros Hrate Hn Hcur. unfold Num.max. apply Q.max_le_compat; [exact Hcur |].
  rewrite Zle_Qle in Hn. apply add_mono.
  - now apply mul_mono_l.
  - destruct (increasesStack cfg); [exact Hcur | apply Qle_refl].
Qed.

Lemma statsStep_mono (m m' : gmap string DropRateStats)
    (req req' : ItemRequirement) :
  multipliersLe m m' -> olderThan req req' ->
  multipliersLe (statsStep cfg m req) (statsStep cfg m' req').
Proof.
  intros Hm (Hid & Hkey & Hsec & Hraid) k. unfold statsStep.
  rewrite <- Hid, <- Hkey.
  destruct (decide (k = itemId (base req))) as [->|Hne].
  - rewrite !lookup_insert_eq. constructor.
    assert (Hs : statsLe
              (default {| timeBasedDropRateMultiplier := 1;
                          raidBasedDropRateMultiplier := 1;
                          isKey := isQuestKey req |} (m !! itemId (base req)))
              (default {| timeBasedDropRateMultiplier := 1;
                          raidBasedDropRateMultiplier := 1;
                          isKey := isQuestKey req |} (m' !! itemId (base req)))).
    { destruct (Hm (itemId (base req))) as [s s' Hs|]; cbn [default].
      - exact Hs.
      - split; apply Qle_refl. }
    destruct Hs as [Ht Hr]. split; cbn [timeBasedDropRateMultiplier
      raidBasedDropRateMultiplier].
    + apply candidate_mono; [exact perHour_nonneg | | exact Ht].
      now apply hoursSinceStarted_mono.
    + now apply candidate_mono.
  - rewrite !lookup_insert_ne by congruence. apply Hm.
Qed.

Lemma foldl_statsStep_mono (reqs reqs' : list ItemRequirement) :
  Forall2 olderThan reqs reqs' ->
  forall m m' : gmap string DropRateStats,
    multipliersLe m m' ->
    multipliersLe (foldl (statsStep cfg) m reqs) (foldl (statsStep cfg) m' reqs').
Proof.
  induction 1 as [|req req' reqs reqs' Hreq _ IH]; intros m m' Hm; cbn [foldl].
  - exact Hm.
  - apply IH. now apply statsStep_mono.
Qed.

End Monotone.

(** A requirement of the list has an entry. *)
Lemma foldl_statsStep_is_Some (cfg : Config) (reqs : list ItemRequirement)
    (k : string) :
  forall m : gmap string DropRateStats,
    is_Some (m !! k) \/ (exists r, r ∈ reqs /\ itemId (base r) = k) ->
    is_Some (foldl (statsStep cfg) m reqs !! k).
Proof.
  induction reqs as [|req reqs IH]; intros m H; cbn [foldl].
  - destruct H as [H|(r & Hr & _)]; [exact H | now apply elem_of_nil in Hr].
  - apply IH.
    destruct (decide (itemId (base req) = k)) as [<-|Hne].
    + left. unfold statsStep. rewrite lookup_insert_eq. eauto.
    + destruct H as [H|(r & Hr & Hk)].
      * left. unfold statsStep. now rewrite lookup_insert_ne.
      * apply elem_of_cons in Hr as [->|Hr]; [contradiction |].
        right. eauto.
Qed.

(** C7, as amended.  For a given list of incomplete requirements and
    non-negative rates per hour and per raid, making one requirement
    older (more seconds, more raids, all else the same) does not make
    either multiplier of its item smaller. *)
Theorem dropRateMultipliersOf_monotone (cfg : Config)
    (before after : list ItemRequirement) (req : ItemRequirement)
    (seconds raids : Z) :
  (0 <= dropRateIncreasePerHour cfg)%Q ->
  (0 <= dropRateIncreasePerRaid cfg)%Q ->
  secondsSinceStarted (base req) <= seconds ->
  raidsSinceStarted (base req) <= raids ->
  exists stats stats' : DropRateStats,
    dropRateMultipliersOf cfg (before ++ req :: after) !! itemId (base req)
    = Some stats
    /\ dropRateMultipliersOf cfg
         (before ++ withElapsed seconds raids req :: after) !! itemId (base req)
       = Some stats'
    /\ (timeBasedDropRateMultiplier stats
        <= timeBasedDropRateMultiplier stats')%Q
    /\ (raidBasedDropRateMultiplier stats
        <= raidBasedDropRateMultiplier stats')%Q.
Proof.
  intros Hhour Hraid Hs Hr.
  assert (Hle : multipliersLe
            (dropRateMultipliersOf cfg (before ++ req :: after))
            (dropRateMultipliersOf cfg
               (before ++ withElapsed seconds raids req :: after))).
  { apply foldl_statsStep_mono; [assumption .. | | ].
    - apply Forall2_app.
      + apply Forall_Forall2_diag, Forall_forall. intros r _. apply olderThan_refl.
      + constructor; [now apply olderThan_withElapsed |].
        apply Forall_Forall2_diag, Forall_forall. intros r _. apply olderThan_refl.
    - intros k. rewrite lookup_empty. constructor. }
  specialize (Hle (itemId (base req))).
  destruct (foldl_statsStep_is_Some cfg (before ++ req :: after)
              (itemId (base req)) ∅) as [stats Hstats].
  { right. exists req. split; [| reflexivity].
    apply elem_of_app. right. apply list_elem_of_here. }
  unfold dropRateMultipliersOf in *. rewrite Hstats in Hle.
  inversion Hle as [s s' [Ht Hr'] Es Es'|]; subst.
  exists stats, s'. repeat split; solve [reflexivity | assumption].
Qed.

(** A requirement five raids old made ten raids old, next to one of
    three raids: the raid multiplier goes from 1.5 to 2. *)
Lemma dropRateMultipliersOf_monotone_witness :
  exists stats stats' : DropRateStats,
    dropRateMultipliersOf Examples.config
      ([Hideout (Examples.requirement "X" 1 3)]
         ++ Hideout (Examples.requirement "X" 1 5) :: []) !! "X"%string
    = Some stats
    /\ dropRateMultipliersOf Examples.config
         ([Hideout (Examples.requirement "X" 1 3)]
            ++ withElapsed 0 10 (Hideout (Examples.requirement "X" 1 5)) :: [])
         !! "X"%string
       = Some stats'
    /\ (timeBasedDropRateMultiplier stats
        <= timeBasedDropRateMultiplier stats')%Q
    /\ (raidBasedDropRateMultiplier stats
        <= raidBasedDropRateMultiplier stats')%Q.
Proof.
  apply (dropRateMultipliersOf_monotone Examples.config
           [Hideout (Examples.requirement "X" 1 3)] []
           (Hideout (Examples.requirement "X" 1 5)) 0 10).
  - vm_compute. discriminate.
  - vm_compute. discriminate.
  - simpl. lia.
  - simpl. lia.
Defined.

(** The rates have to be non-negative (or the elapsed values).  With
    -0.1 per raid, a requirement at -10 raids has the multiplier 2 and at
    0 raids the multiplier 1. *)
Example negative_rate_not_monotone :
  let cfg :=
    {| maxDropRateMultiplier := 5;
       dropRateIncreaseType := "raid";
       dropRateIncreasePerRaid := Num.number (- (1 # 10));
       dropRateIncreasePerHour := Num.number (1 # 20);
       keysAdditionalMultiplier := Num.number (3 # 2);
       increasesStack := false |} in
  let req := Hideout (Examples.requirement "X" 1 (-10)) in
  (raidBasedDropRateMultiplier <$>
     (dropRateMultipliersOf cfg [req] !! "X"%string))
  = Some 2%Q
  /\ (raidBasedDropRateMultiplier <$>
        (dropRateMultipliersOf cfg [withElapsed 0 0 req] !! "X"%string))
     = Some 1%Q.
Proof. vm_compute. split; reflexivity. Qed.

(** C7, as stated for the requirements given to the method, fails: the
    elapsed values also decide the order of consumption.  The player
    holds two units of X; hideout requirements need 2, 1 and 1 and are
    1, 5 and 10 raids old.  The first takes both units and the other two
    are incomplete: the raid multiplier of X is 2.  With the first 7
    raids old instead, the second is served before it, the first finds
    one unit where it needs two, and the third is served: only the first
    is incomplete and the multiplier is fl(fl(7 x 0.1) + 1), the double
    1.7000000000000002. *)
Lemma older_requirement_smaller_multiplier_counterexample :
  let profile :=
    {| items := [Examples.stack "X" 2 false]; BackendCounters := ∅ |} in
  let reqs (raids : Z) :=
    [Hideout (Examples.requirement "X" 2 raids);
     Hideout (Examples.requirement "X" 1 5);
     Hideout (Examples.requirement "X" 1 10)] in
  exists stats stats' : DropRateStats,
    itemDropRateMultipliers Examples.config profile [] (reqs 1) !! "X"%string
    = Some stats
    /\ itemDropRateMultipliers Examples.config profile [] (reqs 7) !! "X"%string
       = Some stats'
    /\ (basisMultiplier Examples.config stats == 2)%Q
    /\ (basisMultiplier Examples.config stats'
        == 1914029841632461 # 1125899906842624)%Q
    /\ (basisMultiplier Examples.config stats'
        < basisMultiplier Examples.config stats)%Q.
Proof.
  intros profile reqs. eexists. eexists.
  split; [vm_compute; reflexivity |].
  split; [vm_compute; reflexivity |].
  repeat split.
Qed.

(** ** Stage 4: the rules of the logic *)

Section Logic.

Lemma frame_refl (X : gset loc) (h : heap) : frame X h h.
Proof. split; [reflexivity | auto]. Qed.

Lemma frame_trans (X1 X : gset loc) (h1 h2 h3 : heap) :
  X1 ⊆ X -> frame X1 h1 h2 -> frame X h2 h3 -> frame X h1 h3.
Proof.
  intros HX [Hd1 H1] [Hd2 H2]. split; [set_solver |].
  intros l o Hl Hn. apply H2; [| exact Hn]. apply H1; [exact Hl | set_solver].
Qed.

Lemma frame_empty (h h' : heap) : frame ∅ h h' <-> h ⊆ h'.
Proof.
  split.
  - intros [_ H]. apply map_subseteq_spec. intros l o Hl. apply H; [exact Hl | set_solver].
  - intros H. split; [now apply subseteq_dom |].
    intros l o Hl _. eapply lookup_weaken; eassumption.
Qed.

Lemma grows_refl (h σ : heap) : grows h σ σ.
Proof. split; [reflexivity | auto]. Qed.

Lemma grows_trans (h1 h2 σ1 σ2 σ3 : heap) :
  dom h1 ⊆ dom h2 -> grows h1 σ1 σ2 -> grows h2 σ2 σ3 -> grows h1 σ1 σ3.
Proof.
  intros Hd [Hs1 H1] [Hs2 H2]. split; [now transitivity σ2 |].
  intros l Hl Hh. apply H1; [| exact Hh]. apply H2; [exact Hl | set_solver].
Qed.

(** After a computation the part that is not assigned to is still
    apart from [X]. *)
Lemma wf_after (X : gset loc) (h h' σ σ' : heap) :
  wf X h σ -> frame X h h' -> grows h σ σ' -> σ' ⊆ h' -> wf X h' σ'.
Proof.
  intros (Hsub & Hdisj & HX) [Hdom _] [_ Hg] Hsub'. split; [exact Hsub' |].
  split; [| set_solver].
  apply elem_of_disjoint. intros l Hl HlX.
  assert (l ∈ dom σ) by (apply Hg; [exact Hl | set_solver]).
  set_solver.
Qed.

Lemma wf_weaken (X : gset loc) (h σ : heap) : wf X h σ -> wf ∅ h σ.
Proof. intros (Hsub & _ & _). split; [exact Hsub | set_solver]. Qed.

Lemma spec_ret {A : Type} (X : gset loc) (a : A) (h σ : heap)
    (Φ : A -> heap -> heap -> Prop) :
  wf X h σ -> Φ a h σ -> spec X (ret a) h σ Φ.
Proof.
  intros (Hsub & _) H. exists a, h, σ.
  split; [reflexivity |]. split; [apply frame_refl |].
  split; [apply grows_refl |]. auto.
Qed.

Lemma spec_bind {A B : Type} (X1 X : gset loc) (m : M A) (k : A -> M B)
    (h σ : heap) (Φ : A -> heap -> heap -> Prop)
    (Ψ : B -> heap -> heap -> Prop) :
  X1 ⊆ X -> wf X h σ ->
  spec X1 m h σ Φ ->
  (forall (a : A) (h' σ' : heap),
      wf X h' σ' -> frame X1 h h' -> σ ⊆ σ' -> Φ a h' σ' ->
      spec X (k a) h' σ' Ψ) ->
  spec X (bind m k) h σ Ψ.
Proof.
  intros HX Hwf (a & h1 & σ1 & Hm & Hf1 & Hg1 & Hs1 & HΦ) Hk.
  assert (Hf1' : frame X h h1).
  { apply (frame_trans X1 X h h h1); auto using frame_refl.
    destruct Hf1 as [Hd H1]. split; [exact Hd |]. intros l o Hl Hn.
    apply H1; [exact Hl | set_solver]. }
  assert (Hwf1 : wf X h1 σ1) by (eapply wf_after; eassumption).
  destruct (Hk a h1 σ1 Hwf1 Hf1 (proj1 Hg1) HΦ)
    as (b & h2 & σ2 & Hkb & Hf2 & Hg2 & Hs2 & HΨ).
  exists b, h2, σ2. unfold bind. rewrite Hm. split; [exact Hkb |].
  split; [eapply frame_trans; [reflexivity | exact Hf1' | exact Hf2] |].
  split; [| auto].
  eapply grows_trans; [| exact Hg1 | exact Hg2]. apply Hf1.
Qed.

(** A step that only reads. *)
Lemma spec_read {A B : Type} (X : gset loc) (m : M A) (k : A -> M B) (a : A)
    (h σ : heap) (Ψ : B -> heap -> heap -> Prop) :
  m h = Returns a h -> spec X (k a) h σ Ψ -> spec X (bind m k) h σ Ψ.
Proof.
  intros Hm (b & h' & σ' & Hk & H). exists b, h', σ'.
  unfold bind. rewrite Hm. auto.
Qed.

Lemma spec_conseq {A : Type} (X : gset loc) (m : M A) (h σ : heap)
    (Φ Ψ : A -> heap -> heap -> Prop) :
  spec X m h σ Φ ->
  (forall (a : A) (h' σ' : heap),
      frame X h h' -> grows h σ σ' -> σ' ⊆ h' -> Φ a h' σ' -> Ψ a h' σ') ->
  spec X m h σ Ψ.
Proof.
  intros (a & h' & σ' & Hm & Hf & Hg & Hs & HΦ) H.
  exists a, h', σ'. split; [exact Hm |]. split; [exact Hf |].
  split; [exact Hg |]. split; [exact Hs |]. now apply H.
Qed.

(** A computation that assigns to nothing may run while objects are
    under construction. *)
Lemma spec_lift {A : Type} (X : gset loc) (m : M A) (h σ : heap)
    (Φ : A -> heap -> heap -> Prop) :
  spec ∅ m h σ Φ -> spec X m h σ Φ.
Proof.
  intros (a & h' & σ' & Hm & [Hd Hf] & Hg & Hs & HΦ).
  exists a, h', σ'. split; [exact Hm |]. split; [| auto].
  split; [exact Hd |].
  intros l o Hl _. apply Hf; [exact Hl | set_solver].
Qed.

Lemma fresh_not_in_dom (h : heap) : h !! fresh (dom h) = None.
Proof. apply not_elem_of_dom. apply is_fresh. Qed.

(** A new object that is not assigned to afterwards. *)
Lemma spec_alloc (X : gset loc) (o : obj) (h σ : heap)
    (Φ : val -> heap -> heap -> Prop) :
  wf X h σ ->
  (forall l : loc, h !! l = None -> Φ (VRef l) (<[l := o]> h) (<[l := o]> σ)) ->
  spec X (alloc o) h σ Φ.
Proof.
  intros (Hsub & Hdisj & HX) H.
  pose proof (fresh_not_in_dom h) as Hfresh.
  assert (Hσ : σ !! fresh (dom h) = None).
  { destruct (σ !! fresh (dom h)) eqn:E; [| reflexivity].
    rewrite (lookup_weaken _ _ _ _ E Hsub) in Hfresh. discriminate. }
  exists (VRef (fresh (dom h))), (<[fresh (dom h) := o]> h),
         (<[fresh (dom h) := o]> σ).
  split; [reflexivity |]. split; [| split; [| split]].
  - split; [rewrite dom_insert_L; set_solver |].
    intros l o' Hl _. rewrite lookup_insert_ne; [exact Hl | congruence].
  - split; [now apply insert_subseteq |].
    intros l Hl Hh. rewrite dom_insert_L in Hl.
    apply elem_of_union in Hl as [Hl|Hl]; [| exact Hl].
    apply elem_of_singleton in Hl. subst l.
    apply elem_of_dom in Hh as [? Hh]. congruence.
  - now apply insert_mono.
  - now apply H.
Qed.

(** A new object [l] that the rest of the computation assigns to; at
    the end it may be counted among the objects not assigned to. *)
Lemma spec_alloc_local {B : Type} (X : gset loc) (o : obj) (k : val -> M B)
    (h σ : heap) (Ψ : B -> heap -> heap -> Prop) :
  wf X h σ ->
  (forall l : loc, h !! l = None ->
     spec (X ∪ {[l]}) (k (VRef l)) (<[l := o]> h) σ
       (fun b h' σ' =>
          σ' !! l = None ->
          exists σ'' : heap,
            σ' ⊆ σ'' /\ σ'' ⊆ h' /\ dom σ'' ⊆ dom σ' ∪ {[l]} /\ Ψ b h' σ'')) ->
  spec X (bind (alloc o) k) h σ Ψ.
Proof.
  intros (Hsub & Hdisj & HX) H.
  pose proof (fresh_not_in_dom h) as Hfresh.
  destruct (H _ Hfresh) as (b & h' & σ' & Hk & [Hd Hf] & [Hg1 Hg2] & Hs & Hpost).
  assert (Hσ : σ !! fresh (dom h) = None).
  { destruct (σ !! fresh (dom h)) eqn:E; [| reflexivity].
    rewrite (lookup_weaken _ _ _ _ E Hsub) in Hfresh. discriminate. }
  assert (Hσ' : σ' !! fresh (dom h) = None).
  { apply not_elem_of_dom. intros Hin. apply Hg2 in Hin.
    - apply elem_of_dom in Hin as [? Hin]. congruence.
    - rewrite dom_insert_L. apply elem_of_union_l. now apply elem_of_singleton. }
  destruct (Hpost Hσ') as (σ'' & Hs1 & Hs2 & Hs3 & HΨ).
  exists b, h', σ''. split; [exact Hk |]. split; [| split; [| split]].
  - split.
    + rewrite dom_insert_L in Hd. intros l Hl. apply Hd.
      now apply elem_of_union_r.
    + intros l o' Hl Hn. apply Hf.
      * rewrite lookup_insert_ne; [exact Hl | congruence].
      * apply not_elem_of_union. split; [exact Hn |].
        apply not_elem_of_singleton. congruence.
  - split; [now transitivity σ' |].
    intros l Hl Hh.
    assert (Hne : l <> fresh (dom h)).
    { intros ->. apply elem_of_dom in Hh as [? Hh]. congruence. }
    apply Hg2.
    + apply Hs3 in Hl. apply elem_of_union in Hl as [Hl|Hl]; [exact Hl |].
      apply elem_of_singleton in Hl. contradiction.
    + rewrite dom_insert_L. now apply elem_of_union_r.
  - exact Hs2.
  - exact HΨ.
Qed.

(** A computation whose final heap is known. *)
Lemma spec_exact {A : Type} (X : gset loc) (m : M A) (a : A) (h h' σ : heap)
    (Φ : A -> heap -> heap -> Prop) :
  m h = Returns a h' -> frame X h h' -> σ ⊆ h' -> Φ a h' σ ->
  spec X m h σ Φ.
Proof.
  intros Hm Hf Hs HΦ. exists a, h', σ.
  split; [exact Hm |]. split; [exact Hf |]. split; [apply grows_refl | auto].
Qed.

(** An assignment to an object under construction. *)
Lemma spec_setProp (X : gset loc) (l : loc) (k : string) (x : val)
    (props : gmap string val) (h σ : heap) (Φ : unit -> heap -> heap -> Prop) :
  wf X h σ -> l ∈ X -> h !! l = Some (Obj props) ->
  Φ tt (<[l := Obj (<[k := x]> props)]> h) σ ->
  spec X (setProp (VRef l) k x) h σ Φ.
Proof.
  intros (Hsub & Hdisj & HX) Hl Hh H.
  exists tt, (<[l := Obj (<[k := x]> props)]> h), σ.
  unfold setProp. rewrite Hh. split; [reflexivity |].
  split; [| split; [| split]].
  - split; [rewrite dom_insert_L; set_solver |].
    intros l' o Hl' Hn. rewrite lookup_insert_ne; [exact Hl' | congruence].
  - apply grows_refl.
  - apply insert_subseteq_r; [| exact Hsub].
    apply not_elem_of_dom. set_solver.
  - exact H.
Qed.

End Logic.

(** *** Reading *)

Lemma getProp_Obj (h : heap) (l : loc) (props : gmap string val) (k : string) :
  h !! l = Some (Obj props) ->
  getProp (VRef l) k h = Returns (default VUndefined (props !! k)) h.
Proof. intros H. unfold getProp, bind, deref. now rewrite H. Qed.

Lemma getProp_Some (h : heap) (l : loc) (props : gmap string val) (k : string)
    (x : val) :
  h !! l = Some (Obj props) -> props !! k = Some x ->
  getProp (VRef l) k h = Returns x h.
Proof. intros H Hk. rewrite (getProp_Obj h l props k H). now rewrite Hk. Qed.

Lemma spread_Obj (h : heap) (l : loc) (props : gmap string val) :
  h !! l = Some (Obj props) -> spread (VRef l) h = Returns props h.
Proof. intros H. unfold spread, bind, deref. now rewrite H. Qed.

Lemma entries_Obj (h : heap) (l : loc) (props : gmap string val) :
  h !! l = Some (Obj props) -> entries (VRef l) h = Returns (map_to_list props) h.
Proof. intros H. unfold entries, bind, deref. now rewrite H. Qed.

Lemma elems_Arr (h : heap) (l : loc) (vs : list val) :
  h !! l = Some (Arr vs) -> elems (VRef l) h = Returns vs h.
Proof. intros H. unfold elems, bind, deref. now rewrite H. Qed.

Lemma hasProp_Some (h : heap) (l : loc) (o : obj) (k : string) :
  h !! l = Some o ->
  hasProp k (VRef l) h =
    Returns (match o with
             | Obj props => bool_decide (is_Some (props !! k))
             | Arr _ => false
             end) h.
Proof. intros H. unfold hasProp, bind, deref. rewrite H. now destruct o. Qed.

(** *** The representation predicates are kept by a larger heap *)

Section Mono.
Context (σ σ' : heap) (Hsub : σ ⊆ σ').

Lemma isArray_mono {T : Type} (R R' : T -> val -> Prop) (ts : list T) (v : val) :
  (forall t x, R t x -> R' t x) ->
  Typed.isArray σ R ts v -> Typed.isArray σ' R' ts v.
Proof.
  intros HR (l & vs & -> & Hl & Hvs). exists l, vs.
  split; [reflexivity |]. split; [eapply lookup_weaken; eassumption |].
  eapply Forall2_impl; eassumption.
Qed.

Lemma isDict_mono {T : Type} (R R' : T -> val -> Prop) (m : gmap string T)
    (v : val) :
  (forall t x, R t x -> R' t x) ->
  Typed.isDict σ R m v -> Typed.isDict σ' R' m v.
Proof.
  intros HR (l & props & -> & Hl & Hm). exists l, props.
  split; [reflexivity |]. split; [eapply lookup_weaken; eassumption |].
  intros k. destruct (Hm k); constructor. auto.
Qed.

Lemma isItemDistribution_mono (d : Typed.ItemDistribution) (v : val) :
  Typed.isItemDistribution σ d v -> Typed.isItemDistribution σ' d v.
Proof.
  intros (l & -> & Hl). exists l. split; [reflexivity |].
  eapply lookup_weaken; eassumption.
Qed.

Lemma isContainer_mono (c : Typed.IStaticLootDetails) (v : val) :
  Typed.isContainer σ c v -> Typed.isContainer σ' c v.
Proof.
  intros (l & dists & -> & Hl & Hd). exists l, dists.
  split; [reflexivity |]. split; [eapply lookup_weaken; eassumption |].
  eapply isArray_mono; [| exact Hd]. apply isItemDistribution_mono.
Qed.

Lemma isLootBase_mono (loot : Typed.ILootBase) (v : val) :
  Typed.isLootBase σ loot v -> Typed.isLootBase σ' loot v.
Proof.
  intros (l & props & cs & -> & Hl & Hp & Ho & Hd). exists l, props, cs.
  split; [reflexivity |]. split; [eapply lookup_weaken; eassumption |].
  split; [exact Hp |]. split; [exact Ho |].
  eapply isDict_mono; [| exact Hd]. apply isContainer_mono.
Qed.

Lemma isLooseItemDistribution_mono (d : Typed.LooseItemDistribution) (v : val) :
  Typed.isLooseItemDistribution σ d v -> Typed.isLooseItemDistribution σ' d v.
Proof.
  intros (l & ck & -> & Hl & Hck). exists l, ck.
  split; [reflexivity |]. split; eapply lookup_weaken; eassumption.
Qed.

Lemma isTemplateItem_mono (i : Typed.TemplateItem) (v : val) :
  Typed.isTemplateItem σ i v -> Typed.isTemplateItem σ' i v.
Proof.
  intros (l & props & -> & Hl & Hid & Htpl). exists l, props.
  split; [reflexivity |]. split; [eapply lookup_weaken; eassumption | auto].
Qed.

Lemma isSpawnpoint_mono (sp : Typed.Spawnpoint) (v : val) :
  Typed.isSpawnpoint σ sp v -> Typed.isSpawnpoint σ' sp v.
Proof.
  intros (l & t & props & tprops & items & dists
          & -> & Hl & Ht & Htl & Hi & Hitems & Hd & Hdists & Ho).
  exists l, t, props, tprops, items, dists.
  split; [reflexivity |]. split; [eapply lookup_weaken; eassumption |].
  split; [exact Ht |]. split; [eapply lookup_weaken; eassumption |].
  split; [exact Hi |].
  split; [eapply isArray_mono; [| exact Hitems]; apply isTemplateItem_mono |].
  split; [exact Hd |].
  split; [eapply isArray_mono; [| exact Hdists];
          apply isLooseItemDistribution_mono |].
  exact Ho.
Qed.

Lemma isLooseLoot_mono (ll : Typed.ILooseLoot) (v : val) :
  Typed.isLooseLoot σ ll v -> Typed.isLooseLoot σ' ll v.
Proof.
  intros (l & props & sps & -> & Hl & Hp & Hsps & Ho). exists l, props, sps.
  split; [reflexivity |]. split; [eapply lookup_weaken; eassumption |].
  split; [exact Hp |].
  split; [eapply isArray_mono; [| exact Hsps]; apply isSpawnpoint_mono |].
  exact Ho.
Qed.

Lemma isLocation_mono (location : Typed.Location) (v : val) :
  Typed.isLocation σ location v -> Typed.isLocation σ' location v.
Proof.
  destruct location as [ll others|v0]; cbn.
  - intros (l & props & llv & -> & Hl & Hp & Hll & Ho). exists l, props, llv.
    split; [reflexivity |]. split; [eapply lookup_weaken; eassumption |].
    split; [exact Hp |]. split; [now apply isLooseLoot_mono | exact Ho].
  - intros [-> [H|(l & o & -> & Hl & Ho)]]; (split; [reflexivity |]).
    + now left.
    + right. exists l, o. split; [reflexivity |].
      split; [eapply lookup_weaken; eassumption | exact Ho].
Qed.

Lemma isLocations_mono (locations : gmap string Typed.Location) (v : val) :
  Typed.isLocations σ locations v -> Typed.isLocations σ' locations v.
Proof. apply isDict_mono. apply isLocation_mono. Qed.

End Mono.

(** *** [map] over an array *)

Section MapM.
Context {T : Type} (f : val -> M val) (R R' : heap -> T -> val -> Prop).
Context (I : heap -> Prop).
Hypothesis R_mono : forall σ σ' t v, σ ⊆ σ' -> R σ t v -> R σ' t v.
Hypothesis R'_mono : forall σ σ' t v, σ ⊆ σ' -> R' σ t v -> R' σ' t v.
Hypothesis I_mono : forall h h', h ⊆ h' -> I h -> I h'.
Hypothesis f_spec :
  forall (h σ : heap) (t : T) (v : val),
    wf ∅ h σ -> I h -> R σ t v ->
    spec ∅ (f v) h σ (fun v' _ σ' => R' σ' t v').

Lemma spec_mapM (ts : list T) (vs : list val) :
  forall h σ : heap,
    wf ∅ h σ -> I h -> Forall2 (R σ) ts vs ->
    spec ∅ (mapM f vs) h σ (fun vs' _ σ' => Forall2 (R' σ') ts vs').
Proof.
  revert ts. induction vs as [|v vs IH]; intros ts h σ Hwf HI Hts.
  - apply Forall2_nil_inv_r in Hts. subst ts.
    apply spec_ret; [exact Hwf | constructor].
  - apply Forall2_cons_inv_r in Hts as (t & ts' & Ht & Hts & ->).
    cbn [mapM].
    eapply (spec_bind ∅ ∅);
      [reflexivity | exact Hwf | exact (f_spec h σ t v Hwf HI Ht) |].
    intros v' h1 σ1 Hwf1 Hf1 Hσ1 Hv'. cbn beta.
    apply frame_empty in Hf1.
    eapply (spec_bind ∅ ∅); [reflexivity | exact Hwf1 | |].
    + apply (IH ts'); [exact Hwf1 | now apply (I_mono h) |].
      eapply Forall2_impl; [exact Hts |]. intros t0 v0. now apply R_mono.
    + intros vs' h2 σ2 Hwf2 _ Hσ2 Hvs'. cbn beta.
      apply spec_ret; [exact Hwf2 |].
      constructor; [| exact Hvs']. now apply (R'_mono σ1).
Qed.

Lemma spec_arrayMap (ts : list T) (arr : val) (h σ : heap) :
  wf ∅ h σ -> I h -> Typed.isArray σ (R σ) ts arr ->
  spec ∅ (arrayMap f arr) h σ
    (fun arr' _ σ' => Typed.isArray σ' (R' σ') ts arr').
Proof.
  intros Hwf HI (l & vs & -> & Hl & Hvs). unfold arrayMap.
  apply spec_read with vs.
  { apply elems_Arr. eapply lookup_weaken; [exact Hl | apply Hwf]. }
  eapply (spec_bind ∅ ∅);
    [reflexivity | exact Hwf | exact (spec_mapM ts vs h σ Hwf HI Hvs) |].
  intros vs' h1 σ1 Hwf1 _ Hσ1 Hvs'. cbn beta.
  apply spec_alloc; [exact Hwf1 |]. intros l' Hl'.
  assert (Hσl' : σ1 !! l' = None).
  { destruct (σ1 !! l') eqn:E; [| reflexivity].
    rewrite (lookup_weaken _ _ _ _ E (proj1 Hwf1)) in Hl'. discriminate. }
  exists l', vs'. split; [reflexivity |].
  split; [apply lookup_insert_eq |].
  eapply Forall2_impl; [exact Hvs' |]. intros t v.
  apply R'_mono. now apply insert_subseteq.
Qed.

End MapM.

(** *** Filling a dictionary

    The loop [for (const [k, v] of entries) target[k] = body(v)], for a
    target under construction and a body that assigns to nothing. *)

Lemma wf_fresh (X : gset loc) (h σ : heap) (l : loc) :
  wf X h σ -> h !! l = None -> σ !! l = None.
Proof.
  intros (Hsub & _) Hl. destruct (σ !! l) eqn:E; [| reflexivity].
  rewrite (lookup_weaken _ _ _ _ E Hsub) in Hl. discriminate.
Qed.

Lemma wf_local (X : gset loc) (h σ : heap) (t : loc) (o : obj) :
  wf X h σ -> h !! t = None -> wf (X ∪ {[t]}) (<[t := o]> h) σ.
Proof.
  intros Hwf Ht. pose proof (wf_fresh X h σ t Hwf Ht) as Hσ.
  destruct Hwf as (Hsub & Hdisj & HX). split; [| split].
  - now apply insert_subseteq_r.
  - apply elem_of_disjoint. intros x Hx Hx'.
    apply elem_of_union in Hx' as [Hx'|Hx'].
    + apply (proj1 (elem_of_disjoint _ _) Hdisj x Hx Hx').
    + apply elem_of_singleton in Hx'. subst x.
      apply elem_of_dom in Hx as [? Hx]. congruence.
  - rewrite dom_insert_L. intros x Hx.
    apply elem_of_union in Hx as [Hx|Hx].
    + apply elem_of_union_r. now apply HX.
    + now apply elem_of_union_l.
Qed.

Section Fill.
Context {T : Type} (body : val -> M val) (R R' : heap -> T -> val -> Prop).
Context (m : gmap string T) (target : loc) (X : gset loc).
Hypothesis R_mono : forall σ σ' t v, σ ⊆ σ' -> R σ t v -> R σ' t v.
Hypothesis R'_mono : forall σ σ' t v, σ ⊆ σ' -> R' σ t v -> R' σ' t v.
Hypothesis target_in : target ∈ X.
Hypothesis body_spec :
  forall (h σ : heap) (t : T) (v : val),
    wf ∅ h σ -> R σ t v -> spec ∅ (body v) h σ (fun v' _ σ' => R' σ' t v').

Lemma spec_fill (ents : list (string * val)) :
  forall (h σ : heap) (acc : gmap string val),
    wf X h σ -> h !! target = Some (Obj acc) ->
    (forall k v, (k, v) ∈ ents -> exists t, m !! k = Some t /\ R σ t v) ->
    spec X
      (forEach (fun '(k, v) =>
                  let* v' := body v in setProp (VRef target) k v') ents)
      h σ
      (fun _ h' σ' =>
         exists acc' : gmap string val,
           h' !! target = Some (Obj acc')
           /\ forall k : string,
               (k ∈ ents.*1 ->
                exists t v', m !! k = Some t /\ acc' !! k = Some v'
                             /\ R' σ' t v')
               /\ (k ∉ ents.*1 -> acc' !! k = acc !! k)).
Proof.
  induction ents as [|[k v] ents IH]; intros h σ acc Hwf Htarget Hents.
  - apply spec_ret; [exact Hwf |]. exists acc. split; [exact Htarget |].
    intros k. split; [| reflexivity].
    intros Hk. now apply elem_of_nil in Hk.
  - cbn [forEach].
    destruct (Hents k v (list_elem_of_here _ _)) as (t & Hmk & Ht).
    apply (spec_bind X X _ _ h σ
             (fun _ h2 σ2 =>
                exists v' : val,
                  h2 !! target = Some (Obj (<[k := v']> acc)) /\ R' σ2 t v'));
      [reflexivity | exact Hwf | |].
    { eapply (spec_bind ∅ X);
        [apply empty_subseteq | exact Hwf
         | exact (body_spec h σ t v (wf_weaken _ _ _ Hwf) Ht) |].
      intros v' h1 σ1 Hwf1 Hf1 Hσ1 Hv'. cbn beta.
      apply frame_empty in Hf1.
      apply (spec_setProp X target k v' acc);
        [exact Hwf1 | exact target_in
         | eapply lookup_weaken; eassumption |].
      exists v'. split; [apply lookup_insert_eq | exact Hv']. }
    intros [] h2 σ2 Hwf2 _ Hσ2 (v' & Hh2 & Hv').
    eapply spec_conseq.
    + apply (IH h2 σ2 (<[k := v']> acc)); [exact Hwf2 | exact Hh2 |].
      intros k0 v0 Hin.
      destruct (Hents k0 v0 (list_elem_of_further _ _ _ Hin)) as (t0 & ? & ?).
      exists t0. split; [assumption |]. now apply (R_mono σ).
    + intros _ h3 σ3 _ [Hσ3 _] _ (acc' & Hacc' & Hkeys).
      exists acc'. split; [exact Hacc' |].
      intros k0. destruct (Hkeys k0) as [Hin Hout]. split.
      * intros Hk0. cbn [fmap list_fmap fst] in Hk0.
        destruct (decide (k0 ∈ ents.*1)) as [Hk0'|Hk0']; [now apply Hin |].
        apply elem_of_cons in Hk0 as [->|Hk0]; [| contradiction].
        exists t, v'. split; [exact Hmk |].
        split; [| now apply (R'_mono σ2)].
        rewrite (Hout Hk0'). apply lookup_insert_eq.
      * intros Hk0. cbn [fmap list_fmap fst] in Hk0.
        apply not_elem_of_cons in Hk0 as [Hne Hk0].
        rewrite (Hout Hk0). now apply lookup_insert_ne.
Qed.

End Fill.

(** *** The static loot table *)

Lemma isArray_fmap {T U : Type} (σ : heap) (g : T -> U) (R : U -> val -> Prop)
    (ts : list T) (v : val) :
  Typed.isArray σ (fun t x => R (g t) x) ts v ->
  Typed.isArray σ R (map g ts) v.
Proof.
  intros (l & vs & -> & Hl & Hvs). exists l, vs.
  split; [reflexivity |]. split; [exact Hl |]. now apply Forall2_fmap_l.
Qed.

Section StaticLootSpecs.
Local Open Scope string_scope.
Context (f : string -> Q -> Q).

Lemma newItemDistribution_spec (h σ : heap) (d : Typed.ItemDistribution)
    (v : val) :
  wf ∅ h σ -> Typed.isItemDistribution σ d v ->
  spec ∅ (newItemDistribution f v) h σ
    (fun v' _ σ' =>
       Typed.isItemDistribution σ' (Typed.newItemDistribution f d) v').
Proof.
  intros Hwf (l & -> & Hl).
  pose proof (lookup_weaken _ _ _ _ Hl (proj1 Hwf)) as Hh.
  unfold newItemDistribution.
  apply spec_read with (VString (Typed.tpl d));
    [exact (getProp_Obj h l _ "tpl" Hh) |].
  apply spec_read with (Typed.tpl d); [reflexivity |].
  apply spec_read with (VNumber (Typed.relativeProbability d));
    [exact (getProp_Obj h l _ "relativeProbability" Hh) |].
  apply spec_read with (Typed.relativeProbability d); [reflexivity |].
  apply spec_alloc; [exact Hwf |]. intros l' Hl'.
  exists l'. split; [reflexivity |]. apply lookup_insert_eq.
Qed.

Lemma newContainer_spec (h σ : heap) (c : Typed.IStaticLootDetails) (v : val) :
  wf ∅ h σ -> Typed.isContainer σ c v ->
  spec ∅ (newContainer f v) h σ
    (fun v' _ σ' => Typed.isContainer σ' (Typed.newContainer f c) v').
Proof.
  intros Hwf (l & dists & -> & Hl & Hdists).
  pose proof (lookup_weaken _ _ _ _ Hl (proj1 Hwf)) as Hh.
  unfold newContainer.
  apply spec_read with dists; [exact (getProp_Obj h l _ "itemDistribution" Hh) |].
  eapply (spec_bind ∅ ∅); [reflexivity | exact Hwf | |].
  { refine (spec_arrayMap (newItemDistribution f)
              Typed.isItemDistribution
              (fun σ d v => Typed.isItemDistribution σ
                              (Typed.newItemDistribution f d) v)
              (fun _ => True) _ _ _ _ _ _ h σ Hwf Logic.I Hdists).
    - intros σ1 σ2 t x Hsub. now apply isItemDistribution_mono.
    - intros σ1 σ2 t x Hsub. now apply isItemDistribution_mono.
    - auto.
    - intros h0 σ0 t x Hwf0 _. now apply newItemDistribution_spec. }
  intros dists' h1 σ1 Hwf1 Hf1 Hσ1 Hdists'. cbn beta.
  apply frame_empty in Hf1.
  apply spec_read with (Typed.itemcountDistribution c).
  { exact (getProp_Obj h1 l _ "itemcountDistribution"
             (lookup_weaken _ _ _ _ Hh Hf1)). }
  apply spec_alloc; [exact Hwf1 |]. intros l' Hl'.
  exists l', dists'. split; [reflexivity |].
  split; [apply lookup_insert_eq |].
  apply isArray_fmap.
  eapply isArray_mono; [| | exact Hdists'].
  - apply insert_subseteq. eapply wf_fresh; eassumption.
  - intros t x. apply isItemDistribution_mono.
    apply insert_subseteq. eapply wf_fresh; eassumption.
Qed.

Lemma newStaticLoot_spec (h σ : heap) (loot : Typed.ILootBase) (v : val) :
  wf ∅ h σ -> Typed.isLootBase σ loot v ->
  spec ∅ (newStaticLoot f v) h σ
    (fun v' _ σ' =>
       Typed.isDict σ' (Typed.isContainer σ')
         (Typed.newContainer f <$> Typed.staticLoot loot) v').
Proof.
  intros Hwf (l & props & containers & -> & Hl & Hsl & _ & Hdict).
  destruct Hdict as (lc & cprops & -> & Hlc & Hcs).
  pose proof (lookup_weaken _ _ _ _ Hl (proj1 Hwf)) as Hh.
  pose proof (lookup_weaken _ _ _ _ Hlc (proj1 Hwf)) as Hhc.
  unfold newStaticLoot.
  apply spec_alloc_local; [exact Hwf |]. intros t Ht.
  pose proof (wf_local ∅ h σ t (Obj ∅) Hwf Ht) as Hwf'.
  assert (Hne : l <> t) by congruence.
  assert (Hnec : lc <> t) by congruence.
  apply spec_read with (VRef lc).
  { rewrite (getProp_Obj _ l props "staticLoot");
      [now rewrite Hsl | now rewrite lookup_insert_ne]. }
  apply spec_read with (map_to_list cprops).
  { apply entries_Obj. now rewrite lookup_insert_ne. }
  eapply (spec_bind (∅ ∪ {[t]}) (∅ ∪ {[t]})); [reflexivity | exact Hwf' | |].
  { apply (spec_fill (newContainer f) Typed.isContainer
             (fun σ c v => Typed.isContainer σ (Typed.newContainer f c) v)
             (Typed.staticLoot loot) t (∅ ∪ {[t]})) with (acc := ∅).
    - intros σ1 σ2 c x Hsub. now apply isContainer_mono.
    - intros σ1 σ2 c x Hsub. now apply isContainer_mono.
    - apply elem_of_union_r. now apply elem_of_singleton.
    - intros h0 σ0 c x Hwf0. now apply newContainer_spec.
    - exact Hwf'.
    - apply lookup_insert_eq.
    - intros k x Hkx. apply elem_of_map_to_list in Hkx.
      specialize (Hcs k). rewrite Hkx in Hcs.
      inversion Hcs as [c x' Hc Ec Ex|]; subst. eauto. }
  intros [] h1 σ1 Hwf1 _ Hσ1 (acc & Hacc & Hkeys). cbn beta.
  apply spec_ret; [exact Hwf1 |]. intros Hσ1t.
  exists (<[t := Obj acc]> σ1).
  split; [now apply insert_subseteq |].
  split; [apply insert_subseteq_l; [exact Hacc | apply Hwf1] |].
  split; [rewrite dom_insert_L, (comm_L (∪)); reflexivity |].
  exists t, acc. split; [reflexivity |]. split; [apply lookup_insert_eq |].
  intros k. rewrite lookup_fmap. destruct (Hkeys k) as [Hin Hout].
  destruct (decide (k ∈ (map_to_list cprops).*1)) as [Hk|Hk].
  - destruct (Hin Hk) as (c & x & Hc & Hx & Hrepr).
    rewrite Hc, Hx. constructor.
    eapply isContainer_mono; [| exact Hrepr]. now apply insert_subseteq.
  - rewrite (Hout Hk), lookup_empty.
    assert (Hnone : cprops !! k = None).
    { destruct (cprops !! k) as [x|] eqn:E; [| reflexivity].
      destruct Hk. apply list_elem_of_fmap. exists (k, x).
      split; [reflexivity | now apply elem_of_map_to_list]. }
    specialize (Hcs k). rewrite Hnone in Hcs.
    inversion Hcs. constructor.
Qed.

Lemma newLootTables_spec (h σ : heap) (loot : Typed.ILootBase) (v : val) :
  wf ∅ h σ -> Typed.isLootBase σ loot v ->
  spec ∅ (newLootTables f v) h σ
    (fun v' _ σ' => Typed.isLootBase σ' (Typed.newLootTables f loot) v').
Proof.
  intros Hwf Hloot. unfold newLootTables.
  eapply (spec_bind ∅ ∅);
    [reflexivity | exact Hwf | exact (newStaticLoot_spec h σ loot v Hwf Hloot) |].
  intros containers h1 σ1 Hwf1 Hf1 Hσ1 Hcontainers. cbn beta.
  apply frame_empty in Hf1.
  destruct Hloot as (l & props & cs & -> & Hl & Hsl & Hothers & _).
  pose proof (lookup_weaken _ _ _ _ Hl (proj1 Hwf)) as Hh.
  apply spec_read with props.
  { apply spread_Obj. eapply lookup_weaken; eassumption. }
  apply spec_alloc; [exact Hwf1 |]. intros l' Hl'.
  exists l', (<["staticLoot" := containers]> props), containers.
  split; [reflexivity |]. split; [apply lookup_insert_eq |].
  split; [apply lookup_insert_eq |].
  split; [rewrite delete_insert_eq; exact Hothers |].
  eapply isDict_mono; [| | exact Hcontainers].
  - apply insert_subseteq. eapply wf_fresh; eassumption.
  - intros c x. apply isContainer_mono.
    apply insert_subseteq. eapply wf_fresh; eassumption.
Qed.

End StaticLootSpecs.

(** *** The loose loot of the locations *)

Section LooseLootSpecs.
Local Open Scope string_scope.
Context (f : string -> Q -> Q).

(** The loop that fills [idToTpl]. *)
Lemma idToTpl_forEach (σ : heap) (t : loc) (items : list Typed.TemplateItem)
    (vs : list val) :
  Forall2 (Typed.isTemplateItem σ) items vs ->
  forall (h : heap) (idm : gmap string string),
    σ ⊆ h -> σ !! t = None -> h !! t = Some (Obj (VString <$> idm)) ->
    forEach (fun i =>
               let* id := getProp i "_id" in
               let* _id := asString id in
               let* _tpl := getProp i "_tpl" in
               setProp (VRef t) _id _tpl) vs h
    = Returns tt
        (<[t := Obj (VString <$>
                     foldl (fun m i => <[Typed._id i := Typed.templateTpl i]> m)
                           idm items)]> h).
Proof.
  induction 1 as [|i v items vs (l & props & -> & Hl & Hid & Htpl) _ IH];
    intros h idm Hsub Hσt Ht; cbn [forEach foldl].
  - unfold ret. f_equal. symmetry. now apply insert_id.
  - pose proof (lookup_weaken _ _ _ _ Hl Hsub) as Hh.
    unfold bind at 1. unfold bind at 1.
    rewrite (getProp_Some h l props "_id" _ Hh Hid).
    unfold bind at 1. cbn [asString ret]. unfold bind at 1.
    rewrite (getProp_Some h l props "_tpl" _ Hh Htpl).
    unfold setProp at 1. rewrite Ht.
    rewrite <- fmap_insert.
    rewrite (IH _ (<[Typed._id i := Typed.templateTpl i]> idm)).
    + now rewrite insert_insert_eq.
    + now apply insert_subseteq_r.
    + exact Hσt.
    + apply lookup_insert_eq.
Qed.

Lemma newLooseItemDistribution_spec (t : loc) (idm : gmap string string)
    (h σ : heap) (d : Typed.LooseItemDistribution) (v : val) :
  wf ∅ h σ -> h !! t = Some (Obj (VString <$> idm)) ->
  Typed.isLooseItemDistribution σ d v ->
  spec ∅ (newLooseItemDistribution f (VRef t) v) h σ
    (fun v' _ σ' =>
       Typed.isLooseItemDistribution σ'
         (Typed.newLooseItemDistribution f idm d) v').
Proof.
  intros Hwf Ht (l & ck & -> & Hl & Hck).
  pose proof (lookup_weaken _ _ _ _ Hl (proj1 Hwf)) as Hh.
  pose proof (lookup_weaken _ _ _ _ Hck (proj1 Hwf)) as Hhck.
  unfold newLooseItemDistribution, Typed.newLooseItemDistribution.
  apply spec_read with (VRef ck); [exact (getProp_Obj h l _ "composedKey" Hh) |].
  apply spec_read with (VString (Typed.key d));
    [exact (getProp_Obj h ck _ "key" Hhck) |].
  apply spec_read with (Typed.key d); [reflexivity |].
  destruct (idm !! Typed.key d) as [tpl|] eqn:Eidm.
  - apply spec_read with (VString tpl).
    { apply (getProp_Some h t _ (Typed.key d) _ Ht).
      now rewrite lookup_fmap, Eidm. }
    cbn [toBoolean].
    destruct (String.eqb tpl "") eqn:Etpl; cbn [negb].
    + apply spec_ret; [exact Hwf |]. now exists l, ck.
    + apply spec_read with tpl; [reflexivity |].
      apply spec_read with (VNumber (Typed.looseRelativeProbability d));
        [exact (getProp_Obj h l _ "relativeProbability" Hh) |].
      apply spec_read with (Typed.looseRelativeProbability d); [reflexivity |].
      eapply (spec_bind ∅ ∅); [reflexivity | exact Hwf | |].
      { apply spec_alloc with
          (Φ := fun v' h' σ' =>
                  exists l' : loc,
                    v' = VRef l'
                    /\ σ' !! l' = Some (Obj {[ "key" := VString (Typed.key d) ]}));
          [exact Hwf |].
        intros l' _. exists l'. split; [reflexivity | apply lookup_insert_eq]. }
      intros newKey h1 σ1 Hwf1 _ _ (l' & -> & Hl'). cbn beta.
      apply spec_alloc; [exact Hwf1 |]. intros l'' Hl''.
      exists l'', l'. split; [reflexivity |].
      split; [apply lookup_insert_eq |]. cbn [Typed.key].
      rewrite lookup_insert_ne; [exact Hl' |].
      intros ->. rewrite (wf_fresh _ _ _ _ Hwf1 Hl'') in Hl'. discriminate.
  - apply spec_read with VUndefined.
    { rewrite (getProp_Obj h t _ (Typed.key d) Ht).
      now rewrite lookup_fmap, Eidm. }
    cbn [toBoolean negb].
    apply spec_ret; [exact Hwf |]. now exists l, ck.
Qed.

Lemma newSpawnPoint_spec (h σ : heap) (sp : Typed.Spawnpoint) (v : val) :
  wf ∅ h σ -> Typed.isSpawnpoint σ sp v ->
  spec ∅ (newSpawnPoint f v) h σ
    (fun v' _ σ' => Typed.isSpawnpoint σ' (Typed.newSpawnPoint f sp) v').
Proof.
  intros Hwf (l & tl & props & tprops & items & dists
              & -> & Hl & Htl & Htprops & Hitems & Hitemsarr & Hd & Hdists & Ho).
  destruct Hitemsarr as (li & ivs & -> & Hli & Hivs).
  pose proof (proj1 Hwf) as Hsub.
  pose proof (lookup_weaken _ _ _ _ Hl Hsub) as Hh.
  pose proof (lookup_weaken _ _ _ _ Htprops Hsub) as Hht.
  pose proof (lookup_weaken _ _ _ _ Hli Hsub) as Hhi.
  unfold newSpawnPoint.
  apply spec_alloc_local; [exact Hwf |]. intros t Ht.
  pose proof (wf_local ∅ h σ t (Obj ∅) Hwf Ht) as Hwf'.
  pose proof (wf_fresh _ _ _ _ Hwf Ht) as Hσt.
  assert (Hne : forall (x : loc) (o : obj), h !! x = Some o ->
                  <[t := Obj ∅]> h !! x = Some o).
  { intros x o Hx. rewrite lookup_insert_ne; [exact Hx | congruence]. }
  apply spec_read with (VRef tl).
  { rewrite (getProp_Obj _ l props "template" (Hne _ _ Hh)). now rewrite Htl. }
  apply spec_read with (VRef li).
  { rewrite (getProp_Obj _ tl tprops "Items" (Hne _ _ Hht)). now rewrite Hitems. }
  apply spec_read with ivs; [exact (elems_Arr _ li ivs (Hne _ _ Hhi)) |].
  set (idm := Typed.idToTpl (Typed.templateItems sp)).
  set (h1 := <[t := Obj (VString <$> idm)]> h).
  assert (Hh1 : forall (x : loc) (o : obj), h !! x = Some o -> h1 !! x = Some o).
  { intros x o Hx. unfold h1. rewrite lookup_insert_ne; [exact Hx | congruence]. }
  assert (Hidm : h1 !! t = Some (Obj (VString <$> idm)))
    by apply lookup_insert_eq.
  apply (spec_bind (∅ ∪ {[t]}) (∅ ∪ {[t]}) _ _ _ _
           (fun _ h' σ' => h' = h1 /\ σ' = σ));
    [reflexivity | exact Hwf' | |].
  { apply spec_exact with (a := tt) (h' := h1).
    - rewrite (idToTpl_forEach σ t (Typed.templateItems sp) ivs Hivs
                 (<[t := Obj ∅]> h) ∅).
      + unfold h1, idm, Typed.idToTpl. now rewrite insert_insert_eq.
      + apply Hwf'.
      + exact Hσt.
      + rewrite fmap_empty. apply lookup_insert_eq.
    - split.
      + unfold h1. rewrite !dom_insert_L. reflexivity.
      + intros x o Hx Hn. unfold h1.
        rewrite lookup_insert_ne in Hx |- *; try exact Hx;
          intros ->; apply Hn; apply elem_of_union_r; now apply elem_of_singleton.
    - unfold h1. now apply insert_subseteq_r.
    - split; reflexivity. }
  intros [] h1' σ1 Hwf1 _ _ [-> ->]. cbn beta.
  apply spec_read with props; [exact (spread_Obj h1 l props (Hh1 _ _ Hh)) |].
  apply spec_read with dists.
  { rewrite (getProp_Obj h1 l props "itemDistribution" (Hh1 _ _ Hh)).
    now rewrite Hd. }
  eapply (spec_bind ∅ (∅ ∪ {[t]})); [apply empty_subseteq | exact Hwf1 | |].
  { refine (spec_arrayMap (newLooseItemDistribution f (VRef t))
              Typed.isLooseItemDistribution
              (fun σ d v => Typed.isLooseItemDistribution σ
                              (Typed.newLooseItemDistribution f idm d) v)
              (fun h => h !! t = Some (Obj (VString <$> idm)))
              _ _ _ _ _ _ h1 σ (wf_weaken _ _ _ Hwf1) Hidm Hdists).
    - intros σ1 σ2 d x Hs. now apply isLooseItemDistribution_mono.
    - intros σ1 σ2 d x Hs. now apply isLooseItemDistribution_mono.
    - intros ha hb Hab Ha. eapply lookup_weaken; eassumption.
    - intros h0 σ0 d x Hwf0 Hh0. now apply newLooseItemDistribution_spec. }
  intros dists' h2 σ2 Hwf2 Hf2 Hσ2 Hdists'. cbn beta.
  apply spec_alloc; [exact Hwf2 |]. intros l' Hl' _.
  pose proof (wf_fresh _ _ _ _ Hwf2 Hl') as Hσl'.
  assert (Hσ2' : σ2 ⊆ <[l' := Obj (<["itemDistribution" := dists']> props)]> σ2)
    by now apply insert_subseteq.
  exists (<[l' := Obj (<["itemDistribution" := dists']> props)]> σ2).
  split; [reflexivity |].
  split; [apply insert_mono; apply Hwf2 |].
  split; [apply union_subseteq_l |].
  assert (Hσσ2 : σ ⊆ <[l' := Obj (<["itemDistribution" := dists']> props)]> σ2)
    by now transitivity σ2.
  exists l', tl, (<["itemDistribution" := dists']> props), tprops, (VRef li), dists'.
  split; [reflexivity |]. split; [apply lookup_insert_eq |].
  split; [rewrite lookup_insert_ne; [exact Htl | discriminate] |].
  split; [exact (lookup_weaken _ _ _ _ Htprops Hσσ2) |].
  split; [exact Hitems |].
  split.
  { exists li, ivs. split; [reflexivity |].
    split; [exact (lookup_weaken _ _ _ _ Hli Hσσ2) |].
    eapply Forall2_impl; [exact Hivs |]. intros i x.
    now apply isTemplateItem_mono. }
  split; [apply lookup_insert_eq |].
  split.
  { cbn [Typed.looseItemDistribution Typed.newSpawnPoint Typed.templateItems].
    apply isArray_fmap. eapply isArray_mono; [exact Hσ2' | | exact Hdists'].
    intros d x. now apply isLooseItemDistribution_mono. }
  rewrite delete_insert_eq. exact Ho.
Qed.

End LooseLootSpecs.

Section LocationsSpecs.
Local Open Scope string_scope.
Context (f : string -> Q -> Q).

Lemma newLocation_spec (h σ : heap) (location : Typed.Location) (v : val) :
  wf ∅ h σ -> Typed.isLocation σ location v ->
  spec ∅ (newLocation f v) h σ
    (fun v' _ σ' => Typed.isLocation σ' (Typed.newLocation f location) v').
Proof.
  intros Hwf Hloc. pose proof (proj1 Hwf) as Hsub.
  destruct location as [ll others|v0]; cbn [Typed.isLocation] in Hloc.
  - destruct Hloc as (l & props & llv & -> & Hl & Hll & Hisll & Ho).
    destruct Hisll as (l2 & props2 & sps & -> & Hl2 & Hsps & Hspsarr & Ho2).
    pose proof (lookup_weaken _ _ _ _ Hl Hsub) as Hh.
    pose proof (lookup_weaken _ _ _ _ Hl2 Hsub) as Hh2.
    unfold newLocation. cbn [toBoolean negb].
    apply spec_read with true.
    { rewrite (hasProp_Some h l (Obj props) "looseLoot" Hh).
      rewrite Hll. reflexivity. }
    cbn [negb].
    apply spec_read with (VRef l2);
      [exact (getProp_Some h l props "looseLoot" _ Hh Hll) |].
    apply spec_read with props2; [exact (spread_Obj h l2 props2 Hh2) |].
    apply spec_alloc_local; [exact Hwf |]. intros t Ht.
    pose proof (wf_local ∅ h σ t (Obj props2) Hwf Ht) as Hwf'.
    pose proof (wf_fresh _ _ _ _ Hwf Ht) as Hσt.
    apply spec_read with sps.
    { apply (getProp_Some _ t props2 "spawnpoints" _ (lookup_insert_eq _ _ _) Hsps). }
    eapply (spec_bind ∅ (∅ ∪ {[t]})); [apply empty_subseteq | exact Hwf' | |].
    { refine (spec_arrayMap (newSpawnPoint f) Typed.isSpawnpoint
                (fun σ sp v => Typed.isSpawnpoint σ (Typed.newSpawnPoint f sp) v)
                (fun _ => True) _ _ _ _ _ _ _ σ (wf_weaken _ _ _ Hwf')
                Logic.I Hspsarr).
      - intros σ1 σ2 sp x Hs. now apply isSpawnpoint_mono.
      - intros σ1 σ2 sp x Hs. now apply isSpawnpoint_mono.
      - auto.
      - intros h0 σ0 sp x Hwf0 _. now apply newSpawnPoint_spec. }
    intros sps' h1 σ1 Hwf1 Hf1 Hσ1 Hsps'. cbn beta.
    apply frame_empty in Hf1.
    assert (Hh1t : h1 !! t = Some (Obj props2)).
    { eapply lookup_weaken; [apply lookup_insert_eq | exact Hf1]. }
    assert (Hh1l : h1 !! l = Some (Obj props)).
    { eapply lookup_weaken; [| exact Hf1].
      rewrite lookup_insert_ne; [exact Hh | congruence]. }
    set (props2' := <["spawnpoints" := sps']> props2).
    apply (spec_bind (∅ ∪ {[t]}) (∅ ∪ {[t]}) _ _ _ _
             (fun _ h' σ' => h' = <[t := Obj props2']> h1 /\ σ' = σ1));
      [reflexivity | exact Hwf1 | |].
    { apply (spec_setProp _ t "spawnpoints" sps' props2);
        [exact Hwf1 | | exact Hh1t | split; reflexivity].
      apply elem_of_union_r. now apply elem_of_singleton. }
    intros [] h2 σ2 Hwf2 _ _ [-> ->]. cbn beta.
    assert (Hne : l <> t) by congruence.
    apply spec_read with props.
    { apply spread_Obj. rewrite lookup_insert_ne; [exact Hh1l | congruence]. }
    apply spec_alloc; [exact Hwf2 |]. intros l' Hl' Hσ't.
    set (props' := <["looseLoot" := VRef t]> props) in *.
    assert (Hl't : l' <> t).
    { intros ->. rewrite lookup_insert_eq in Hl'. discriminate. }
    pose proof (wf_fresh _ _ _ _ Hwf2 Hl') as Hσ1l'.
    assert (Hσ1t : σ1 !! t = None).
    { rewrite lookup_insert_ne in Hσ't; [exact Hσ't | exact Hl't]. }
    set (σ2 := <[t := Obj props2']> (<[l' := Obj props']> σ1)).
    assert (Hσ12 : σ1 ⊆ σ2).
    { unfold σ2. apply insert_subseteq_r; [exact Hσ1t |].
      now apply insert_subseteq. }
    exists σ2. split; [unfold σ2; now apply insert_subseteq |].
    split.
    { unfold σ2. apply insert_subseteq_l.
      - rewrite lookup_insert_ne; [apply lookup_insert_eq | exact Hl't].
      - apply insert_mono. apply Hwf2. }
    split; [unfold σ2; rewrite (dom_insert_L _ t), (comm_L (∪)); reflexivity |].
    cbn [Typed.newLocation Typed.isLocation].
    exists l', props', (VRef t). split; [reflexivity |].
    split; [unfold σ2; rewrite lookup_insert_ne;
            [apply lookup_insert_eq | congruence] |].
    split; [apply lookup_insert_eq |].
    split; [| unfold props'; rewrite delete_insert_eq; exact Ho].
    exists t, props2', sps'. split; [reflexivity |].
    split; [apply lookup_insert_eq |].
    split; [apply lookup_insert_eq |].
    split; [| unfold props2'; rewrite delete_insert_eq; exact Ho2].
    cbn [Typed.spawnpoints Typed.newLooseLoot].
    apply isArray_fmap. eapply isArray_mono; [exact Hσ12 | | exact Hsps'].
    intros sp x. now apply isSpawnpoint_mono.
  - destruct Hloc as [-> Hv]. unfold newLocation.
    destruct Hv as [Hfalsy|(l & o & -> & Hl & Ho)].
    + rewrite Hfalsy. cbn [negb].
      apply spec_ret; [exact Hwf |]. split; [reflexivity | now left].
    + cbn [toBoolean negb].
      pose proof (lookup_weaken _ _ _ _ Hl Hsub) as Hh.
      apply spec_read with false.
      { rewrite (hasProp_Some h l o "looseLoot" Hh).
        destruct o as [props|]; [now rewrite Ho | reflexivity]. }
      cbn [negb].
      apply spec_ret; [exact Hwf |]. split; [reflexivity |].
      right. now exists l, o.
Qed.

Lemma newLocations_spec (h σ : heap) (locations : gmap string Typed.Location)
    (v : val) :
  wf ∅ h σ -> Typed.isLocations σ locations v ->
  spec ∅ (newLocations f v) h σ
    (fun v' _ σ' =>
       Typed.isLocations σ' (Typed.newLocations f locations) v').
Proof.
  intros Hwf (l & props & -> & Hl & Hlocs).
  pose proof (lookup_weaken _ _ _ _ Hl (proj1 Hwf)) as Hh.
  unfold newLocations.
  apply spec_alloc_local; [exact Hwf |]. intros t Ht.
  pose proof (wf_local ∅ h σ t (Obj ∅) Hwf Ht) as Hwf'.
  apply spec_read with (map_to_list props).
  { apply entries_Obj. rewrite lookup_insert_ne; [exact Hh | congruence]. }
  eapply (spec_bind (∅ ∪ {[t]}) (∅ ∪ {[t]})); [reflexivity | exact Hwf' | |].
  { apply (spec_fill (newLocation f) Typed.isLocation
             (fun σ loc v => Typed.isLocation σ (Typed.newLocation f loc) v)
             locations t (∅ ∪ {[t]})) with (acc := ∅).
    - intros σ1 σ2 c x Hsub. now apply isLocation_mono.
    - intros σ1 σ2 c x Hsub. now apply isLocation_mono.
    - apply elem_of_union_r. now apply elem_of_singleton.
    - intros h0 σ0 c x Hwf0. now apply newLocation_spec.
    - exact Hwf'.
    - apply lookup_insert_eq.
    - intros k x Hkx. apply elem_of_map_to_list in Hkx.
      specialize (Hlocs k). rewrite Hkx in Hlocs.
      inversion Hlocs as [c x' Hc Ec Ex|]; subst. eauto. }
  intros [] h1 σ1 Hwf1 _ Hσ1 (acc & Hacc & Hkeys). cbn beta.
  apply spec_ret; [exact Hwf1 |]. intros Hσ1t.
  exists (<[t := Obj acc]> σ1).
  split; [now apply insert_subseteq |].
  split; [apply insert_subseteq_l; [exact Hacc | apply Hwf1] |].
  split; [rewrite dom_insert_L, (comm_L (∪)); reflexivity |].
  exists t, acc. split; [reflexivity |]. split; [apply lookup_insert_eq |].
  intros k. unfold Typed.newLocations. rewrite lookup_fmap.
  destruct (Hkeys k) as [Hin Hout].
  destruct (decide (k ∈ (map_to_list props).*1)) as [Hk|Hk].
  - destruct (Hin Hk) as (c & x & Hc & Hx & Hrepr).
    rewrite Hc, Hx. constructor.
    eapply isLocation_mono; [| exact Hrepr]. now apply insert_subseteq.
  - rewrite (Hout Hk), lookup_empty.
    assert (Hnone : props !! k = None).
    { destruct (props !! k) as [x|] eqn:E; [| reflexivity].
      destruct Hk. apply list_elem_of_fmap. exists (k, x).
      split; [reflexivity | now apply elem_of_map_to_list]. }
    specialize (Hlocs k). rewrite Hnone in Hlocs.
    inversion Hlocs. constructor.
Qed.

End LocationsSpecs.

(** *** The shape of the new tables *)

Lemma shapeOfContainer_new (f : string -> Q -> Q) (c : Typed.IStaticLootDetails) :
  Typed.shapeOfContainer (Typed.newContainer f c) = Typed.shapeOfContainer c.
Proof.
  unfold Typed.shapeOfContainer, Typed.newContainer.
  cbn [Typed.itemDistribution Typed.itemcountDistribution].
  f_equal. rewrite map_map. reflexivity.
Qed.

Lemma shapeOfLoot_new (f : string -> Q -> Q) (loot : Typed.ILootBase) :
  Typed.shapeOfLoot (Typed.newLootTables f loot) = Typed.shapeOfLoot loot.
Proof.
  unfold Typed.shapeOfLoot, Typed.newLootTables.
  cbn [Typed.staticLoot Typed.lootOthers]. f_equal.
  rewrite <- map_fmap_compose. apply map_fmap_ext.
  intros k c _. apply shapeOfContainer_new.
Qed.

Lemma shapeOfSpawnpoint_new (f : string -> Q -> Q) (sp : Typed.Spawnpoint) :
  Typed.shapeOfSpawnpoint (Typed.newSpawnPoint f sp) = Typed.shapeOfSpawnpoint sp.
Proof.
  unfold Typed.shapeOfSpawnpoint, Typed.newSpawnPoint.
  cbn [Typed.templateItems Typed.looseItemDistribution Typed.spawnpointOthers].
  f_equal. rewrite map_map. apply map_ext. intros d.
  unfold Typed.newLooseItemDistribution.
  destruct (_ !! _) as [tpl|]; [| reflexivity].
  destruct (String.eqb tpl ""); reflexivity.
Qed.

Lemma shapeOfLocations_new (f : string -> Q -> Q)
    (locations : gmap string Typed.Location) :
  Typed.shapeOfLocations (Typed.newLocations f locations)
  = Typed.shapeOfLocations locations.
Proof.
  unfold Typed.shapeOfLocations, Typed.newLocations.
  rewrite <- map_fmap_compose. apply map_fmap_ext.
  intros k [ll others|v] _; cbn; [| reflexivity].
  f_equal. f_equal. rewrite map_map. apply map_ext.
  intros sp. apply shapeOfSpawnpoint_new.
Qed.

(** C8.  Let the heap hold a static loot table at [loot] and location
    tables at [locations].  Then the method returns two references, and
    in the heap it leaves
    - every object of the initial heap is where it was and as it was, so
      that the two inputs still hold the tables they held;
    - the references returned hold the tables computed by
      [Typed.newLootTables] and [Typed.newLocations];
    - these have the shape of the inputs: the same container keys with
      the same item-count distribution and the same item types in the
      same order, the same location keys, spawn points and entry keys in
      the same order, the same properties otherwise; only probabilities
      of item distributions differ. *)
Theorem getUpdatedLootTables_shape (cfg : Config) (profile : Profile)
    (questItemRequirements hideoutItemRequirements : list ItemRequirement)
    (h : heap) (loot locations : val)
    (lootTable : Typed.ILootBase) (locationTables : gmap string Typed.Location) :
  Typed.isLootBase h lootTable loot ->
  Typed.isLocations h locationTables locations ->
  let newProbability :=
    getNewLootProbability cfg
      (itemDropRateMultipliers cfg profile
         questItemRequirements hideoutItemRequirements) in
  exists (newLootTables newLocations : val) (h' : heap),
    getUpdatedLootTables cfg profile
      questItemRequirements hideoutItemRequirements loot locations h
    = Returns (newLootTables, newLocations) h'
    /\ h ⊆ h'
    /\ Typed.isLootBase h' lootTable loot
    /\ Typed.isLocations h' locationTables locations
    /\ Typed.isLootBase h' (Typed.newLootTables newProbability lootTable)
         newLootTables
    /\ Typed.isLocations h' (Typed.newLocations newProbability locationTables)
         newLocations
    /\ Typed.shapeOfLoot (Typed.newLootTables newProbability lootTable)
       = Typed.shapeOfLoot lootTable
    /\ Typed.shapeOfLocations (Typed.newLocations newProbability locationTables)
       = Typed.shapeOfLocations locationTables.
Proof.
  intros Hloot Hlocs newProbability.
  assert (Hwf : wf ∅ h h).
  { split; [reflexivity |]. split; [apply disjoint_empty_r | apply empty_subseteq]. }
  assert (Hspec :
    spec ∅ (getUpdatedLootTables cfg profile
              questItemRequirements hideoutItemRequirements loot locations) h h
      (fun r _ σ' =>
         Typed.isLootBase σ' (Typed.newLootTables newProbability lootTable) r.1
         /\ Typed.isLocations σ'
              (Typed.newLocations newProbability locationTables) r.2)).
  { unfold getUpdatedLootTables. fold newProbability.
    eapply (spec_bind ∅ ∅); [reflexivity | exact Hwf | |].
    { exact (newLootTables_spec newProbability h h lootTable loot Hwf Hloot). }
    intros newLoot h1 σ1 Hwf1 _ Hσ1 HnewLoot. cbn beta.
    eapply (spec_bind ∅ ∅); [reflexivity | exact Hwf1 | |].
    { apply (newLocations_spec newProbability h1 σ1 locationTables locations Hwf1).
      exact (isLocations_mono h σ1 Hσ1 _ _ Hlocs). }
    intros newLocs h2 σ2 Hwf2 _ Hσ2 HnewLocs. cbn beta.
    apply spec_ret; [exact Hwf2 |]. cbn [fst snd]. split; [| exact HnewLocs].
    exact (isLootBase_mono σ1 σ2 Hσ2 _ _ HnewLoot). }
  destruct Hspec as ([newLoot newLocs] & h' & σ' & Hrun & Hframe & _ & Hσ'
                     & HnewLoot & HnewLocs).
  apply frame_empty in Hframe. cbn [fst snd] in HnewLoot, HnewLocs.
  exists newLoot, newLocs, h'.
  split; [exact Hrun |]. split; [exact Hframe |].
  split; [exact (isLootBase_mono h h' Hframe _ _ Hloot) |].
  split; [exact (isLocations_mono h h' Hframe _ _ Hlocs) |].
  split; [exact (isLootBase_mono σ' h' Hσ' _ _ HnewLoot) |].
  split; [exact (isLocations_mono σ' h' Hσ' _ _ HnewLocs) |].
  split; [apply shapeOfLoot_new | apply shapeOfLocations_new].
Qed.

Section ExampleRun.
Local Open Scope string_scope.
Local Open Scope nat_scope.

(** The example heap holds the example tables. *)
Lemma example_isLootBase :
  Typed.isLootBase SampleTables.heap SampleTables.lootTable SampleTables.loot.
Proof.
  exists 0%nat, {[ "staticLoot" := VRef 1; "staticAmmo" := VNull ]}%string, (VRef 1).
  split; [reflexivity |]. split; [reflexivity |]. split; [reflexivity |].
  split; [reflexivity |].
  exists 1%nat, {[ "crate"%string := VRef 2 ]}.
  split; [reflexivity |]. split; [reflexivity |].
  intros k. cbn [SampleTables.lootTable Typed.staticLoot].
  destruct (decide (k = "crate"%string)) as [->|Hne].
  - rewrite !lookup_singleton_eq. constructor.
    exists 2%nat, (VRef 4). split; [reflexivity |]. split; [reflexivity |].
    exists 4%nat, [VRef 5]. split; [reflexivity |]. split; [reflexivity |].
    constructor; [| constructor].
    exists 5%nat. split; reflexivity.
  - rewrite !lookup_singleton_ne by congruence. constructor.
Defined.

Lemma example_isLocations :
  Typed.isLocations SampleTables.heap SampleTables.locationTables
    SampleTables.locations.
Proof.
  exists 6%nat, {[ "bigmap" := VRef 7; "base" := VRef 8 ]}%string.
  split; [reflexivity |]. split; [reflexivity |].
  intros k. unfold SampleTables.locationTables.
  destruct (decide (k = "bigmap"%string)) as [->|Hne].
  - rewrite !lookup_insert_eq. constructor.
    exists 7%nat, {[ "looseLoot"%string := VRef 9 ]}, (VRef 9).
    split; [reflexivity |]. split; [reflexivity |]. split; [reflexivity |].
    split; [| reflexivity].
    exists 9%nat, {[ "spawnpoints"%string := VRef 10 ]}, (VRef 10).
    split; [reflexivity |]. split; [reflexivity |]. split; [reflexivity |].
    split; [| reflexivity].
    exists 10%nat, [VRef 11]. split; [reflexivity |]. split; [reflexivity |].
    constructor; [| constructor].
    exists 11%nat, 12%nat,
      {[ "template" := VRef 12; "itemDistribution" := VRef 15 ]}%string,
      {[ "Items"%string := VRef 13 ]}, (VRef 13), (VRef 15).
    split; [reflexivity |]. split; [reflexivity |]. split; [reflexivity |].
    split; [reflexivity |]. split; [reflexivity |].
    split.
    { exists 13%nat, [VRef 14]. split; [reflexivity |]. split; [reflexivity |].
      constructor; [| constructor].
      exists 14%nat, {[ "_id" := VString "i1"; "_tpl" := VString "X" ]}%string.
      repeat (split; [reflexivity |]). reflexivity. }
    split; [reflexivity |].
    split; [| reflexivity].
    exists 15%nat, [VRef 16]. split; [reflexivity |]. split; [reflexivity |].
    constructor; [| constructor].
    exists 16%nat, 17%nat. repeat (split; [reflexivity |]). reflexivity.
  - rewrite !(lookup_insert_ne _ "bigmap"%string) by congruence.
    destruct (decide (k = "base"%string)) as [->|Hne'].
    + rewrite !lookup_singleton_eq. constructor. split; [reflexivity |].
      right. exists 8%nat, (Obj ∅). repeat (split; [reflexivity |]). reflexivity.
    + rewrite !lookup_singleton_ne by congruence. constructor.
Defined.

(** One hideout requirement for X, ten raids old, nothing held: the
    method runs on the example heap and keeps it. *)
Lemma getUpdatedLootTables_shape_witness :
  exists (newLootTables newLocations : val) (h' : heap),
    getUpdatedLootTables Examples.config Examples.emptyProfile
      [] [Hideout (Examples.requirement "X" 1 10)]
      SampleTables.loot SampleTables.locations SampleTables.heap
    = Returns (newLootTables, newLocations) h'
    /\ SampleTables.heap ⊆ h'
    /\ Typed.isLootBase h' SampleTables.lootTable SampleTables.loot
    /\ Typed.isLocations h' SampleTables.locationTables SampleTables.locations.
Proof.
  destruct (getUpdatedLootTables_shape Examples.config Examples.emptyProfile
              [] [Hideout (Examples.requirement "X" 1 10)]
              SampleTables.heap SampleTables.loot SampleTables.locations
              SampleTables.lootTable SampleTables.locationTables
              example_isLootBase example_isLocations)
    as (a & b & h' & Hrun & Hsub & Hloot & Hlocs & _).
  exists a, b, h'. auto.
Defined.

(** The same run, evaluated: in the new tables the entry of X in the
    container is 100 and the entry of the spawn point is 60, and the
    entries of the inputs are still 50 and 30. *)
Example getUpdatedLootTables_example :
  let read (loot locations : val) : M (val * val) :=
    let* staticLoot := getProp loot "staticLoot" in
    let* crate := getProp staticLoot "crate" in
    let* dists := getProp crate "itemDistribution" in
    let* ds := elems dists in
    let* p := getProp (default VUndefined (head ds)) "relativeProbability" in
    let* bigmap := getProp locations "bigmap" in
    let* looseLoot := getProp bigmap "looseLoot" in
    let* spawnpoints := getProp looseLoot "spawnpoints" in
    let* sps := elems spawnpoints in
    let* ldists := getProp (default VUndefined (head sps)) "itemDistribution" in
    let* lds := elems ldists in
    let* q := getProp (default VUndefined (head lds)) "relativeProbability" in
    ret (p, q) in
  result
    ((let* r := getUpdatedLootTables Examples.config Examples.emptyProfile
                  [] [Hideout (Examples.requirement "X" 1 10)]
                  SampleTables.loot SampleTables.locations in
      let* new := read r.1 r.2 in
      let* old := read SampleTables.loot SampleTables.locations in
      ret (new, old)) SampleTables.heap)
  = Some ((VNumber 100, VNumber 60), (VNumber 50, VNumber 30)).
Proof. vm_compute. reflexivity. Qed.

End ExampleRun.

(* ================================================================== *)
(** * Further properties *)
(* ================================================================== *)

(** ** The aggregated inventory *)

Lemma foldl_addItem_lookup (items : list Item) (x : string) :
  forall inv : gmap string ItemCount,
    foldl addItem inv items !! x =
      match inv !! x with
      | Some itemCount =>
          Some {| foundInRaid := foundInRaid itemCount + stockOf items x true;
                  notFoundInRaid :=
                    notFoundInRaid itemCount + stockOf items x false |}
      | None =>
          if bool_decide (Exists (fun item => _tpl item = x) items)
          then Some {| foundInRaid := stockOf items x true;
                       notFoundInRaid := stockOf items x false |}
          else None
      end.
Proof.
  induction items as [|item items IH]; intros inv; cbn [foldl stockOf].
  - destruct (inv !! x) as [[f n]|].
    + cbn. now rewrite !Z.add_0_r.
    + rewrite bool_decide_eq_false_2; [reflexivity |].
      intros H. now apply Exists_nil in H.
  - rewrite IH. clear IH.
    destruct (decide (_tpl item = x)) as [Hx|Hx].
    + assert (Hex : bool_decide (Exists (fun i => _tpl i = x) (item :: items)) = true).
      { apply bool_decide_eq_true_2. now apply Exists_cons_hd. }
      rewrite Hex. unfold addItem, stackFoundInRaid, stackCount. subst x.
      destruct (truthy (upd item ≫= SpawnedInSession)) eqn:Efir;
        rewrite lookup_insert_eq;
        destruct (inv !! _tpl item) as [[f n]|]; cbn [default foundInRaid
          notFoundInRaid from_option id];
        repeat case_decide; try tauto; try (exfalso; intuition congruence);
        f_equal; f_equal; lia.
    + assert (Hlook : addItem inv item !! x = inv !! x).
      { unfold addItem. destruct (truthy _); now rewrite lookup_insert_ne. }
      rewrite Hlook.
      rewrite !decide_False by (intros [? _]; contradiction).
      assert (Hex : bool_decide (Exists (fun i => _tpl i = x) (item :: items))
                    = bool_decide (Exists (fun i => _tpl i = x) items)).
      { apply bool_decide_ext. rewrite Exists_cons. tauto. }
      rewrite Hex. reflexivity.
Qed.

(** The entry of an item, from the empty dictionary. *)
Lemma itemsInInventory_entry (profile : Profile) (x : string) :
  itemsInInventory profile !! x =
    if bool_decide (Exists (fun item => _tpl item = x) (items profile))
    then Some {| foundInRaid := stockOf (items profile) x true;
                 notFoundInRaid := stockOf (items profile) x false |}
    else None.
Proof.
  unfold itemsInInventory. rewrite foldl_addItem_lookup.
  now rewrite lookup_empty.
Qed.

(** X1.  The aggregated inventory has an entry for an item exactly when
    a stack of the item is held, and the entry holds, for each flag, the
    sum of the counts of the stacks of the item with that flag. *)
Theorem itemsInInventory_lookup (profile : Profile) (x : string) :
  itemsInInventory profile !! x =
    if bool_decide (Exists (fun item => _tpl item = x) (items profile))
    then Some {| foundInRaid := stockOf (items profile) x true;
                 notFoundInRaid := stockOf (items profile) x false |}
    else None.
Proof. exact (itemsInInventory_entry profile x). Qed.

(** ** The inventory through the filter *)

Lemma checkIfHasEnoughAndRemove_range (itemCount : ItemCount) (amount : Z)
    (fir : bool) :
  countsInRange itemCount ->
  countsInRange (checkIfHasEnoughAndRemove itemCount amount fir).2.
Proof.
  intros [Hf Hn]. unfold checkIfHasEnoughAndRemove, countsInRange.
  destruct fir.
  - destruct (Z_le_gt_dec amount (foundInRaid itemCount)).
    + rewrite geb_true by lia. cbn. lia.
    + rewrite geb_false by lia. cbn. lia.
  - destruct (Z_le_gt_dec amount (notFoundInRaid itemCount)).
    + rewrite geb_true by lia. cbn. lia.
    + rewrite geb_false by lia.
      destruct (Z_le_gt_dec amount
                  (notFoundInRaid itemCount + foundInRaid itemCount)).
      * rewrite geb_true by lia. cbn. lia.
      * rewrite geb_false by lia. cbn. lia.
Qed.

(** What the callback leaves under each key. *)
Lemma filterStep_lookup (profile : Profile) (inv : gmap string ItemCount)
    (req : ItemRequirement) (x : string) :
  (filterStep profile inv req).2 !! x =
    if decide (x = itemId (base req))
    then (fun itemCount =>
            (checkIfHasEnoughAndRemove itemCount
               (amountNeeded profile req) (isFir req)).2) <$> inv !! x
    else inv !! x.
Proof.
  destruct (decide (x = itemId (base req))) as [->|Hne].
  - destruct (inv !! itemId (base req)) as [itemCount|] eqn:E.
    + rewrite (filterStep_Some _ _ _ _ E). cbn [snd]. now rewrite lookup_insert_eq.
    + rewrite (filterStep_None _ _ _ E). cbn [snd]. now rewrite E.
  - apply filterStep_other. congruence.
Qed.

Lemma filterRequirements_range (profile : Profile) (reqs : list ItemRequirement) :
  forall inv : gmap string ItemCount,
    map_Forall (fun _ => countsInRange) inv ->
    map_Forall (fun _ => countsInRange) (filterRequirements profile inv reqs).2.
Proof.
  induction reqs as [|req reqs IH]; intros inv Hinv; cbn [filterRequirements].
  - exact Hinv.
  - assert (Hstep : map_Forall (fun _ => countsInRange)
                      (filterStep profile inv req).2).
    { intros x ic Hx. rewrite filterStep_lookup in Hx.
      destruct (decide _); [| exact (Hinv x ic Hx)].
      destruct (inv !! x) as [ic0|] eqn:E; [| discriminate].
      cbn in Hx. injection Hx as <-.
      apply checkIfHasEnoughAndRemove_range. exact (Hinv x ic0 E). }
    destruct (filterStep profile inv req) as [keep inv'].
    specialize (IH inv' Hstep).
    destruct (filterRequirements profile inv' reqs) as [out inv''].
    exact IH.
Qed.

Lemma stockOf_nonneg (items : list Item) (x : string) (fir : bool) :
  Forall (fun item => 0 <= stackCount item) items -> 0 <= stockOf items x fir.
Proof.
  induction 1 as [|item items Hitem _ IH]; cbn [stockOf]; [lia |].
  destruct (decide _); lia.
Qed.

(** X2.  When no stack has a negative count, the counts of every item
    stay in range throughout the consumption, whatever the amounts
    needed: in the inventory left by the filter the found-in-raid count
    is not negative and the not-found-in-raid count is at least -1. *)
Theorem inventoryAfter_range (cfg : Config) (profile : Profile)
    (questItemRequirements hideoutItemRequirements : list ItemRequirement)
    (x : string) (itemCount : ItemCount) :
  Forall (fun item => 0 <= stackCount item) (items profile) ->
  inventoryAfter cfg profile questItemRequirements hideoutItemRequirements !! x
  = Some itemCount ->
  0 <= foundInRaid itemCount /\ -1 <= notFoundInRaid itemCount.
Proof.
  intros Hitems Hx.
  apply (filterRequirements_range profile
           (allItemRequirements cfg questItemRequirements hideoutItemRequirements)
           (itemsInInventory profile)) with (i := x); [| exact Hx].
  intros y ic Hy. rewrite itemsInInventory_entry in Hy.
  destruct (bool_decide _); [| discriminate]. injection Hy as <-.
  split; cbn; [| pose proof (stockOf_nonneg (items profile) y false Hitems); lia].
  now apply stockOf_nonneg.
Qed.

(** One unit of each kind and a hideout requirement for two: the
    counts left are 0 and -1. *)
Lemma inventoryAfter_range_witness :
  let profile :=
    {| items := [Examples.stack "X" 1 true; Examples.stack "X" 1 false];
       BackendCounters := ∅ |} in
  let itemCount := {| foundInRaid := 0; notFoundInRaid := -1 |} in
  Forall (fun item => 0 <= stackCount item) (items profile)
  /\ inventoryAfter Examples.config profile
       [] [Hideout (Examples.requirement "X" 2 1)] !! "X"%string
     = Some itemCount
  /\ 0 <= foundInRaid itemCount /\ -1 <= notFoundInRaid itemCount.
Proof.
  intros profile itemCount.
  assert (Hitems : Forall (fun item => 0 <= stackCount item) (items profile))
    by (repeat constructor; vm_compute; discriminate).
  assert (Hx : inventoryAfter Examples.config profile
                 [] [Hideout (Examples.requirement "X" 2 1)] !! "X"%string
               = Some itemCount)
    by (vm_compute; reflexivity).
  split; [exact Hitems |]. split; [exact Hx |].
  exact (inventoryAfter_range Examples.config profile
           [] [Hideout (Examples.requirement "X" 2 1)] "X" itemCount Hitems Hx).
Defined.

Lemma checkIfHasEnoughAndRemove_not_more (itemCount : ItemCount) (amount : Z)
    (fir : bool) :
  countsInRange itemCount -> 0 <= amount ->
  foundInRaid (checkIfHasEnoughAndRemove itemCount amount fir).2
  <= foundInRaid itemCount
  /\ notFoundInRaid (checkIfHasEnoughAndRemove itemCount amount fir).2
     <= notFoundInRaid itemCount.
Proof.
  intros [Hf Hn] Hamount. unfold checkIfHasEnoughAndRemove.
  destruct fir.
  - destruct (Z_le_gt_dec amount (foundInRaid itemCount)).
    + rewrite geb_true by lia. cbn. lia.
    + rewrite geb_false by lia. cbn. lia.
  - destruct (Z_le_gt_dec amount (notFoundInRaid itemCount)).
    + rewrite geb_true by lia. cbn. lia.
    + rewrite geb_false by lia.
      destruct (Z_le_gt_dec amount
                  (notFoundInRaid itemCount + foundInRaid itemCount)).
      * rewrite geb_true by lia. cbn. lia.
      * rewrite geb_false by lia. cbn. lia.
Qed.

Lemma filterStep_range (profile : Profile) (inv : gmap string ItemCount)
    (req : ItemRequirement) :
  map_Forall (fun _ => countsInRange) inv ->
  map_Forall (fun _ => countsInRange) (filterStep profile inv req).2.
Proof.
  intros Hinv x ic Hx. rewrite filterStep_lookup in Hx.
  destruct (decide _); [| exact (Hinv x ic Hx)].
  destruct (inv !! x) as [ic0|] eqn:E; [| discriminate].
  cbn in Hx. injection Hx as <-.
  apply checkIfHasEnoughAndRemove_range. exact (Hinv x ic0 E).
Qed.

Lemma filterRequirements_not_more (profile : Profile)
    (reqs : list ItemRequirement) :
  forall inv : gmap string ItemCount,
    map_Forall (fun _ => countsInRange) inv ->
    (forall r, r ∈ reqs -> 0 <= amountNeeded profile r) ->
    forall (x : string) (after : ItemCount),
      (filterRequirements profile inv reqs).2 !! x = Some after ->
      exists before : ItemCount,
        inv !! x = Some before
        /\ foundInRaid after <= foundInRaid before
        /\ notFoundInRaid after <= notFoundInRaid before.
Proof.
  induction reqs as [|req reqs IH]; intros inv Hinv Hpos x after;
    cbn [filterRequirements].
  - cbn. intros H. exists after. split; [exact H | lia].
  - pose proof (filterStep_range profile inv req Hinv) as Hrange.
    pose proof (filterStep_lookup profile inv req x) as Hlook.
    destruct (filterStep profile inv req) as [keep inv1]. cbn [snd] in *.
    specialize (IH inv1 Hrange
                  (fun r Hr => Hpos r (list_elem_of_further _ _ _ Hr)) x after).
    destruct (filterRequirements profile inv1 reqs) as [out inv2].
    cbn [snd] in *. intros Hafter.
    destruct (IH Hafter) as (mid & Hmid & Hf & Hn).
    rewrite Hlook in Hmid. destruct (decide _) as [->|_].
    + destruct (inv !! itemId (base req)) as [before|] eqn:E; [| discriminate].
      cbn in Hmid. injection Hmid as <-. exists before. split; [reflexivity |].
      pose proof (checkIfHasEnoughAndRemove_not_more before
                    (amountNeeded profile req) (isFir req)
                    (Hinv _ _ E) (Hpos req (list_elem_of_here _ _))).
      lia.
    + exists mid. auto.
Qed.

Lemma itemsInInventory_range (profile : Profile) :
  Forall (fun item => 0 <= stackCount item) (items profile) ->
  map_Forall (fun _ => countsInRange) (itemsInInventory profile).
Proof.
  intros Hitems y ic Hy. rewrite itemsInInventory_entry in Hy.
  destruct (bool_decide _); [| discriminate]. injection Hy as <-.
  pose proof (stockOf_nonneg (items profile) y true Hitems).
  pose proof (stockOf_nonneg (items profile) y false Hitems).
  split; cbn; lia.
Qed.

(** X3.  When no stack has a negative count and no amount needed is
    negative, consumption only takes: in the inventory left by the
    filter neither count of an item exceeds the count aggregated for
    it. *)
Theorem inventoryAfter_not_more (cfg : Config) (profile : Profile)
    (questItemRequirements hideoutItemRequirements : list ItemRequirement)
    (x : string) (after : ItemCount) :
  Forall (fun item => 0 <= stackCount item) (items profile) ->
  Forall (fun r => 0 <= amountNeeded profile r)
         (questItemRequirements ++ hideoutItemRequirements) ->
  inventoryAfter cfg profile questItemRequirements hideoutItemRequirements !! x
  = Some after ->
  exists before : ItemCount,
    itemsInInventory profile !! x = Some before
    /\ foundInRaid after <= foundInRaid before
    /\ notFoundInRaid after <= notFoundInRaid before.
Proof.
  intros Hitems Hpos Hafter.
  apply (filterRequirements_not_more profile
           (allItemRequirements cfg questItemRequirements hideoutItemRequirements));
    [now apply itemsInInventory_range | | exact Hafter].
  intros r Hr. rewrite Forall_forall in Hpos. apply Hpos.
  unfold allItemRequirements in Hr. now rewrite sort_Permutation in Hr.
Qed.

(** Three units held and a hideout requirement for two: one is left. *)
Lemma inventoryAfter_not_more_witness :
  exists before : ItemCount,
    itemsInInventory
      {| items := [Examples.stack "X" 3 false]; BackendCounters := ∅ |}
      !! "X"%string = Some before
    /\ foundInRaid {| foundInRaid := 0; notFoundInRaid := 1 |}
       <= foundInRaid before
    /\ notFoundInRaid {| foundInRaid := 0; notFoundInRaid := 1 |}
       <= notFoundInRaid before.
Proof.
  apply (inventoryAfter_not_more Examples.config
           {| items := [Examples.stack "X" 3 false]; BackendCounters := ∅ |}
           [] [Hideout (Examples.requirement "X" 2 1)] "X").
  - repeat constructor; vm_compute; discriminate.
  - repeat constructor; vm_compute; discriminate.
  - vm_compute. reflexivity.
Defined.

(** ** What the filter leaves alone *)

Lemma filterRequirements_sublist (profile : Profile)
    (reqs : list ItemRequirement) :
  forall inv : gmap string ItemCount,
    (filterRequirements profile inv reqs).1 `sublist_of` reqs.
Proof.
  induction reqs as [|req reqs IH]; intros inv; cbn [filterRequirements].
  - constructor.
  - destruct (filterStep profile inv req) as [keep inv1].
    specialize (IH inv1).
    destruct (filterRequirements profile inv1 reqs) as [out inv2].
    cbn [fst] in *. destruct keep; now constructor.
Qed.

Lemma filterRequirements_frame (profile : Profile)
    (reqs : list ItemRequirement) :
  forall inv : gmap string ItemCount,
    dom (filterRequirements profile inv reqs).2 = dom inv
    /\ forall x : string,
         (forall r, r ∈ reqs -> itemId (base r) <> x) ->
         (filterRequirements profile inv reqs).2 !! x = inv !! x.
Proof.
  induction reqs as [|req reqs IH]; intros inv; cbn [filterRequirements].
  - split; [reflexivity | auto].
  - pose proof (filterStep_lookup profile inv req) as Hlook.
    destruct (filterStep profile inv req) as [keep inv1]. cbn [snd] in Hlook.
    destruct (IH inv1) as [Hdom Hother].
    destruct (filterRequirements profile inv1 reqs) as [out inv2].
    cbn [snd] in *. split.
    + rewrite Hdom. apply set_eq. intros y. rewrite !elem_of_dom, Hlook.
      destruct (decide _); [| reflexivity]. now rewrite fmap_is_Some.
    + intros x Hx. rewrite Hother.
      * rewrite Hlook. rewrite decide_False; [reflexivity |].
        intros ->. now apply (Hx req (list_elem_of_here _ _)).
      * intros r Hr. apply Hx. now apply list_elem_of_further.
Qed.

(** X4.  The filter only drops requirements and only changes counts of
    items that have a requirement: the incomplete requirements are the
    sorted list with some members left out, in the same order; the
    inventory keeps its keys; and the entry of an item that no
    requirement names is as aggregated. *)
Theorem filter_frame (cfg : Config) (profile : Profile)
    (questItemRequirements hideoutItemRequirements : list ItemRequirement) :
  incompleteItemRequirements cfg profile
    questItemRequirements hideoutItemRequirements
  `sublist_of` allItemRequirements cfg
                 questItemRequirements hideoutItemRequirements
  /\ dom (inventoryAfter cfg profile
            questItemRequirements hideoutItemRequirements)
     = dom (itemsInInventory profile)
  /\ forall x : string,
       (forall r, r ∈ questItemRequirements ++ hideoutItemRequirements ->
                  itemId (base r) <> x) ->
       inventoryAfter cfg profile
         questItemRequirements hideoutItemRequirements !! x
       = itemsInInventory profile !! x.
Proof.
  split; [apply filterRequirements_sublist |].
  destruct (filterRequirements_frame profile
              (allItemRequirements cfg
                 questItemRequirements hideoutItemRequirements)
              (itemsInInventory profile)) as [Hdom Hother].
  split; [exact Hdom |].
  intros x Hx. apply Hother. intros r Hr. apply Hx.
  unfold allItemRequirements in Hr. now rewrite sort_Permutation in Hr.
Qed.

(** A requirement for Y leaves the three units of X as they are and is
    itself incomplete. *)
Lemma filter_frame_witness :
  inventoryAfter Examples.config
    {| items := [Examples.stack "X" 3 false]; BackendCounters := ∅ |}
    [] [Hideout (Examples.requirement "Y" 2 1)] !! "X"%string
  = itemsInInventory
      {| items := [Examples.stack "X" 3 false]; BackendCounters := ∅ |}
      !! "X"%string.
Proof.
  destruct (filter_frame Examples.config
              {| items := [Examples.stack "X" 3 false]; BackendCounters := ∅ |}
              [] [Hideout (Examples.requirement "Y" 2 1)]) as (_ & _ & H).
  apply H. intros r Hr.
  apply list_elem_of_singleton in Hr. subst r. vm_compute. discriminate.
Defined.

Lemma filterRequirements_nothing_held (profile : Profile)
    (reqs : list ItemRequirement) (inv : gmap string ItemCount) :
  (forall r, r ∈ reqs -> inv !! itemId (base r) = None) ->
  filterRequirements profile inv reqs = (reqs, inv).
Proof.
  induction reqs as [|req reqs IH]; intros Hnone; cbn [filterRequirements].
  - reflexivity.
  - rewrite (filterStep_None profile inv req (Hnone req (list_elem_of_here _ _))).
    rewrite IH; [reflexivity |].
    intros r Hr. apply Hnone. now apply list_elem_of_further.
Qed.

(** X5.  When the player holds no stack of any required item (in
    particular with an empty inventory), every requirement is
    incomplete: the incomplete requirements are the whole sorted list,
    and the inventory is left as aggregated. *)
Theorem nothing_held_all_incomplete (cfg : Config) (profile : Profile)
    (questItemRequirements hideoutItemRequirements : list ItemRequirement) :
  Forall (fun r => Forall (fun item => _tpl item <> itemId (base r))
                          (items profile))
         (questItemRequirements ++ hideoutItemRequirements) ->
  incompleteItemRequirements cfg profile
    questItemRequirements hideoutItemRequirements
  = allItemRequirements cfg questItemRequirements hideoutItemRequirements
  /\ inventoryAfter cfg profile questItemRequirements hideoutItemRequirements
     = itemsInInventory profile.
Proof.
  intros Hnone. unfold incompleteItemRequirements, inventoryAfter.
  rewrite filterRequirements_nothing_held; [split; reflexivity |].
  intros r Hr. unfold allItemRequirements in Hr.
  rewrite sort_Permutation in Hr. rewrite Forall_forall in Hnone.
  specialize (Hnone r Hr). rewrite itemsInInventory_entry.
  rewrite bool_decide_eq_false_2; [reflexivity |].
  rewrite Exists_exists. intros (item & Hitem & Heq).
  rewrite Forall_forall in Hnone. exact (Hnone item Hitem Heq).
Qed.

(** An empty inventory and two requirements: both are incomplete, the
    younger first. *)
Lemma nothing_held_all_incomplete_witness :
  incompleteItemRequirements Examples.config Examples.emptyProfile
    [QuestKey (Examples.requirement "K" 1 7)]
    [Hideout (Examples.requirement "X" 2 3)]
  = [Hideout (Examples.requirement "X" 2 3);
     QuestKey (Examples.requirement "K" 1 7)].
Proof.
  destruct (nothing_held_all_incomplete Examples.config Examples.emptyProfile
              [QuestKey (Examples.requirement "K" 1 7)]
              [Hideout (Examples.requirement "X" 2 3)]) as [H _].
  - repeat constructor.
  - rewrite H. vm_compute. reflexivity.
Defined.

(** ** The statistics, item by item *)

(** X6.  An item has statistics exactly when one of the incomplete
    requirements is for it. *)
Theorem itemDropRateMultipliers_is_Some (cfg : Config) (profile : Profile)
    (questItemRequirements hideoutItemRequirements : list ItemRequirement)
    (k : string) :
  is_Some (itemDropRateMultipliers cfg profile
             questItemRequirements hideoutItemRequirements !! k)
  <-> Exists (fun r => itemId (base r) = k)
             (incompleteItemRequirements cfg profile
                questItemRequirements hideoutItemRequirements).
Proof.
  unfold itemDropRateMultipliers, dropRateMultipliersOf.
  generalize (incompleteItemRequirements cfg profile
                questItemRequirements hideoutItemRequirements).
  intros reqs. rewrite Exists_exists. split.
  - assert (H : forall m : gmap string DropRateStats,
               is_Some (foldl (statsStep cfg) m reqs !! k) ->
               is_Some (m !! k) \/ exists r, r ∈ reqs /\ itemId (base r) = k).
    { induction reqs as [|req reqs IH]; intros m Hm; cbn [foldl] in Hm.
      - now left.
      - destruct (IH _ Hm) as [Hk|(r & Hr & Hk)].
        + unfold statsStep in Hk.
          destruct (decide (itemId (base req) = k)) as [Heq|Hne].
          * right. exists req. split; [apply list_elem_of_here | exact Heq].
          * left. now rewrite lookup_insert_ne in Hk.
        + right. exists r. split; [now apply list_elem_of_further | exact Hk]. }
    intros Hk. destruct (H ∅ Hk) as [Hempty|Hex]; [| exact Hex].
    rewrite lookup_empty in Hempty. now destruct Hempty.
  - intros Hex. apply foldl_statsStep_is_Some. now right.
Qed.

(** A hideout requirement for X with nothing held: X has statistics. *)
Lemma itemDropRateMultipliers_is_Some_witness :
  is_Some (itemDropRateMultipliers Examples.config Examples.emptyProfile
             [] [Hideout (Examples.requirement "X" 1 10)] !! "X"%string).
Proof.
  apply itemDropRateMultipliers_is_Some.
  apply Exists_exists. exists (Hideout (Examples.requirement "X" 1 10)).
  split; [| reflexivity]. vm_compute. left.
Defined.

(** X7.  The key flag of an item is that of the first requirement of
    the list that is for the item; the requirements after it do not
    change the flag. *)
Theorem isKey_is_first (cfg : Config) (reqs : list ItemRequirement) (k : string) :
  isKey <$> (dropRateMultipliersOf cfg reqs !! k)
  = isQuestKey <$> head (requirementsFor k reqs).
Proof.
  unfold dropRateMultipliersOf, requirementsFor.
  rewrite isKey_of_first_requirement. now rewrite lookup_empty.
Qed.

(** *** The two multipliers in closed form *)

Lemma multiplierOf_statsStep_time (cfg : Config)
    (m : gmap string DropRateStats) (req : ItemRequirement) (k : string) :
  multiplierOf timeBasedDropRateMultiplier (statsStep cfg m req) k =
    if decide (itemId (base req) = k)
    then Num.max (multiplierOf timeBasedDropRateMultiplier m k)
                 (Num.add (timeIncrease cfg req)
                          (if increasesStack cfg
                           then multiplierOf timeBasedDropRateMultiplier m k
                           else 1))
    else multiplierOf timeBasedDropRateMultiplier m k.
Proof.
  unfold multiplierOf, statsStep, timeIncrease.
  destruct (decide (itemId (base req) = k)) as [<-|Hne].
  - rewrite lookup_insert_eq. now destruct (m !! itemId (base req)).
  - now rewrite lookup_insert_ne.
Qed.

Lemma multiplierOf_statsStep_raid (cfg : Config)
    (m : gmap string DropRateStats) (req : ItemRequirement) (k : string) :
  multiplierOf raidBasedDropRateMultiplier (statsStep cfg m req) k =
    if decide (itemId (base req) = k)
    then Num.max (multiplierOf raidBasedDropRateMultiplier m k)
                 (Num.add (raidIncrease cfg req)
                          (if increasesStack cfg
                           then multiplierOf raidBasedDropRateMultiplier m k
                           else 1))
    else multiplierOf raidBasedDropRateMultiplier m k.
Proof.
  unfold multiplierOf, statsStep, raidIncrease.
  destruct (decide (itemId (base req) = k)) as [<-|Hne].
  - rewrite lookup_insert_eq. now destruct (m !! itemId (base req)).
  - now rewrite lookup_insert_ne.
Qed.

Lemma isDouble_comp (x y : Q) : (x == y)%Q -> Num.isDouble x -> Num.isDouble y.
Proof.
  unfold Num.isDouble. intros E H. rewrite <- (rnd_comp x y E).
  now rewrite H.
Qed.

(** An increase that is not positive leaves a double as it is, and a
    positive one is added to it. *)
Lemma Qmax_stacked (cur c : Q) :
  Num.isDouble cur ->
  (Qmax cur (Num.add c cur)
   == if Qle_bool c 0 then cur else Num.add c cur)%Q.
Proof.
  intros Hcur. unfold Num.isDouble in Hcur.
  destruct (Qle_bool c 0) eqn:E.
  - apply Qle_bool_iff in E. apply Q.max_l.
    rewrite <- Hcur at 2. unfold Num.add. apply rnd_mono. lra.
  - assert (Hc : (0 < c)%Q).
    { apply Qnot_le_lt. intros Hle. apply Qle_bool_iff in Hle. congruence. }
    apply Q.max_r. rewrite <- Hcur at 1. unfold Num.add. apply rnd_mono. lra.
Qed.

Lemma positiveSum_comp (increases : list Q) :
  forall start start' : Q,
    (start == start')%Q ->
    (positiveSum start increases == positiveSum start' increases)%Q.
Proof.
  unfold positiveSum.
  induction increases as [|c increases IH]; intros start start' E; cbn [foldl].
  - exact E.
  - apply IH. destruct (Qle_bool c 0); [exact E |].
    unfold Num.add. rewrite (rnd_comp (c + start) (c + start')); [reflexivity |].
    now rewrite E.
Qed.

Section ClosedForm.
Context (cfg : Config) (proj : DropRateStats -> Q) (inc : ItemRequirement -> Q).
Context (k : string).
Hypothesis step :
  forall (m : gmap string DropRateStats) (req : ItemRequirement),
    multiplierOf proj (statsStep cfg m req) k =
      if decide (itemId (base req) = k)
      then Num.max (multiplierOf proj m k)
                   (Num.add (inc req)
                            (if increasesStack cfg
                             then multiplierOf proj m k else 1))
      else multiplierOf proj m k.

Lemma foldl_stacking (reqs : list ItemRequirement) :
  increasesStack cfg = true ->
  forall m : gmap string DropRateStats,
    Num.isDouble (multiplierOf proj m k) ->
    (multiplierOf proj (foldl (statsStep cfg) m reqs) k
     == positiveSum (multiplierOf proj m k)
          (map inc (requirementsFor k reqs)))%Q.
Proof.
  intros Hstack. unfold requirementsFor.
  induction reqs as [|req reqs IH]; intros m Hm; cbn [foldl].
  - reflexivity.
  - rewrite filter_cons.
    pose proof (step m req) as Hstep. rewrite Hstack in Hstep.
    destruct (decide (itemId (base req) = k)); cbn [map].
    + pose proof (Qmax_stacked _ (inc req) Hm) as Hmax.
      unfold Num.max in Hstep. rewrite <- Hstep in Hmax.
      rewrite IH.
      * unfold positiveSum at 2. cbn [foldl].
        now apply positiveSum_comp.
      * destruct (Qle_bool (inc req) 0).
        -- exact (isDouble_comp _ _ (Qeq_sym _ _ Hmax) Hm).
        -- apply (isDouble_comp _ _ (Qeq_sym _ _ Hmax)). apply isDouble_rnd.
    + rewrite IH by now rewrite Hstep. now rewrite Hstep.
Qed.

Lemma foldl_not_stacking (reqs : list ItemRequirement) :
  increasesStack cfg = false ->
  forall m : gmap string DropRateStats,
    largestOf (multiplierOf proj (foldl (statsStep cfg) m reqs) k)
      (multiplierOf proj m k
       :: map (fun r => Num.add (inc r) 1) (requirementsFor k reqs)).
Proof.
  intros Hstack. unfold requirementsFor.
  induction reqs as [|req reqs IH]; intros m; cbn [foldl].
  - cbn. split; [repeat constructor; apply Qle_refl |].
    apply Exists_cons_hd. reflexivity.
  - destruct (IH (statsStep cfg m req)) as [Hall Hex]. clear IH.
    rewrite step, Hstack in Hall, Hex. rewrite filter_cons.
    apply Forall_cons in Hall as [Hhd Hall].
    destruct (decide (itemId (base req) = k)); cbn [map].
    + unfold Num.max in *. split.
      * constructor; [eapply Qle_trans; [apply Q.le_max_l | exact Hhd] |].
        constructor; [eapply Qle_trans; [apply Q.le_max_r | exact Hhd] |].
        exact Hall.
      * apply Exists_cons in Hex as [Hex|Hex].
        -- destruct (Q.max_spec (multiplierOf proj m k) (Num.add (inc req) 1))
             as [[_ Hmax]|[_ Hmax]]; rewrite Hmax in Hex.
           ++ apply Exists_cons_tl. now apply Exists_cons_hd.
           ++ now apply Exists_cons_hd.
        -- now do 2 apply Exists_cons_tl.
    + split; [now constructor |]. exact Hex.
Qed.

End ClosedForm.

(** X8.  Without stacking, each multiplier of an item is the largest of
    1 and, over the requirements of the list that are for the item, the
    increase of the requirement plus 1 (hours times the rate per hour,
    raids times the rate per raid; the product and the sum are those of
    doubles). *)
Theorem multipliers_not_stacking (cfg : Config) (reqs : list ItemRequirement)
    (k : string) (stats : DropRateStats) :
  increasesStack cfg = false ->
  dropRateMultipliersOf cfg reqs !! k = Some stats ->
  largestOf (timeBasedDropRateMultiplier stats)
    (1%Q :: map (fun r => Num.add (timeIncrease cfg r) 1)
              (requirementsFor k reqs))
  /\ largestOf (raidBasedDropRateMultiplier stats)
       (1%Q :: map (fun r => Num.add (raidIncrease cfg r) 1)
                 (requirementsFor k reqs)).
Proof.
  intros Hstack Hk. split.
  - pose proof (foldl_not_stacking cfg timeBasedDropRateMultiplier
                  (timeIncrease cfg) k
                  (fun m r => multiplierOf_statsStep_time cfg m r k)
                  reqs Hstack ∅) as H.
    unfold multiplierOf, dropRateMultipliersOf in *.
    now rewrite Hk, lookup_empty in H.
  - pose proof (foldl_not_stacking cfg raidBasedDropRateMultiplier
                  (raidIncrease cfg) k
                  (fun m r => multiplierOf_statsStep_raid cfg m r k)
                  reqs Hstack ∅) as H.
    unfold multiplierOf, dropRateMultipliersOf in *.
    now rewrite Hk, lookup_empty in H.
Qed.

(** Requirements 7 and 5 raids old for one item: the raid multiplier
    is the largest of 1, fl(fl(7 x 0.1) + 1) and 1.5, the double
    1.7000000000000002. *)
Lemma multipliers_not_stacking_witness :
  largestOf (1914029841632461 # 1125899906842624)
    (1%Q :: map (fun r => Num.add (raidIncrease Examples.config r) 1)
              (requirementsFor "X"
                 [Hideout (Examples.requirement "X" 1 7);
                  Hideout (Examples.requirement "X" 1 5)])).
Proof.
  destruct (multipliers_not_stacking Examples.config
              [Hideout (Examples.requirement "X" 1 7);
               Hideout (Examples.requirement "X" 1 5)] "X"
              {| timeBasedDropRateMultiplier := 1;
                 raidBasedDropRateMultiplier :=
                   1914029841632461 # 1125899906842624;
                 isKey := false |}) as [_ H].
  - reflexivity.
  - vm_compute. reflexivity.
  - exact H.
Defined.

(** X9.  With stacking, each multiplier of an item is 1 with the
    increases of the requirements of the list that are for the item
    added to it one after the other, in the order of the list; each sum
    is a double, and an increase that is not positive adds nothing. *)
Theorem multipliers_stacking (cfg : Config) (reqs : list ItemRequirement)
    (k : string) (stats : DropRateStats) :
  increasesStack cfg = true ->
  dropRateMultipliersOf cfg reqs !! k = Some stats ->
  (timeBasedDropRateMultiplier stats
   == positiveSum 1 (map (timeIncrease cfg) (requirementsFor k reqs)))%Q
  /\ (raidBasedDropRateMultiplier stats
      == positiveSum 1 (map (raidIncrease cfg) (requirementsFor k reqs)))%Q.
Proof.
  intros Hstack Hk. split.
  - pose proof (foldl_stacking cfg timeBasedDropRateMultiplier
                  (timeIncrease cfg) k
                  (fun m r => multiplierOf_statsStep_time cfg m r k)
                  reqs Hstack ∅) as H.
    unfold multiplierOf, dropRateMultipliersOf in *.
    rewrite Hk, lookup_empty in H. apply H. exact isDouble_one.
  - pose proof (foldl_stacking cfg raidBasedDropRateMultiplier
                  (raidIncrease cfg) k
                  (fun m r => multiplierOf_statsStep_raid cfg m r k)
                  reqs Hstack ∅) as H.
    unfold multiplierOf, dropRateMultipliersOf in *.
    rewrite Hk, lookup_empty in H. apply H. exact isDouble_one.
Qed.

(** The fifth documented scenario: two requirements for W, 20 and 5
    hours old, stacked: 1 + 1 + 0.25. *)
Lemma multipliers_stacking_witness :
  exists stats : DropRateStats,
    dropRateMultipliersOf MoreExamples.stackingConfig
      [Hideout (MoreExamples.aged "W" 1 20); Hideout (MoreExamples.aged "W" 1 5)]
      !! "W"%string = Some stats
    /\ (timeBasedDropRateMultiplier stats == 9 # 4)%Q
    /\ (timeBasedDropRateMultiplier stats
        == positiveSum 1
             (map (timeIncrease MoreExamples.stackingConfig)
                  (requirementsFor "W"
                     [Hideout (MoreExamples.aged "W" 1 20);
                      Hideout (MoreExamples.aged "W" 1 5)])))%Q.
Proof.
  eexists. split; [vm_compute; reflexivity |]. split; [reflexivity |].
  refine (proj1 (multipliers_stacking MoreExamples.stackingConfig
                   [Hideout (MoreExamples.aged "W" 1 20);
                    Hideout (MoreExamples.aged "W" 1 5)] "W" _ _ _)).
  - reflexivity.
  - vm_compute. reflexivity.
Defined.

(** ** Hours *)

Section Hours.
Local Open Scope Q_scope.

Lemma Qfloor_unique (y : Q) (K : Z) :
  inject_Z K <= y -> y < inject_Z (K + 1) -> Qfloor y = K.
Proof.
  intros H1 H2. apply Z.le_antisymm.
  - apply Z.lt_succ_r. rewrite Zlt_Qlt. rewrite <- Z.add_1_r.
    eapply Qle_lt_trans; [apply Qfloor_le | exact H2].
  - rewrite <- (Qfloor_Z K) at 1. now apply Qfloor_resp_le.
Qed.

Lemma rne_error (y : Q) :
  inject_Z (Num.rne y) - y <= 1 # 2 /\ y - inject_Z (Num.rne y) <= 1 # 2.
Proof.
  unfold Num.rne.
  pose proof (Qfloor_le y) as H1. pose proof (Qlt_floor y) as H2.
  rewrite inject_Z_plus in H2. change (inject_Z 1) with 1 in H2.
  destruct (Qcompare_spec (y - inject_Z (Qfloor y)) (1 # 2)) as [C|C|C];
    try destruct (Z.even (Qfloor y));
    rewrite ?inject_Z_plus; change (inject_Z 1) with 1;
    generalize dependent (inject_Z (Qfloor y)); intros z; intros; split; lra.
Qed.

(** The error of rounding a value of the normal range. *)
Lemma rndPos_error (q : Q) :
  Num.pow2 (-1022) <= q ->
  Num.rndPos q - q <= q * Num.pow2 (-53) /\ q - Num.rndPos q <= q * Num.pow2 (-53).
Proof.
  intros Hq. pose proof (pow2_pos (-1022)) as Hp.
  assert (Hq0 : 0 < q) by lra.
  destruct (ilog2_spec q Hq0) as [Hk1 Hk2].
  assert (Hk : (-1022 <= Num.ilog2 q)%Z) by (apply ilog2_ge; assumption).
  assert (Hu : Num.ulp q = (Num.ilog2 q - 52)%Z) by (unfold Num.ulp; lia).
  rewrite rndPos_value.
  set (e := Num.ulp q) in *.
  pose proof (pow2_pos e) as Hpe.
  destruct (rne_error (q / Num.pow2 e)) as [E1 E2].
  set (m := inject_Z (Num.rne (q / Num.pow2 e))) in *.
  assert (Hhalf : (1 # 2) * Num.pow2 e <= q * Num.pow2 (-53)).
  { assert (E : Num.pow2 e == Num.pow2 (Num.ilog2 q) * Num.pow2 (-52)).
    { rewrite <- pow2_add. now rewrite Hu. }
    assert (E' : Num.pow2 (-53) == (1 # 2) * Num.pow2 (-52)) by reflexivity.
    rewrite E, E'. pose proof (pow2_pos (-52)) as H52.
    clear E E' Hk2 E1 E2.
    set (a := Num.pow2 (Num.ilog2 q)) in *. set (b := Num.pow2 (-52)) in *.
    clearbody a b. nra. }
  assert (Eq : q == q / Num.pow2 e * Num.pow2 e).
  { field. apply pow2_nz. }
  clear Hk1 Hk2 Hq Hp.
  set (y := q / Num.pow2 e) in *. set (p := Num.pow2 e) in *.
  set (u := Num.pow2 (-53)) in *. clearbody m y p u.
  split; nra.
Qed.

Lemma rnd_error_pos (q : Q) :
  Num.pow2 (-1022) <= q ->
  - (q * (1 # 9007199254740992)) <= Num.rnd q - q <= q * (1 # 9007199254740992).
Proof.
  intros Hq. pose proof (pow2_pos (-1022)) as Hp.
  rewrite rnd_pos by lra.
  destruct (rndPos_error q Hq) as [H1 H2].
  change (Num.pow2 (-53)) with (1 # 9007199254740992) in H1, H2.
  split; lra.
Qed.

Lemma rnd_error_neg (q : Q) :
  q <= - Num.pow2 (-1022) ->
  q * (1 # 9007199254740992) <= Num.rnd q - q <= - (q * (1 # 9007199254740992)).
Proof.
  intros Hq. pose proof (pow2_pos (-1022)) as Hp.
  rewrite rnd_neg by lra.
  destruct (rndPos_error (- q)) as [H1 H2]; [lra |].
  change (Num.pow2 (-53)) with (1 # 9007199254740992) in H1, H2.
  split; lra.
Qed.

Lemma pow2_tiny : Num.pow2 (-1022) <= 1 # 8192.
Proof.
  apply Qle_trans with (Num.pow2 (-13)); [apply pow2_le; lia |].
  vm_compute. discriminate.
Qed.

(** A half hour is divided without error. *)
Lemma div_half_hour (K : Z) :
  (Z.abs (60 * K - 30) <= 2 ^ 53)%Z ->
  Num.div (Num.div (inject_Z (3600 * K - 1800)) 60) 60 == inject_Z K - (1 # 2).
Proof.
  intros HK.
  assert (E1 : inject_Z (3600 * K - 1800) / 60 == inject_Z (60 * K - 30)).
  { replace (3600 * K - 1800)%Z with (60 * (60 * K - 30))%Z by lia.
    rewrite inject_Z_mult. change (inject_Z 60) with 60. field. }
  assert (Ea : Num.div (inject_Z (3600 * K - 1800)) 60 == inject_Z (60 * K - 30)).
  { unfold Num.div. rewrite (rnd_comp _ _ E1). now apply rnd_Z. }
  assert (E2 : Num.div (inject_Z (3600 * K - 1800)) 60 / 60
               == inject_Z (2 * K - 1) * Num.pow2 (-1)).
  { rewrite Ea. change (Num.pow2 (-1)) with (1 # 2).
    replace (60 * K - 30)%Z with (30 * (2 * K - 1))%Z by lia.
    rewrite inject_Z_mult. change (inject_Z 30) with 30. field. }
  unfold Num.div at 1. rewrite (rnd_comp _ _ E2).
  rewrite rnd_exact by lia. change (Num.pow2 (-1)) with (1 # 2).
  unfold Z.sub; rewrite inject_Z_plus, inject_Z_opp, inject_Z_mult.
  change (inject_Z 2) with 2. change (inject_Z 1) with 1. ring.
Qed.

(** The two rounded quotients are within 1/7200 of the hours. *)
Lemma div_hours_error (s : Z) :
  (Z.abs s <= 2 ^ 50)%Z ->
  - (1 # 7200) <= Num.div (Num.div (inject_Z s) 60) 60 - inject_Z s / 3600 <= 1 # 7200.
Proof.
  intros Hs.
  assert (HS50 : - (1125899906842624 # 1) <= inject_Z s
                 /\ inject_Z s <= 1125899906842624 # 1).
  { split.
    - change (- (1125899906842624 # 1)) with (inject_Z (- 2 ^ 50)).
      rewrite <- Zle_Qle. lia.
    - change (1125899906842624 # 1) with (inject_Z (2 ^ 50)).
      rewrite <- Zle_Qle. lia. }
  pose proof pow2_tiny as Htiny.
  unfold Num.div, Qdiv.
  change (/ 60) with (1 # 60). change (/ 3600) with (1 # 3600).
  destruct (Z.lt_trichotomy s 0) as [Hneg|[->|Hpos]].
  - assert (Hs1 : inject_Z s <= -1).
    { change (-1) with (inject_Z (-1)). rewrite <- Zle_Qle. lia. }
    set (S := inject_Z s) in *. clearbody S.
    destruct (rnd_error_neg (S * (1 # 60))) as [A1 A2]; [lra |].
    set (a := Num.rnd (S * (1 # 60))) in *. clearbody a.
    destruct (rnd_error_neg (a * (1 # 60))) as [B1 B2]; [lra |].
    set (b := Num.rnd (a * (1 # 60))) in *. clearbody b. split; lra.
  - vm_compute. split; discriminate.
  - assert (Hs1 : 1 <= inject_Z s).
    { change 1 with (inject_Z 1). rewrite <- Zle_Qle. lia. }
    set (S := inject_Z s) in *. clearbody S.
    destruct (rnd_error_pos (S * (1 # 60))) as [A1 A2]; [lra |].
    set (a := Num.rnd (S * (1 # 60))) in *. clearbody a.
    destruct (rnd_error_pos (a * (1 # 60))) as [B1 B2]; [lra |].
    set (b := Num.rnd (a * (1 # 60))) in *. clearbody b. split; lra.
Qed.

(** X22.  The hours the program computes.  For whole seconds up to
    2^50 the two divisions of doubles and [Math.round] give the hours of
    [hoursSinceStarted], in which the quotients are exact. *)
Theorem hoursSinceStarted_doubles (req : ItemRequirement) :
  (Z.abs (secondsSinceStarted (base req)) <= 2 ^ 50)%Z ->
  Num.round (Num.div (Num.div (inject_Z (secondsSinceStarted (base req))) 60) 60)
  = hoursSinceStarted req.
Proof.
  intros Hs. set (s := secondsSinceStarted (base req)) in *.
  set (K := ((s + 1800) / 3600)%Z).
  assert (HK : hoursSinceStarted req = K).
  { unfold hoursSinceStarted, Num.round, K. fold s. rewrite Zdiv_Qdiv.
    apply Qfloor_comp. rewrite inject_Z_plus. field. }
  rewrite HK.
  assert (Hdm : (s + 1800 = 3600 * K + (s + 1800) mod 3600)%Z)
    by (apply Z.div_mod; lia).
  assert (Hr : (0 <= (s + 1800) mod 3600 < 3600)%Z)
    by (apply Z.mod_pos_bound; lia).
  set (r := ((s + 1800) mod 3600)%Z) in *.
  unfold Num.round.
  destruct (Z.eq_dec r 0%Z) as [Hr0|Hr0].
  - assert (Es : s = (3600 * K - 1800)%Z) by lia.
    rewrite Es, div_half_hour by lia.
    transitivity (Qfloor (inject_Z K)); [apply Qfloor_comp; ring | apply Qfloor_Z].
  - pose proof (div_hours_error s Hs) as [B1 B2].
    assert (HS : inject_Z s == 3600 * inject_Z K + inject_Z r - 1800).
    { assert (Hz : s = (3600 * K + r - 1800)%Z) by lia. rewrite Hz at 1.
      unfold Z.sub; rewrite !inject_Z_plus, inject_Z_mult; reflexivity. }
    assert (Hr1 : 1 <= inject_Z r /\ inject_Z r <= 3599).
    { split; [change 1 with (inject_Z 1) | change 3599 with (inject_Z 3599)];
        rewrite <- Zle_Qle; lia. }
    unfold Qdiv in B1, B2. change (/ 3600) with (1 # 3600) in B1, B2.
    set (b := Num.div (Num.div (inject_Z s) 60) 60) in *.
    apply Qfloor_unique; rewrite ?inject_Z_plus; change (inject_Z 1) with 1;
      set (S := inject_Z s) in *; set (k := inject_Z K) in *;
      set (rr := inject_Z r) in *; clearbody b S k rr; lra.
Qed.

(** An hour and a half and one second. *)
Lemma hoursSinceStarted_doubles_witness :
  let req := Hideout {| itemId := "X"; amountRequired := 1;
                        secondsSinceStarted := 5401;
                        raidsSinceStarted := 0 |} in
  Num.round (Num.div (Num.div (inject_Z 5401) 60) 60) = hoursSinceStarted req
  /\ hoursSinceStarted req = 2%Z.
Proof.
  intros req. split; [| reflexivity].
  apply (hoursSinceStarted_doubles req). cbn. lia.
Defined.

End Hours.

(** X10.  The hours of a requirement are its seconds rounded to the
    nearest hour, a half hour going up: the quotient of the seconds plus
    1800 by 3600. *)
Theorem hoursSinceStarted_div (req : ItemRequirement) :
  hoursSinceStarted req = (secondsSinceStarted (base req) + 1800) `div` 3600.
Proof.
  unfold hoursSinceStarted, Num.round. rewrite Zdiv_Qdiv.
  apply Qfloor_comp. rewrite inject_Z_plus. field.
Qed.

(** ** The new probability, compared with the old *)

Lemma round_inject_Z (n : Z) : Num.round (inject_Z n) = n.
Proof.
  unfold Num.round.
  apply Z.le_antisymm.
  - apply Z.lt_succ_r. rewrite Zlt_Qlt.
    eapply Qle_lt_trans; [apply Qfloor_le |].
    rewrite <- Z.add_1_r, inject_Z_plus. change (inject_Z 1) with 1%Q. lra.
  - rewrite <- (Qfloor_Z n) at 1. apply Qfloor_resp_le. lra.
Qed.

(** A factor of 1 and a key factor of at least 1 do not lower an
    integer. *)
Lemma scaledBy_one (cfg : Config) (key : bool) (n : Z) :
  0 <= n -> Num.isDouble (inject_Z n) ->
  (1 <= keysAdditionalMultiplier cfg)%Q ->
  (inject_Z n <= scaledBy cfg key 1 (inject_Z n))%Q.
Proof.
  intros Hn Hd Hkey. unfold scaledBy. rewrite <- Zle_Qle.
  rewrite <- (round_inject_Z n) at 1. apply round_mono.
  assert (E : (Num.mul (inject_Z n) 1 == inject_Z n)%Q).
  { apply mul_one. exact Hd. }
  destruct key; [| rewrite E; apply Qle_refl].
  assert (H0 : (0 <= Num.mul (inject_Z n) 1)%Q).
  { rewrite E. change 0%Q with (inject_Z 0). rewrite <- Zle_Qle. lia. }
  pose proof (mul_mono_r _ 1 (keysAdditionalMultiplier cfg) H0 Hkey) as H.
  pose proof (mul_one (Num.mul (inject_Z n) 1)
                (isDouble_rnd (inject_Z n * 1))) as E1.
  eapply Qle_trans; [| exact H].
  eapply Qle_trans; [| apply Qle_lteq; right; apply Qeq_sym; exact E1].
  apply Qle_lteq. right. apply Qeq_sym. exact E.
Qed.

(** X11.  With a ceiling and a key factor of at least 1, the method
    never lowers a weight that is a non-negative integer (an integer
    that a double holds, as every integer up to 2^53 is): the new
    probability of an entry is at least the old one, whether the item
    has statistics or not. *)
Theorem getNewLootProbability_not_less (cfg : Config) (profile : Profile)
    (questItemRequirements hideoutItemRequirements : list ItemRequirement)
    (tpl : string) (n : Z) :
  (1 <= maxDropRateMultiplier cfg)%Q ->
  (1 <= keysAdditionalMultiplier cfg)%Q ->
  0 <= n ->
  Num.isDouble (inject_Z n) ->
  (inject_Z n
   <= getNewLootProbability cfg
        (itemDropRateMultipliers cfg profile
           questItemRequirements hideoutItemRequirements)
        tpl (inject_Z n))%Q.
Proof.
  intros Hmax Hkey Hn Hd.
  destruct (itemDropRateMultipliers cfg profile
              questItemRequirements hideoutItemRequirements !! tpl)
    as [stats|] eqn:E.
  - rewrite (getNewLootProbability_Some cfg _ tpl _ stats E).
    eapply Qle_trans; [exact (scaledBy_one cfg (isKey stats) n Hn Hd Hkey) |].
    apply scaledBy_mono_factor.
    + change 0%Q with (inject_Z 0). rewrite <- Zle_Qle. lia.
    + lra.
    + apply clampedMultiplier_ge; [| apply Qle_refl | exact Hmax].
      exact (dropRateMultipliersOf_at_least_one _ _ _ _ E).
  - unfold getNewLootProbability. rewrite E. apply Qle_refl.
Qed.

(** The first documented scenario: 50 becomes 100, which is not less. *)
Lemma getNewLootProbability_not_less_witness :
  (inject_Z 50
   <= getNewLootProbability Examples.config
        (itemDropRateMultipliers Examples.config Examples.emptyProfile
           [] [Hideout (Examples.requirement "X" 1 10)])
        "X" (inject_Z 50))%Q.
Proof.
  apply (getNewLootProbability_not_less Examples.config Examples.emptyProfile
           [] [Hideout (Examples.requirement "X" 1 10)] "X" 50).
  - vm_compute. discriminate.
  - vm_compute. discriminate.
  - lia.
  - vm_compute. reflexivity.
Defined.

(** X12.  With a ceiling and a key factor that are not negative, the
    entries of one item keep their order: of two probabilities of the
    same item, the smaller does not get the larger new probability. *)
Theorem getNewLootProbability_monotone (cfg : Config) (profile : Profile)
    (questItemRequirements hideoutItemRequirements : list ItemRequirement)
    (tpl : string) (p p' : Q) :
  (0 <= maxDropRateMultiplier cfg)%Q ->
  (0 <= keysAdditionalMultiplier cfg)%Q ->
  (p <= p')%Q ->
  (getNewLootProbability cfg
     (itemDropRateMultipliers cfg profile
        questItemRequirements hideoutItemRequirements) tpl p
   <= getNewLootProbability cfg
        (itemDropRateMultipliers cfg profile
           questItemRequirements hideoutItemRequirements) tpl p')%Q.
Proof.
  intros Hmax Hkey Hp.
  destruct (itemDropRateMultipliers cfg profile
              questItemRequirements hideoutItemRequirements !! tpl)
    as [stats|] eqn:E.
  - rewrite !(getNewLootProbability_Some cfg _ tpl _ stats E).
    apply scaledBy_mono; [| exact Hkey | exact Hp].
    apply clampedMultiplier_ge; [| lra | exact Hmax].
    exact (dropRateMultipliersOf_at_least_one _ _ _ _ E).
  - unfold getNewLootProbability. now rewrite E.
Qed.

(** Entries of 30 and 50 for the item of the first scenario become 60
    and 100. *)
Lemma getNewLootProbability_monotone_witness :
  (getNewLootProbability Examples.config
     (itemDropRateMultipliers Examples.config Examples.emptyProfile
        [] [Hideout (Examples.requirement "X" 1 10)]) "X" 30
   <= getNewLootProbability Examples.config
        (itemDropRateMultipliers Examples.config Examples.emptyProfile
           [] [Hideout (Examples.requirement "X" 1 10)]) "X" 50)%Q.
Proof.
  apply (getNewLootProbability_monotone Examples.config Examples.emptyProfile
           [] [Hideout (Examples.requirement "X" 1 10)] "X" 30 50);
    vm_compute; discriminate.
Defined.

(** ** The found-in-raid tier is settled on its own *)

Section InsertApp.
Context {A : Type} (cmp : A -> A -> Z).

Lemma insert_app_l (x : A) (l1 l2 : list A) :
  Forall (fun y => cmp x y <= 0) l2 ->
  Array.insert cmp x (l1 ++ l2) = Array.insert cmp x l1 ++ l2.
Proof.
  intros Hl2. induction l1 as [|a l1 IH]; cbn [app Array.insert].
  - destruct Hl2 as [|y l2 Hy _]; cbn [Array.insert]; [reflexivity |].
    destruct (Z.leb_spec (cmp x y) 0); [reflexivity | lia].
  - destruct (cmp x a <=? 0); [reflexivity |]. cbn [app]. now rewrite IH.
Qed.

Lemma insert_app_r (x : A) (l1 l2 : list A) :
  Forall (fun y => 0 < cmp x y) l1 ->
  Array.insert cmp x (l1 ++ l2) = l1 ++ Array.insert cmp x l2.
Proof.
  induction 1 as [|a l1 Ha _ IH]; cbn [app Array.insert]; [reflexivity |].
  destruct (Z.leb_spec (cmp x a) 0); [lia |]. now rewrite IH.
Qed.

End InsertApp.

Lemma filter_all {A : Type} (P : A -> Prop) `{!forall x, Decision (P x)}
    (l : list A) :
  Forall P l -> filter P l = l.
Proof.
  induction 1 as [|x l Hx _ IH]; [reflexivity |].
  rewrite filter_cons, decide_True by exact Hx. now rewrite IH.
Qed.

Lemma filter_none {A : Type} (P : A -> Prop) `{!forall x, Decision (P x)}
    (l : list A) :
  Forall (fun x => ~ P x) l -> filter P l = [].
Proof.
  induction 1 as [|x l Hx _ IH]; [reflexivity |].
  rewrite filter_cons, decide_False by exact Hx. exact IH.
Qed.

(** The sorted list is the sorted found-in-raid requirements followed
    by the sorted others. *)
Lemma sort_by_tier (cfg : Config) (reqs : list ItemRequirement) :
  Array.sort (compareRequirements cfg) reqs
  = Array.sort (compareRequirements cfg) (filter (fun r => isFir r = true) reqs)
    ++ Array.sort (compareRequirements cfg)
         (filter (fun r => isFir r = false) reqs).
Proof.
  induction reqs as [|x reqs IH]; [reflexivity |].
  change (Array.sort (compareRequirements cfg) (x :: reqs))
    with (Array.insert (compareRequirements cfg) x
            (Array.sort (compareRequirements cfg) reqs)).
  rewrite IH, !filter_cons. destruct (isFir x) eqn:Ex.
  - rewrite decide_True, decide_False by congruence.
    change (Array.sort (compareRequirements cfg)
              (x :: filter (fun r => isFir r = true) reqs))
      with (Array.insert (compareRequirements cfg) x
              (Array.sort (compareRequirements cfg)
                 (filter (fun r => isFir r = true) reqs))).
    apply insert_app_l. apply Forall_forall. intros y Hy.
    rewrite sort_Permutation in Hy. apply list_elem_of_filter in Hy as [Hy _].
    apply compareRequirements_le. left. now split.
  - rewrite decide_False, decide_True by congruence.
    change (Array.sort (compareRequirements cfg)
              (x :: filter (fun r => isFir r = false) reqs))
      with (Array.insert (compareRequirements cfg) x
              (Array.sort (compareRequirements cfg)
                 (filter (fun r => isFir r = false) reqs))).
    apply insert_app_r. apply Forall_forall. intros y Hy.
    rewrite sort_Permutation in Hy. apply list_elem_of_filter in Hy as [Hy _].
    unfold compareRequirements. rewrite Ex, Hy. cbn. lia.
Qed.

Lemma filterRequirements_app (profile : Profile)
    (reqs1 reqs2 : list ItemRequirement) :
  forall inv : gmap string ItemCount,
    filterRequirements profile inv (reqs1 ++ reqs2)
    = ((filterRequirements profile inv reqs1).1
       ++ (filterRequirements profile
             (filterRequirements profile inv reqs1).2 reqs2).1,
       (filterRequirements profile
          (filterRequirements profile inv reqs1).2 reqs2).2).
Proof.
  induction reqs1 as [|req reqs1 IH]; intros inv; cbn [app filterRequirements].
  - cbn. now destruct (filterRequirements profile inv reqs2).
  - destruct (filterStep profile inv req) as [keep inv1]. rewrite IH.
    destruct (filterRequirements profile inv1 reqs1) as [out1 inv2].
    cbn [fst snd]. now destruct keep.
Qed.

(** X13.  Which found-in-raid requirements are incomplete does not
    depend on the other requirements: they come first in the order of
    consumption, so the incomplete requirements that demand found-in-raid
    copies are those the method finds when it is given the found-in-raid
    requirements alone. *)
Theorem fir_tier_independent (cfg : Config) (profile : Profile)
    (questItemRequirements hideoutItemRequirements : list ItemRequirement) :
  filter (fun r => isFir r = true)
         (incompleteItemRequirements cfg profile
            questItemRequirements hideoutItemRequirements)
  = incompleteItemRequirements cfg profile
      (filter (fun r => isFir r = true) questItemRequirements)
      (filter (fun r => isFir r = true) hideoutItemRequirements).
Proof.
  unfold incompleteItemRequirements, allItemRequirements.
  rewrite <- filter_app.
  generalize (questItemRequirements ++ hideoutItemRequirements). intros reqs.
  rewrite (sort_by_tier cfg reqs), filterRequirements_app. cbn [fst].
  set (firs := Array.sort (compareRequirements cfg)
                 (filter (fun r => isFir r = true) reqs)).
  set (others := Array.sort (compareRequirements cfg)
                   (filter (fun r => isFir r = false) reqs)).
  rewrite filter_app.
  rewrite (filter_all _ (filterRequirements profile _ firs).1).
  - rewrite (filter_none _ (filterRequirements profile _ others).1).
    + apply app_nil_r.
    + apply Forall_forall. intros y Hy.
      eapply elem_of_sublist in Hy; [| apply filterRequirements_sublist].
      unfold others in Hy. rewrite sort_Permutation in Hy.
      apply list_elem_of_filter in Hy as [Hy _]. cbn in Hy. congruence.
  - apply Forall_forall. intros y Hy.
    eapply elem_of_sublist in Hy; [| apply filterRequirements_sublist].
    unfold firs in Hy. rewrite sort_Permutation in Hy.
    now apply list_elem_of_filter in Hy as [Hy _].
Qed.

(** ** Stage 4 on any heap: what is never assigned to *)

Section Keeps.

Lemma bind_Some {A B : Type} (m : M A) (k : A -> M B) (h : heap)
    (b : B) (h' : heap) :
  bind m k h = Returns b h' ->
  exists (a : A) (h1 : heap), m h = Returns a h1 /\ k a h1 = Returns b h'.
Proof.
  unfold bind. destruct (m h) as [a h1| |]; [| discriminate ..].
  intros E. now exists a, h1.
Qed.

Lemma keeps_ret {A : Type} (X : gset loc) (a : A) : keeps X (ret a).
Proof. intros h a' h' [= _ <-]. apply frame_refl. Qed.

Lemma keeps_throw {A : Type} (X : gset loc) : keeps X (@throw A).
Proof. intros h a h' [=]. Qed.

Lemma keeps_bind {A B : Type} (X : gset loc) (m : M A) (k : A -> M B) :
  keeps X m -> (forall a : A, keeps X (k a)) -> keeps X (bind m k).
Proof.
  intros Hm Hk h b h' E. apply bind_Some in E as (a & h1 & Em & Ek).
  apply (frame_trans X X h h1 h'); [reflexivity | |].
  - exact (Hm _ _ _ Em).
  - exact (Hk _ _ _ _ Ek).
Qed.

Lemma keeps_alloc (X : gset loc) (o : obj) : keeps X (alloc o).
Proof.
  intros h a h' [= _ <-]. split.
  - rewrite dom_insert. set_solver.
  - intros l o' Hl _. rewrite lookup_insert_ne; [exact Hl |].
    intros <-. apply elem_of_dom_2 in Hl. exact (is_fresh (dom h) Hl).
Qed.

(** An object allocated by the computation may be assigned to after. *)
Lemma keeps_alloc_bind {B : Type} (X : gset loc) (o : obj) (k : val -> M B) :
  (forall l : loc, keeps (X ∪ {[l]}) (k (VRef l))) -> keeps X (bind (alloc o) k).
Proof.
  intros Hk h b h' E. apply bind_Some in E as (a & h1 & Ea & Ek).
  injection Ea as <- <-. destruct (Hk _ _ _ _ Ek) as [Hd Hf]. split.
  - rewrite dom_insert in Hd. set_solver.
  - intros l o' Hl Hn.
    assert (Hne : fresh (dom h) <> l).
    { intros <-. apply elem_of_dom_2 in Hl. exact (is_fresh (dom h) Hl). }
    apply Hf; [now rewrite lookup_insert_ne |].
    intros [HX | Hl']%elem_of_union; [exact (Hn HX) |].
    apply elem_of_singleton in Hl'. congruence.
Qed.

(** The reads return in the heap they start in. *)
Ltac keeps_read :=
  let E := fresh "E" in
  intros ? ? ? E;
  cbv [getProp hasProp spread entries elems asString asNumber
       bind deref ret throw unmodelled] in E;
  repeat case_match; try discriminate;
  simplify_eq; apply frame_refl.

Lemma keeps_getProp (X : gset loc) (v : val) (k : string) :
  keeps X (getProp v k).
Proof. keeps_read. Qed.

Lemma keeps_hasProp (X : gset loc) (k : string) (v : val) :
  keeps X (hasProp k v).
Proof. keeps_read. Qed.

Lemma keeps_spread (X : gset loc) (v : val) : keeps X (spread v).
Proof. keeps_read. Qed.

Lemma keeps_entries (X : gset loc) (v : val) : keeps X (entries v).
Proof. keeps_read. Qed.

Lemma keeps_elems (X : gset loc) (v : val) : keeps X (elems v).
Proof. keeps_read. Qed.

Lemma keeps_asString (X : gset loc) (v : val) : keeps X (asString v).
Proof. keeps_read. Qed.

Lemma keeps_asNumber (X : gset loc) (v : val) : keeps X (asNumber v).
Proof. keeps_read. Qed.

(** An assignment changes the object assigned to, and no other. *)
Lemma keeps_setProp (X : gset loc) (l : loc) (k : string) (x : val) :
  l ∈ X -> keeps X (setProp (VRef l) k x).
Proof.
  intros HX h a h' E. unfold setProp in E.
  destruct (h !! l) as [[props|vs]|] eqn:El; try discriminate.
  injection E as _ <-. split.
  - rewrite dom_insert. set_solver.
  - intros l' o Hl' Hn. rewrite lookup_insert_ne; [exact Hl' | congruence].
Qed.

Lemma keeps_mapM {A B : Type} (X : gset loc) (f : A -> M B) (l : list A) :
  (forall x : A, keeps X (f x)) -> keeps X (mapM f l).
Proof.
  intros Hf. induction l as [|x l IH]; cbn [mapM]; [apply keeps_ret |].
  apply keeps_bind; [apply Hf |]. intros y.
  apply keeps_bind; [exact IH |]. intros ys. apply keeps_ret.
Qed.

Lemma keeps_forEach {A : Type} (X : gset loc) (f : A -> M unit) (l : list A) :
  (forall x : A, keeps X (f x)) -> keeps X (forEach f l).
Proof.
  intros Hf. induction l as [|x l IH]; cbn [forEach]; [apply keeps_ret |].
  apply keeps_bind; [apply Hf |]. intros _. exact IH.
Qed.

Lemma keeps_arrayMap (X : gset loc) (f : val -> M val) (arr : val) :
  (forall x : val, keeps X (f x)) -> keeps X (arrayMap f arr).
Proof.
  intros Hf. apply keeps_bind; [apply keeps_elems |]. intros vs.
  apply keeps_bind; [now apply keeps_mapM |]. intros vs'. apply keeps_alloc.
Qed.

End Keeps.

(** One step of a proof that a computation keeps the heap: the rule of
    the head of the computation. *)
Ltac keeps_step :=
  lazymatch goal with
  | |- keeps _ (bind (alloc _) _) => apply keeps_alloc_bind; intros ?
  | |- keeps _ (bind _ _) => apply keeps_bind; [| intros ?]
  | |- keeps _ (ret _) => apply keeps_ret
  | |- keeps _ (alloc _) => apply keeps_alloc
  | |- keeps _ (getProp _ _) => apply keeps_getProp
  | |- keeps _ (hasProp _ _) => apply keeps_hasProp
  | |- keeps _ (spread _) => apply keeps_spread
  | |- keeps _ (entries _) => apply keeps_entries
  | |- keeps _ (elems _) => apply keeps_elems
  | |- keeps _ (asString _) => apply keeps_asString
  | |- keeps _ (asNumber _) => apply keeps_asNumber
  | |- keeps _ (setProp (VRef _) _ _) => apply keeps_setProp; set_solver
  | |- keeps _ (if ?b then _ else _) => destruct b
  end.

Section KeepsRewriter.
Context (newProbability : string -> Q -> Q).

Lemma keeps_newItemDistribution (X : gset loc) (dist : val) :
  keeps X (newItemDistribution newProbability dist).
Proof. unfold newItemDistribution. repeat keeps_step. Qed.

Lemma keeps_newContainer (X : gset loc) (container : val) :
  keeps X (newContainer newProbability container).
Proof.
  unfold newContainer. keeps_step; [keeps_step |].
  keeps_step; [apply keeps_arrayMap; intros x; apply keeps_newItemDistribution |].
  repeat keeps_step.
Qed.

Lemma keeps_newStaticLoot (X : gset loc) (loot : val) :
  keeps X (newStaticLoot newProbability loot).
Proof.
  unfold newStaticLoot. keeps_step. keeps_step; [keeps_step |].
  keeps_step; [keeps_step |]. keeps_step; [| keeps_step].
  apply keeps_forEach. intros [containerId container].
  keeps_step; [apply keeps_newContainer | keeps_step].
Qed.

Lemma keeps_newLootTables (X : gset loc) (loot : val) :
  keeps X (newLootTables newProbability loot).
Proof.
  unfold newLootTables. keeps_step; [apply keeps_newStaticLoot |].
  repeat keeps_step.
Qed.

Lemma keeps_newLooseItemDistribution (X : gset loc) (idToTpl dist : val) :
  keeps X (newLooseItemDistribution newProbability idToTpl dist).
Proof. unfold newLooseItemDistribution. repeat keeps_step. Qed.

Lemma keeps_newSpawnPoint (X : gset loc) (spawnPoint : val) :
  keeps X (newSpawnPoint newProbability spawnPoint).
Proof.
  unfold newSpawnPoint. keeps_step. keeps_step; [keeps_step |].
  keeps_step; [keeps_step |]. keeps_step; [keeps_step |].
  keeps_step; [apply keeps_forEach; intros i; repeat keeps_step |].
  keeps_step; [keeps_step |]. keeps_step; [keeps_step |].
  keeps_step; [| keeps_step].
  apply keeps_arrayMap. intros x. apply keeps_newLooseItemDistribution.
Qed.

Lemma keeps_newLocation (X : gset loc) (location : val) :
  keeps X (newLocation newProbability location).
Proof.
  unfold newLocation. keeps_step; [keeps_step |].
  keeps_step; [keeps_step |]. keeps_step; [keeps_step |].
  keeps_step; [keeps_step |]. keeps_step; [keeps_step |].
  keeps_step. keeps_step; [keeps_step |].
  keeps_step; [apply keeps_arrayMap; intros x; apply keeps_newSpawnPoint |].
  repeat keeps_step.
Qed.

Lemma keeps_newLocations (X : gset loc) (locations : val) :
  keeps X (newLocations newProbability locations).
Proof.
  unfold newLocations. keeps_step. keeps_step; [keeps_step |].
  keeps_step; [| keeps_step].
  apply keeps_forEach. intros [locationId location].
  keeps_step; [apply keeps_newLocation | keeps_step].
Qed.

(** The loot table returned is an object that was not there. *)
Lemma newLootTables_new (loot : val) (h : heap) (r : val) (h' : heap) :
  newLootTables newProbability loot h = Returns r h' ->
  exists l : loc, r = VRef l /\ (l ∉ dom h) /\ l ∈ dom h'.
Proof.
  intros E. unfold newLootTables in E.
  apply bind_Some in E as (nsl & h1 & E1 & E).
  apply bind_Some in E as (props & h2 & E2 & E).
  apply (keeps_newStaticLoot ∅) in E1 as [Hd1 _].
  apply (keeps_spread ∅) in E2 as [Hd2 _].
  injection E as <- <-. exists (fresh (dom h2)).
  split; [reflexivity |]. split.
  - intros Hl. apply (is_fresh (dom h2)). set_solver.
  - rewrite dom_insert. set_solver.
Qed.

(** So is the dictionary of locations. *)
Lemma newLocations_new (locations : val) (h : heap) (r : val) (h' : heap) :
  newLocations newProbability locations h = Returns r h' ->
  exists l : loc, r = VRef l /\ (l ∉ dom h) /\ l ∈ dom h'.
Proof.
  intros E. unfold newLocations in E.
  apply bind_Some in E as (nl & h1 & E1 & E). injection E1 as <- <-.
  apply bind_Some in E as (es & h2 & E2 & E).
  apply bind_Some in E as (u & h3 & E3 & E). injection E as <- <-.
  apply (keeps_entries ∅) in E2 as [Hd2 _].
  assert (Hd3 : dom h2 ⊆ dom h3).
  { eapply (keeps_forEach {[fresh (dom h)]}); [| exact E3].
    intros [locationId location].
    keeps_step; [apply keeps_newLocation | keeps_step]. }
  exists (fresh (dom h)). split; [reflexivity |]. split; [apply is_fresh |].
  apply Hd3, Hd2. rewrite dom_insert. set_solver.
Qed.

End KeepsRewriter.

(** X14.  Nothing is asked of the heap or of the two arguments: the
    tables may lack entries, share objects or have another shape than
    declared.  If the run returns, then every object of the heap the
    method was called in is where it was and as it was: the method
    assigns to objects it has made, and to no other.  The runs are those
    of the model of stage 4; a run that goes on with a conversion or a
    built-in property the model does not have is not among them. *)
Theorem getUpdatedLootTables_keeps (cfg : Config) (profile : Profile)
    (questItemRequirements hideoutItemRequirements : list ItemRequirement)
    (loot locations : val) (h : heap) (r : val * val) (h' : heap) :
  getUpdatedLootTables cfg profile
    questItemRequirements hideoutItemRequirements loot locations h
  = Returns r h' ->
  h ⊆ h'.
Proof.
  intros E. apply frame_empty. revert h r h' E.
  change (keeps ∅ (getUpdatedLootTables cfg profile
                     questItemRequirements hideoutItemRequirements
                     loot locations)).
  unfold getUpdatedLootTables.
  keeps_step; [apply keeps_newLootTables |].
  keeps_step; [apply keeps_newLocations | keeps_step].
Qed.

(** On the heap of tables that are not as declared the method returns,
    and keeps the heap. *)
Lemma getUpdatedLootTables_keeps_witness :
  exists (r : val * val) (h' : heap),
    getUpdatedLootTables Examples.config Examples.emptyProfile
      [] [Hideout (Examples.requirement "X" 1 10)]
      (VRef 0%nat) (VRef 5%nat) MoreExamples.looseHeap
    = Returns r h'
    /\ MoreExamples.looseHeap ⊆ h'.
Proof.
  destruct (getUpdatedLootTables Examples.config Examples.emptyProfile
              [] [Hideout (Examples.requirement "X" 1 10)]
              (VRef 0%nat) (VRef 5%nat) MoreExamples.looseHeap)
    as [r h'| |] eqn:E; [| vm_compute in E; discriminate ..].
  exists r, h'. split; [reflexivity |].
  exact (getUpdatedLootTables_keeps _ _ _ _ _ _ _ _ _ E).
Defined.

(** X15.  Nothing is asked of the heap or of the two arguments.  If
    the run returns, then the two values returned are references to two
    different objects, neither of which was in the heap the method was
    called in.  The runs are those of the model of stage 4. *)
Theorem getUpdatedLootTables_new_objects (cfg : Config) (profile : Profile)
    (questItemRequirements hideoutItemRequirements : list ItemRequirement)
    (loot locations : val) (h : heap) (r : val * val) (h' : heap) :
  getUpdatedLootTables cfg profile
    questItemRequirements hideoutItemRequirements loot locations h
  = Returns r h' ->
  exists l1 l2 : loc,
    r = (VRef l1, VRef l2)
    /\ l1 <> l2
    /\ (l1 ∉ dom h) /\ (l2 ∉ dom h)
    /\ l1 ∈ dom h' /\ l2 ∈ dom h'.
Proof.
  intros E. unfold getUpdatedLootTables in E.
  apply bind_Some in E as (r1 & h1 & E1 & E).
  apply bind_Some in E as (r2 & h2 & E2 & E). injection E as <- <-.
  pose proof (keeps_newLootTables _ ∅ _ _ _ _ E1) as [Hd1 _].
  pose proof (keeps_newLocations _ ∅ _ _ _ _ E2) as [Hd2 _].
  apply newLootTables_new in E1 as (l1 & -> & Hn1 & Hi1).
  apply newLocations_new in E2 as (l2 & -> & Hn2 & Hi2).
  exists l1, l2. split; [reflexivity |].
  split; [intros ->; contradiction |].
  split; [exact Hn1 |]. split; [set_solver |]. split; [set_solver | exact Hi2].
Qed.

(** On the example heap, of addresses 0 to 17, the method returns two
    new references. *)
Lemma getUpdatedLootTables_new_objects_witness :
  exists (r : val * val) (h' : heap) (l1 l2 : loc),
    getUpdatedLootTables Examples.config Examples.emptyProfile
      [] [Hideout (Examples.requirement "X" 1 10)]
      SampleTables.loot SampleTables.locations SampleTables.heap
    = Returns r h'
    /\ r = (VRef l1, VRef l2)
    /\ l1 <> l2
    /\ (l1 ∉ dom SampleTables.heap) /\ (l2 ∉ dom SampleTables.heap).
Proof.
  destruct (getUpdatedLootTables Examples.config Examples.emptyProfile
              [] [Hideout (Examples.requirement "X" 1 10)]
              SampleTables.loot SampleTables.locations SampleTables.heap)
    as [r h'| |] eqn:E; [| vm_compute in E; discriminate ..].
  destruct (getUpdatedLootTables_new_objects _ _ _ _ _ _ _ _ _ E)
    as (l1 & l2 & Hr & Hne & Hn1 & Hn2 & _).
  exists r, h', l1, l2. auto.
Defined.

(** ** Nothing incomplete: the tables come back with the same content *)

Section Unchanged.
Context (f : string -> Q -> Q).
Hypothesis f_same : forall (tpl : string) (p : Q), f tpl p = p.

Lemma unchanged_newContainer (c : Typed.IStaticLootDetails) :
  Typed.newContainer f c = c.
Proof.
  destruct c as [counts dists]. unfold Typed.newContainer. cbn. f_equal.
  rewrite <- (map_id dists) at 2. apply map_ext. intros [tpl p].
  unfold Typed.newItemDistribution. cbn. now rewrite f_same.
Qed.

Lemma unchanged_newLootTables (loot : Typed.ILootBase) :
  Typed.newLootTables f loot = loot.
Proof.
  destruct loot as [containers others]. unfold Typed.newLootTables. cbn.
  f_equal. apply map_eq. intros k. rewrite lookup_fmap.
  destruct (containers !! k) as [c|]; cbn; [| reflexivity].
  now rewrite unchanged_newContainer.
Qed.

Lemma unchanged_newSpawnPoint (sp : Typed.Spawnpoint) :
  Typed.newSpawnPoint f sp = sp.
Proof.
  destruct sp as [items dists others]. unfold Typed.newSpawnPoint.
  cbn [Typed.templateItems Typed.looseItemDistribution Typed.spawnpointOthers].
  f_equal. rewrite <- (map_id dists) at 2. apply map_ext. intros [key p].
  unfold Typed.newLooseItemDistribution.
  cbn [Typed.key Typed.looseRelativeProbability].
  destruct (Typed.idToTpl items !! key) as [tpl|]; [| reflexivity].
  destruct (String.eqb tpl ""); [reflexivity |]. now rewrite f_same.
Qed.

Lemma unchanged_newLocations (locations : gmap string Typed.Location) :
  Typed.newLocations f locations = locations.
Proof.
  unfold Typed.newLocations. apply map_eq. intros k. rewrite lookup_fmap.
  destruct (locations !! k) as [[[sps llOthers] others|v]|]; cbn;
    [| reflexivity | reflexivity].
  do 2 f_equal. unfold Typed.newLooseLoot. cbn. f_equal.
  rewrite <- (map_id sps) at 2. apply map_ext. intros sp.
  apply unchanged_newSpawnPoint.
Qed.

End Unchanged.

(** The method on a heap that holds tables: it returns, and the
    references returned hold the tables of [Typed]. *)
Lemma getUpdatedLootTables_holds (cfg : Config) (profile : Profile)
    (questItemRequirements hideoutItemRequirements : list ItemRequirement)
    (h : heap) (loot locations : val)
    (lootTable : Typed.ILootBase) (locationTables : gmap string Typed.Location) :
  Typed.isLootBase h lootTable loot ->
  Typed.isLocations h locationTables locations ->
  let newProbability :=
    getNewLootProbability cfg
      (itemDropRateMultipliers cfg profile
         questItemRequirements hideoutItemRequirements) in
  exists (newLootTables newLocations : val) (h' : heap),
    getUpdatedLootTables cfg profile
      questItemRequirements hideoutItemRequirements loot locations h
    = Returns (newLootTables, newLocations) h'
    /\ Typed.isLootBase h' (Typed.newLootTables newProbability lootTable)
         newLootTables
    /\ Typed.isLocations h' (Typed.newLocations newProbability locationTables)
         newLocations.
Proof.
  intros Hloot Hlocs newProbability.
  assert (Hwf : wf ∅ h h).
  { split; [reflexivity |]. split; [apply disjoint_empty_r | apply empty_subseteq]. }
  assert (Hspec :
    spec ∅ (getUpdatedLootTables cfg profile
              questItemRequirements hideoutItemRequirements loot locations) h h
      (fun r _ σ' =>
         Typed.isLootBase σ' (Typed.newLootTables newProbability lootTable) r.1
         /\ Typed.isLocations σ'
              (Typed.newLocations newProbability locationTables) r.2)).
  { unfold getUpdatedLootTables. fold newProbability.
    eapply (spec_bind ∅ ∅); [reflexivity | exact Hwf | |].
    { exact (newLootTables_spec newProbability h h lootTable loot Hwf Hloot). }
    intros newLoot h1 σ1 Hwf1 _ Hσ1 HnewLoot. cbn beta.
    eapply (spec_bind ∅ ∅); [reflexivity | exact Hwf1 | |].
    { apply (newLocations_spec newProbability h1 σ1 locationTables locations Hwf1).
      exact (isLocations_mono h σ1 Hσ1 _ _ Hlocs). }
    intros newLocs h2 σ2 Hwf2 _ Hσ2 HnewLocs. cbn beta.
    apply spec_ret; [exact Hwf2 |]. cbn [fst snd]. split; [| exact HnewLocs].
    exact (isLootBase_mono σ1 σ2 Hσ2 _ _ HnewLoot). }
  destruct Hspec as ([newLoot newLocs] & h' & σ' & Hrun & _ & _ & Hσ'
                     & HnewLoot & HnewLocs).
  cbn [fst snd] in HnewLoot, HnewLocs.
  exists newLoot, newLocs, h'. split; [exact Hrun |].
  split; [exact (isLootBase_mono σ' h' Hσ' _ _ HnewLoot) |].
  exact (isLocations_mono σ' h' Hσ' _ _ HnewLocs).
Qed.

(** X16.  When the filter leaves no requirement incomplete, the method
    changes no probability: the two references it returns hold the same
    tables as the two it was given, entry by entry, with no rounding. *)
Theorem nothing_incomplete_same_tables (cfg : Config) (profile : Profile)
    (questItemRequirements hideoutItemRequirements : list ItemRequirement)
    (h : heap) (loot locations : val)
    (lootTable : Typed.ILootBase) (locationTables : gmap string Typed.Location) :
  incompleteItemRequirements cfg profile
    questItemRequirements hideoutItemRequirements = [] ->
  Typed.isLootBase h lootTable loot ->
  Typed.isLocations h locationTables locations ->
  exists (newLootTables newLocations : val) (h' : heap),
    getUpdatedLootTables cfg profile
      questItemRequirements hideoutItemRequirements loot locations h
    = Returns (newLootTables, newLocations) h'
    /\ Typed.isLootBase h' lootTable newLootTables
    /\ Typed.isLocations h' locationTables newLocations.
Proof.
  intros Hnone Hloot Hlocs.
  destruct (getUpdatedLootTables_holds cfg profile
              questItemRequirements hideoutItemRequirements
              h loot locations lootTable locationTables Hloot Hlocs)
    as (newLoot & newLocs & h' & Hrun & HnewLoot & HnewLocs).
  assert (Hsame : forall (tpl : string) (p : Q),
             getNewLootProbability cfg
               (itemDropRateMultipliers cfg profile
                  questItemRequirements hideoutItemRequirements) tpl p = p).
  { intros tpl p. unfold itemDropRateMultipliers. rewrite Hnone.
    reflexivity. }
  rewrite (unchanged_newLootTables _ Hsame) in HnewLoot.
  rewrite (unchanged_newLocations _ Hsame) in HnewLocs.
  now exists newLoot, newLocs, h'.
Qed.

Section SameTablesExample.
Local Open Scope string_scope.

(** A hideout requirement for one X and a stack of one X held: nothing
    is incomplete, and the example tables come back as they are. *)
Lemma nothing_incomplete_same_tables_witness :
  let profile := {| items := [Examples.stack "X" 1 false];
                    BackendCounters := ∅ |} in
  let hideout := [Hideout (Examples.requirement "X" 1 10)] in
  incompleteItemRequirements Examples.config profile [] hideout = []
  /\ exists (newLootTables newLocations : val) (h' : heap),
       getUpdatedLootTables Examples.config profile [] hideout
         SampleTables.loot SampleTables.locations SampleTables.heap
       = Returns (newLootTables, newLocations) h'
       /\ Typed.isLootBase h' SampleTables.lootTable newLootTables
       /\ Typed.isLocations h' SampleTables.locationTables newLocations.
Proof.
  intros profile hideout. split; [vm_compute; reflexivity |].
  apply (nothing_incomplete_same_tables Examples.config profile [] hideout
           SampleTables.heap SampleTables.loot SampleTables.locations
           SampleTables.lootTable SampleTables.locationTables).
  - vm_compute. reflexivity.
  - exact example_isLootBase.
  - exact example_isLocations.
Defined.

End SameTablesExample.

(** ** The template items of a spawn point *)

(** X17.  [idToTpl] gives an id the item type of the last template
    item that has this id, and has no entry for an id that no template
    item has. *)
Theorem idToTpl_last (items : list Typed.TemplateItem) (k : string) :
  Typed.idToTpl items !! k
  = Typed.templateTpl <$> last (filter (fun i => Typed._id i = k) items).
Proof.
  unfold Typed.idToTpl.
  induction items as [|i items IH] using rev_ind; [reflexivity |].
  rewrite foldl_snoc, filter_app, filter_cons, filter_nil.
  destruct (decide (Typed._id i = k)) as [<-|Hne].
  - now rewrite lookup_insert_eq, last_snoc.
  - rewrite lookup_insert_ne by exact Hne. now rewrite app_nil_r.
Qed.

(** ** Stage 4: tables the method throws on *)

Section Throws.
Local Open Scope string_scope.
Context (newProbability : string -> Q -> Q).

Lemma fresh_not_held (h : heap) (l : loc) (o : obj) :
  h !! l = Some o -> fresh (dom h) <> l.
Proof.
  intros Hl <-. apply elem_of_dom_2 in Hl. exact (is_fresh (dom h) Hl).
Qed.

Lemma bind_eq {A B : Type} (m : M A) (k : A -> M B) (h : heap)
    (a : A) (h1 : heap) :
  m h = Returns a h1 -> bind m k h = k a h1.
Proof. intros E. unfold bind. now rewrite E. Qed.

Lemma bind_Throws {A B : Type} (m : M A) (k : A -> M B) (h : heap) :
  m h = Throws -> bind m k h = Throws.
Proof. intros E. unfold bind. now rewrite E. Qed.

(** What follows a run that does not return does not return. *)
Lemma bind_no_result {A B : Type} (m : M A) (k : A -> M B) (h : heap) :
  result (m h) = None -> result (bind m k h) = None.
Proof. unfold bind. now destruct (m h). Qed.

Lemma bind_alloc {B : Type} (o : obj) (k : val -> M B) (h : heap) :
  bind (alloc o) k h = k (VRef (fresh (dom h))) (<[fresh (dom h) := o]> h).
Proof. reflexivity. Qed.

Lemma newLootTables_no_staticLoot (l : loc) (props : gmap string val)
    (h : heap) :
  h !! l = Some (Obj props) ->
  default VUndefined (props !! "staticLoot") = VUndefined
  \/ props !! "staticLoot" = Some VNull ->
  newLootTables newProbability (VRef l) h = Throws.
Proof.
  intros Hl Hsl.
  assert (E : <[fresh (dom h) := Obj ∅]> h !! l = Some (Obj props)).
  { rewrite lookup_insert_ne; [exact Hl | exact (fresh_not_held h l _ Hl)]. }
  unfold newLootTables. apply bind_Throws. unfold newStaticLoot.
  rewrite bind_alloc.
  rewrite (bind_eq _ _ _ _ _ (getProp_Obj _ l props "staticLoot" E)).
  apply bind_Throws. destruct Hsl as [-> | ->]; reflexivity.
Qed.

(** A loop does not return when one of its turns does not return in
    any heap that has property [I], and every turn keeps [I]. *)
Lemma forEach_no_result {A : Type} (I : heap -> Prop) (f : A -> M unit)
    (l : list A) (x : A) :
  x ∈ l ->
  (forall (y : A) (h : heap) (a : unit) (h' : heap),
      I h -> f y h = Returns a h' -> I h') ->
  (forall h : heap, I h -> result (f x h) = None) ->
  forall h : heap, I h -> result (forEach f l h) = None.
Proof.
  intros Hx Hkeep Hthrow.
  induction l as [|y l IH]; intros h HI; [now apply elem_of_nil in Hx |].
  cbn [forEach]. unfold bind.
  destruct (f y h) as [a h1| |] eqn:Ey; [| reflexivity ..].
  apply elem_of_cons in Hx as [<- | Hx].
  - pose proof (Hthrow h HI) as H. rewrite Ey in H. discriminate.
  - exact (IH Hx h1 (Hkeep y h a h1 HI Ey)).
Qed.

(** The location itself: the run of its turn throws at [.map]. *)
Lemma newLocation_looseLoot_undefined (l : loc) (props : gmap string val)
    (h : heap) :
  h !! l = Some (Obj props) ->
  props !! "looseLoot" = Some VUndefined \/ props !! "looseLoot" = Some VNull ->
  newLocation newProbability (VRef l) h = Throws.
Proof.
  intros Hl Hll.
  assert (His : is_Some (props !! "looseLoot"))
    by (destruct Hll as [-> | ->]; eauto).
  assert (Hspread : spread (default VUndefined (props !! "looseLoot")) h
                    = Returns ∅ h)
    by (destruct Hll as [-> | ->]; reflexivity).
  unfold newLocation. cbn [toBoolean negb].
  rewrite (bind_eq _ _ _ _ _ (hasProp_Some h l _ "looseLoot" Hl)).
  rewrite (bool_decide_eq_true_2 _ His). cbn [negb].
  rewrite (bind_eq _ _ _ _ _ (getProp_Obj h l props "looseLoot" Hl)).
  rewrite (bind_eq _ _ _ _ _ Hspread).
  rewrite bind_alloc.
  rewrite (bind_eq _ _ _ _ _
             (getProp_Obj _ (fresh (dom h)) ∅ "spawnpoints"
                (lookup_insert_eq h (fresh (dom h)) (Obj ∅)))).
  rewrite lookup_empty. apply bind_Throws. reflexivity.
Qed.

Lemma newLocations_looseLoot_undefined (l l0 : loc) (k : string)
    (locs props : gmap string val) (h : heap) :
  h !! l = Some (Obj locs) ->
  locs !! k = Some (VRef l0) ->
  h !! l0 = Some (Obj props) ->
  props !! "looseLoot" = Some VUndefined \/ props !! "looseLoot" = Some VNull ->
  result (newLocations newProbability (VRef l) h) = None.
Proof.
  intros Hl Hk Hl0 Hll.
  assert (E : <[fresh (dom h) := Obj ∅]> h !! l = Some (Obj locs)).
  { rewrite lookup_insert_ne; [exact Hl | exact (fresh_not_held h l _ Hl)]. }
  unfold newLocations. rewrite bind_alloc.
  rewrite (bind_eq _ _ _ _ _ (entries_Obj _ l locs E)).
  apply bind_no_result.
  apply (forEach_no_result (fun h1 => h1 !! l0 = Some (Obj props)) _
           (map_to_list locs) (k, VRef l0)).
  - now apply elem_of_map_to_list.
  - intros [locationId location] h1 a h2 HI Ef.
    assert (Hkeeps : keeps {[fresh (dom h)]}
              (let* newLocation := newLocation newProbability location in
               setProp (VRef (fresh (dom h))) locationId newLocation)).
    { keeps_step; [apply keeps_newLocation | keeps_step]. }
    apply (Hkeeps _ _ _ Ef); [exact HI |].
    intros Ht%elem_of_singleton. exact (fresh_not_held h l0 _ Hl0 (eq_sym Ht)).
  - intros h1 HI. apply bind_no_result.
    now rewrite (newLocation_looseLoot_undefined l0 props h1 HI Hll).
  - rewrite lookup_insert_ne; [exact Hl0 | exact (fresh_not_held h l0 _ Hl0)].
Qed.

End Throws.

Section ThrowsTheorems.
Local Open Scope string_scope.

(** X18.  A loot object whose [staticLoot] is missing, [undefined] or
    [null] makes the method throw: [Object.entries] (line 251) has no
    object to list. *)
Theorem getUpdatedLootTables_no_staticLoot (cfg : Config) (profile : Profile)
    (questItemRequirements hideoutItemRequirements : list ItemRequirement)
    (l : loc) (props : gmap string val) (locations : val) (h : heap) :
  h !! l = Some (Obj props) ->
  default VUndefined (props !! "staticLoot") = VUndefined
  \/ props !! "staticLoot" = Some VNull ->
  getUpdatedLootTables cfg profile
    questItemRequirements hideoutItemRequirements (VRef l) locations h
  = Throws.
Proof.
  intros Hl Hsl. unfold getUpdatedLootTables. apply bind_Throws.
  exact (newLootTables_no_staticLoot _ l props h Hl Hsl).
Qed.

(** The example heap with a loot object that has no [staticLoot]. *)
Lemma getUpdatedLootTables_no_staticLoot_witness :
  let h := <[0%nat := Obj {[ "staticAmmo" := VNull ]}]> SampleTables.heap in
  h !! 0%nat = Some (Obj {[ "staticAmmo" := VNull ]})
  /\ getUpdatedLootTables Examples.config Examples.emptyProfile
       [] [Hideout (Examples.requirement "X" 1 10)]
       (VRef 0%nat) SampleTables.locations h
     = Throws.
Proof.
  intros h. split; [reflexivity |].
  apply (getUpdatedLootTables_no_staticLoot _ _ _ _ 0%nat
           {[ "staticAmmo" := VNull ]}).
  - reflexivity.
  - left. reflexivity.
Defined.

(** X19.  The test of line 276 asks whether a location has a property
    [looseLoot], not what it holds: a location whose [looseLoot] is
    there and is [undefined] or [null] passes the test, its copy has no
    [spawnpoints], and [.map] (line 282) throws.  So the method does
    not return, whatever the other locations and the loot object are:
    no run that gets to that location gets past it. *)
Theorem getUpdatedLootTables_looseLoot_undefined (cfg : Config)
    (profile : Profile)
    (questItemRequirements hideoutItemRequirements : list ItemRequirement)
    (loot : val) (l l0 : loc) (k : string) (locs props : gmap string val)
    (h : heap) :
  h !! l = Some (Obj locs) ->
  locs !! k = Some (VRef l0) ->
  h !! l0 = Some (Obj props) ->
  props !! "looseLoot" = Some VUndefined \/ props !! "looseLoot" = Some VNull ->
  result (getUpdatedLootTables cfg profile
            questItemRequirements hideoutItemRequirements loot (VRef l) h)
  = None.
Proof.
  intros Hl Hk Hl0 Hll. unfold getUpdatedLootTables.
  destruct (newLootTables
              (getNewLootProbability cfg
                 (itemDropRateMultipliers cfg profile
                    questItemRequirements hideoutItemRequirements))
              loot h) as [newLoot h1| |] eqn:E;
    [| apply bind_no_result; now rewrite E ..].
  rewrite (bind_eq _ _ _ _ _ E).
  apply (keeps_newLootTables _ ∅) in E. apply frame_empty in E.
  apply bind_no_result.
  exact (newLocations_looseLoot_undefined _ l l0 k locs props h1
           (lookup_weaken _ _ _ _ Hl E) Hk (lookup_weaken _ _ _ _ Hl0 E) Hll).
Qed.

(** The example heap with a location [bigmap] whose [looseLoot] is
    [undefined]: the run throws. *)
Lemma getUpdatedLootTables_looseLoot_undefined_witness :
  let h := <[7%nat := Obj {[ "looseLoot" := VUndefined ]}]> SampleTables.heap in
  h !! 7%nat = Some (Obj {[ "looseLoot" := VUndefined ]})
  /\ result (getUpdatedLootTables Examples.config Examples.emptyProfile
               [] [Hideout (Examples.requirement "X" 1 10)]
               SampleTables.loot (VRef 6%nat) h)
     = None
  /\ getUpdatedLootTables Examples.config Examples.emptyProfile
       [] [Hideout (Examples.requirement "X" 1 10)]
       SampleTables.loot (VRef 6%nat) h
     = Throws.
Proof.
  intros h. split; [reflexivity |]. split; [| vm_compute; reflexivity].
  apply (getUpdatedLootTables_looseLoot_undefined _ _ _ _ _ 6%nat 7%nat "bigmap"
           {[ "bigmap" := VRef 7%nat; "base" := VRef 8%nat ]}
           {[ "looseLoot" := VUndefined ]}).
  - reflexivity.
  - reflexivity.
  - reflexivity.
  - left. reflexivity.
Defined.

End ThrowsTheorems.
